(** * ecs-bc: the sandboxed system runtime, embedded in Rocq

    A shallow embedding of the resource-metering, access-control, schema
    validation, record registry, event routing, metrics, capability context,
    component mask, source screening and system loading code of the
    repository, together with the properties its specification states about
    them and further properties read off the code.

    Conventions of the embedding:
    - a JavaScript [number] that the code uses as a counter, an identifier
      or a gas amount is a [Z];
    - a method that can [throw] is a state transformer returning an
      [Outcome] next to the state it leaves behind, so that what a failed
      call did to the object before throwing stays visible;
    - a [Map] or [Set] that is only looked up is a [gmap] or [gset]; a
      [Map] whose iteration order the code relies on is an association
      list kept in insertion order;
    - a callback that can call back into the object that runs it is the
      tree of the calls it makes, and the method that runs it is given by
      recursion on a bound of the nesting. *)

From Stdlib Require Import ZArith Lia.
From stdpp Require Import base decidable option list gmap sets strings pretty.

Open Scope Z_scope.

(** ** Calls that may throw *)

Inductive Outcome (E A : Type) : Type :=
| Returned (a : A)
| Thrown (e : E).
Arguments Returned {E A} a.
Arguments Thrown {E A} e.

(** [Exec S E A]: a method of an object with state [S], returning [A] or
    throwing [E]; the final state is produced in both cases. *)
Definition Exec (S E A : Type) : Type := S → Outcome E A * S.

Definition ret {S E A} (a : A) : Exec S E A := λ s, (Returned a, s).
Definition throw {S E A} (e : E) : Exec S E A := λ s, (Thrown e, s).
Definition bind {S E A B} (m : Exec S E A) (k : A → Exec S E B) : Exec S E B :=
  λ s, match m s with
       | (Returned a, s') => k a s'
       | (Thrown e, s') => (Thrown e, s')
       end.
Definition get {S E} : Exec S E S := λ s, (Returned s, s).
Definition put {S E} (s : S) : Exec S E unit := λ _, (Returned tt, s).
Definition modify {S E} (f : S → S) : Exec S E unit := λ s, (Returned tt, f s).

Declare Scope exec_scope.
Delimit Scope exec_scope with exec.
Notation "'let*' x ':=' m 'in' k" := (bind m (λ x, k))
  (at level 10, x name, m at level 100, k at level 200) : exec_scope.
Notation "m ';;' k" := (bind m (λ _, k))
  (at level 100, k at level 200, right associativity) : exec_scope.

Definition returned {E A} (o : Outcome E A) : bool :=
  match o with Returned _ => true | Thrown _ => false end.

(** ** Array helpers used by several classes *)

Section ArrayHelpers.
Context {A : Type} `{EqDecision A}.

(** [Array.prototype.includes] *)
Definition includes (x : A) (l : list A) : bool := bool_decide (x ∈ l).

(** [Array.prototype.indexOf]: [None] stands for [-1]. *)
Definition indexOf (x : A) (l : list A) : option nat :=
  fst <$> list_find (λ y, y = x) l.

(** [const i = a.indexOf(x); if (i >= 0) a.splice(i, 1)] *)
Definition spliceOut (x : A) (l : list A) : list A :=
  match indexOf x l with
  | Some i => delete i l
  | None => l
  end.

(** [if (!a.includes(x)) a.push(x)] *)
Definition pushIfAbsent (x : A) (l : list A) : list A :=
  if includes x l then l else l ++ [x].

Lemma includes_true x l : includes x l = true ↔ x ∈ l.
Proof. unfold includes. apply bool_decide_eq_true. Qed.

Lemma includes_false x l : includes x l = false ↔ x ∉ l.
Proof. unfold includes. apply bool_decide_eq_false. Qed.

Lemma spliceOut_cons x y l :
  spliceOut x (y :: l) = if decide (y = x) then l else y :: spliceOut x l.
Proof.
  unfold spliceOut, indexOf. cbn [list_find].
  destruct (decide (y = x)) as [->|Hne]; [done|].
  destruct (list_find (λ y0, y0 = x) l) as [[i z]|]; done.
Qed.

Lemma spliceOut_absent x l : x ∉ l → spliceOut x l = l.
Proof.
  induction l as [|y l IH]; [done|].
  rewrite not_elem_of_cons. intros [Hxy Hl].
  rewrite spliceOut_cons. destruct (decide (y = x)); [congruence|].
  by rewrite IH.
Qed.

Lemma elem_of_spliceOut_ne x y l : y ≠ x → y ∈ spliceOut x l ↔ y ∈ l.
Proof.
  intros Hne. induction l as [|z l IH]; [done|].
  rewrite spliceOut_cons. destruct (decide (z = x)) as [->|Hz].
  - rewrite elem_of_cons. naive_solver.
  - rewrite !elem_of_cons, IH. done.
Qed.

Lemma elem_of_spliceOut x y l : y ∈ spliceOut x l → y ∈ l.
Proof.
  induction l as [|z l IH]; [done|].
  rewrite spliceOut_cons. destruct (decide (z = x)) as [->|Hz].
  - intros Hy. apply elem_of_cons. by right.
  - rewrite !elem_of_cons. naive_solver.
Qed.

Lemma NoDup_spliceOut x l : NoDup l → NoDup (spliceOut x l).
Proof.
  induction 1 as [|z l Hz Hl IH]; [constructor|].
  rewrite spliceOut_cons. destruct (decide (z = x)); [done|].
  constructor; [|done]. intros Hin. apply Hz. by eapply elem_of_spliceOut.
Qed.

Lemma not_elem_of_spliceOut x l : NoDup l → x ∉ spliceOut x l.
Proof.
  induction 1 as [|z l Hz Hl IH]; [apply not_elem_of_nil|].
  rewrite spliceOut_cons. destruct (decide (z = x)) as [->|Hne]; [done|].
  rewrite not_elem_of_cons. split; [congruence|done].
Qed.

Lemma elem_of_pushIfAbsent x y l : y ∈ pushIfAbsent x l ↔ y = x ∨ y ∈ l.
Proof.
  unfold pushIfAbsent. destruct (includes x l) eqn:Hx.
  - apply includes_true in Hx. naive_solver.
  - rewrite elem_of_app, list_elem_of_singleton. naive_solver.
Qed.

Lemma NoDup_pushIfAbsent x l : NoDup l → NoDup (pushIfAbsent x l).
Proof.
  intros Hl. unfold pushIfAbsent. destruct (includes x l) eqn:Hx; [done|].
  apply includes_false in Hx. apply NoDup_app. split_and!; [done| |apply NoDup_singleton].
  intros y Hy. rewrite list_elem_of_singleton. congruence.
Qed.
End ArrayHelpers.

(** ** Shared types ([core/types.ts]) *)

Abbreviation SystemId := string.
Abbreviation ComponentId := Z.

Inductive Permission : Type :=
| READ | WRITE | DELETE | EXECUTE | DELEGATE | TRANSFER.

#[global] Instance Permission_eq_dec : EqDecision Permission.
Proof. solve_decision. Defined.

Record Entity : Type := mkEntity { id : Z; generation : Z }.

(** * Entity access control ([system-loader/entity-access-control.ts]) *)

Module AccessControl.

Record EntityOwnership : Type := mkOwnership {
  owner : SystemId;
  permissions : list Permission;
  delegates : list SystemId;
  createdBy : SystemId;
  createdAt : Z;
}.

Record CreateEntityOptions : Type := mkOptions {
  opt_owner : option SystemId;
  opt_permissions : option (list Permission);
}.

Definition noOptions : CreateEntityOptions :=
  {| opt_owner := None; opt_permissions := None |}.

(** The class state: [entityOwnership] is keyed by [entity.id]. *)
Record EntityAccessControl : Type := mkAC {
  entityOwnership : gmap Z EntityOwnership;
  systemEntityCounts : gmap SystemId Z;
}.

Definition empty : EntityAccessControl :=
  {| entityOwnership := ∅; systemEntityCounts := ∅ |}.

Inductive Error : Type :=
| EntityNotFound (entityId : Z)
| CannotGrant (granter : SystemId) (entityId : Z)
| CannotRevoke (revoker : SystemId) (entityId : Z)
| NotOwner (who : SystemId) (entityId : Z)
| NoPermission (who : SystemId) (p : Permission) (entityId : Z).

Definition set_owner (o : EntityOwnership) (w : SystemId) : EntityOwnership :=
  {| owner := w; permissions := permissions o; delegates := delegates o;
     createdBy := createdBy o; createdAt := createdAt o |}.
Definition set_delegates (o : EntityOwnership) (d : list SystemId) : EntityOwnership :=
  {| owner := owner o; permissions := permissions o; delegates := d;
     createdBy := createdBy o; createdAt := createdAt o |}.
Definition set_permissions (o : EntityOwnership) (p : list Permission) : EntityOwnership :=
  {| owner := owner o; permissions := p; delegates := delegates o;
     createdBy := createdBy o; createdAt := createdAt o |}.
Definition set_ownership (ac : EntityAccessControl) (m : gmap Z EntityOwnership)
  : EntityAccessControl :=
  {| entityOwnership := m; systemEntityCounts := systemEntityCounts ac |}.

(** [a || b] on an optional string: the empty string is falsy. *)
Definition orString (a : option string) (b : string) : string :=
  match a with
  | Some s => if decide (s = "") then b else s
  | None => b
  end.

(** [registerEntity(entity, systemId, options)]; [now] is [Date.now()]. *)
Definition registerEntity (e : Entity) (systemId : SystemId)
    (options : CreateEntityOptions) (now : Z)
    (ac : EntityAccessControl) : EntityAccessControl :=
  let ownership :=
    {| owner := orString (opt_owner options) systemId;
       permissions := default [READ; WRITE; DELETE] (opt_permissions options);
       delegates := [];
       createdBy := systemId;
       createdAt := now |} in
  let currentCount := default 0 (systemEntityCounts ac !! systemId) in
  {| entityOwnership := <[id e := ownership]> (entityOwnership ac);
     systemEntityCounts := <[systemId := currentCount + 1]> (systemEntityCounts ac) |}.

(** [unregisterEntity(entity)] *)
Definition unregisterEntity (e : Entity) (ac : EntityAccessControl)
  : EntityAccessControl :=
  match entityOwnership ac !! id e with
  | Some ownership =>
      let currentCount := default 0 (systemEntityCounts ac !! createdBy ownership) in
      {| entityOwnership := delete (id e) (entityOwnership ac);
         systemEntityCounts :=
           if bool_decide (currentCount > 0)
           then <[createdBy ownership := currentCount - 1]> (systemEntityCounts ac)
           else systemEntityCounts ac |}
  | None => ac
  end.

(** [hasPermission(entity, systemId, permission)] *)
Definition hasPermission (ac : EntityAccessControl) (e : Entity)
    (systemId : SystemId) (permission : Permission) : bool :=
  match entityOwnership ac !! id e with
  | None => false
  | Some ownership =>
      if decide (owner ownership = systemId) then true
      else if includes systemId (delegates ownership)
           then includes permission (permissions ownership)
           else false
  end.

(** The [for] loop of [grantAccess]: push each permission not yet present. *)
Definition unionPermissions (existing new : list Permission) : list Permission :=
  foldl (λ acc p, pushIfAbsent p acc) existing new.

(** [grantAccess(entity, granter, targetSystem, permissions)]. The source
    pushes into the arrays of the record in place; the result is given here
    for the record of [entity], each record holding arrays of its own. *)
Definition grantAccess (e : Entity) (granter targetSystem : SystemId)
    (perms : list Permission) : Exec EntityAccessControl Error unit :=
  λ ac,
  match entityOwnership ac !! id e with
  | None => (Thrown (EntityNotFound (id e)), ac)
  | Some ownership =>
      if bool_decide (owner ownership ≠ granter) &&
         negb (includes granter (delegates ownership) &&
               includes DELEGATE (permissions ownership))
      then (Thrown (CannotGrant granter (id e)), ac)
      else
        let o1 := set_delegates ownership
                    (pushIfAbsent targetSystem (delegates ownership)) in
        let o2 := set_permissions o1 (unionPermissions (permissions o1) perms) in
        (Returned tt, set_ownership ac (<[id e := o2]> (entityOwnership ac)))
  end.

(** [revokeAccess(entity, revoker, targetSystem)] *)
Definition revokeAccess (e : Entity) (revoker targetSystem : SystemId)
  : Exec EntityAccessControl Error unit :=
  λ ac,
  match entityOwnership ac !! id e with
  | None => (Thrown (EntityNotFound (id e)), ac)
  | Some ownership =>
      if bool_decide (owner ownership ≠ revoker)
      then (Thrown (CannotRevoke revoker (id e)), ac)
      else
        let o1 := set_delegates ownership (spliceOut targetSystem (delegates ownership)) in
        (Returned tt, set_ownership ac (<[id e := o1]> (entityOwnership ac)))
  end.

(** [transferOwnership(entity, currentOwner, newOwner)] *)
Definition transferOwnership (e : Entity) (currentOwner newOwner : SystemId)
  : Exec EntityAccessControl Error unit :=
  λ ac,
  match entityOwnership ac !! id e with
  | None => (Thrown (EntityNotFound (id e)), ac)
  | Some ownership =>
      if bool_decide (owner ownership ≠ currentOwner)
      then (Thrown (NotOwner currentOwner (id e)), ac)
      else
        let o1 := set_owner ownership newOwner in
        let o2 := set_delegates o1 (spliceOut newOwner (delegates o1)) in
        (Returned tt, set_ownership ac (<[id e := o2]> (entityOwnership ac)))
  end.

(** [getOwnership(entity)] *)
Definition getOwnership (ac : EntityAccessControl) (e : Entity)
  : option EntityOwnership := entityOwnership ac !! id e.

(** [hasEntity(entity)] *)
Definition hasEntity (ac : EntityAccessControl) (e : Entity) : bool :=
  bool_decide (is_Some (entityOwnership ac !! id e)).

(** [validateAccess(entity, systemId, permission)] *)
Definition validateAccess (e : Entity) (systemId : SystemId) (p : Permission)
  : Exec EntityAccessControl Error unit :=
  λ ac,
  if negb (hasPermission ac e systemId p)
  then (Thrown (NoPermission systemId p (id e)), ac)
  else (Returned tt, ac).

(** [cleanupSystemEntities(systemId)]: entities owned or created by the
    system are dropped, the system is spliced out of the delegates of the
    others, and its entity count is forgotten. *)
Definition cleanupSystemEntities (systemId : SystemId) (ac : EntityAccessControl)
  : EntityAccessControl :=
  {| entityOwnership :=
       omap (λ o, if bool_decide (owner o = systemId ∨ createdBy o = systemId)
                  then None
                  else Some (set_delegates o (spliceOut systemId (delegates o))))
            (entityOwnership ac);
     systemEntityCounts := delete systemId (systemEntityCounts ac) |}.

(** [clear()] *)
Definition clear (_ : EntityAccessControl) : EntityAccessControl := empty.

(** The states the class can be in: everything its methods build from the
    freshly constructed object. *)
Inductive reachable : EntityAccessControl → Prop :=
| reach_new : reachable empty
| reach_register e s opts now ac :
    reachable ac → reachable (registerEntity e s opts now ac)
| reach_unregister e ac :
    reachable ac → reachable (unregisterEntity e ac)
| reach_grant e g t ps ac :
    reachable ac → reachable (grantAccess e g t ps ac).2
| reach_revoke e r t ac :
    reachable ac → reachable (revokeAccess e r t ac).2
| reach_transfer e c n ac :
    reachable ac → reachable (transferOwnership e c n ac).2
| reach_cleanup s ac :
    reachable ac → reachable (cleanupSystemEntities s ac)
| reach_clear ac :
    reachable ac → reachable (clear ac).

(** Delegate lists never hold a system twice. *)
Definition delegates_nodup (ac : EntityAccessControl) : Prop :=
  ∀ i o, entityOwnership ac !! i = Some o → NoDup (delegates o).

Lemma reachable_delegates_nodup ac : reachable ac → delegates_nodup ac.
Proof.
  induction 1 as [|e s opts now ac _ IH|e ac _ IH|e g t ps ac _ IH
                 |e r t ac _ IH|e c n ac _ IH|s ac _ IH|ac _ IH];
    intros i o; cbn.
  - by rewrite lookup_empty.
  - destruct (decide (id e = i)) as [<-|Hne].
    + rewrite lookup_insert_eq. intros [= <-]. constructor.
    + rewrite lookup_insert_ne by done. apply IH.
  - unfold unregisterEntity. destruct (entityOwnership ac !! id e) eqn:He; [|apply IH].
    cbn. destruct (decide (id e = i)) as [<-|Hne].
    + by rewrite lookup_delete_eq.
    + rewrite lookup_delete_ne by done. apply IH.
  - unfold grantAccess. destruct (entityOwnership ac !! id e) as [o'|] eqn:He; [|apply IH].
    destruct (_ && _); [apply IH|]. cbn.
    destruct (decide (id e = i)) as [<-|Hne].
    + rewrite lookup_insert_eq. intros [= <-]. cbn.
      apply NoDup_pushIfAbsent. by eapply IH.
    + rewrite lookup_insert_ne by done. apply IH.
  - unfold revokeAccess. destruct (entityOwnership ac !! id e) as [o'|] eqn:He; [|apply IH].
    destruct (bool_decide _); [apply IH|]. cbn.
    destruct (decide (id e = i)) as [<-|Hne].
    + rewrite lookup_insert_eq. intros [= <-]. cbn.
      apply NoDup_spliceOut. by eapply IH.
    + rewrite lookup_insert_ne by done. apply IH.
  - unfold transferOwnership. destruct (entityOwnership ac !! id e) as [o'|] eqn:He; [|apply IH].
    destruct (bool_decide _); [apply IH|]. cbn.
    destruct (decide (id e = i)) as [<-|Hne].
    + rewrite lookup_insert_eq. intros [= <-]. cbn.
      apply NoDup_spliceOut. by eapply IH.
    + rewrite lookup_insert_ne by done. apply IH.
  - rewrite lookup_omap. destruct (entityOwnership ac !! i) as [o'|] eqn:Hi; [|done].
    cbn. destruct (bool_decide _); [done|]. intros [= <-]. cbn.
    apply NoDup_spliceOut. by eapply IH.
  - by rewrite lookup_empty.
Qed.

End AccessControl.

(** * Properties of entity access control *)

Section AccessControlProperties.
Import AccessControl.

(** C1. [hasPermission(E, P, perm)] returns [true] exactly when the entity
    has an ownership record and either [P] is its current owner, or [P] is
    in its delegate list and [perm] is in its permission set; it returns
    [false] in every other case, in particular when the entity has no
    ownership record. *)
Theorem hasPermission_spec (ac : EntityAccessControl) (E : Entity)
    (P : SystemId) (perm : Permission) :
  (hasPermission ac E P perm = true ↔
     ∃ o, getOwnership ac E = Some o ∧
          (owner o = P ∨ (P ∈ delegates o ∧ perm ∈ permissions o)))
  ∧ (hasPermission ac E P perm = false ↔
     ¬ ∃ o, getOwnership ac E = Some o ∧
            (owner o = P ∨ (P ∈ delegates o ∧ perm ∈ permissions o)))
  ∧ (getOwnership ac E = None → hasPermission ac E P perm = false).
Proof.
  assert (Hiff : hasPermission ac E P perm = true ↔
     ∃ o, getOwnership ac E = Some o ∧
          (owner o = P ∨ (P ∈ delegates o ∧ perm ∈ permissions o))).
  { unfold hasPermission, getOwnership.
    destruct (entityOwnership ac !! id E) as [o|]; [|naive_solver].
    destruct (decide (owner o = P)) as [Ho|Ho]; [naive_solver|].
    destruct (includes P (delegates o)) eqn:Hd.
    - apply includes_true in Hd. rewrite includes_true. naive_solver.
    - apply includes_false in Hd. naive_solver. }
  split_and!; [done| |].
  - rewrite <-Hiff. by destruct (hasPermission ac E P perm).
  - unfold hasPermission, getOwnership. by intros ->.
Qed.

Lemma filter_ne_absent (x : SystemId) (l : list SystemId) :
  x ∉ l → filter (λ y, y ≠ x) l = l.
Proof.
  induction l as [|z l IH]; [done|].
  rewrite not_elem_of_cons. intros [Hz Hl].
  rewrite filter_cons, decide_True by congruence. by rewrite IH.
Qed.

Lemma spliceOut_filter (x : SystemId) (l : list SystemId) :
  NoDup l → spliceOut x l = filter (λ y, y ≠ x) l.
Proof.
  induction 1 as [|z l Hz Hl IH]; [done|].
  rewrite spliceOut_cons, filter_cons.
  destruct (decide (z = x)) as [->|Hne].
  - rewrite decide_False by (intros H; by apply H).
    symmetry. by apply filter_ne_absent.
  - rewrite decide_True by done. by rewrite IH.
Qed.

(** C2, as the code has it. For a registered entity, [revokeAccess] and
    [transferOwnership] return normally exactly when the caller is the
    current owner; [grantAccess] returns normally exactly when the caller is
    the current owner, or is a delegate of an entity whose permission set
    holds [DELEGATE]. Every rejected call throws and leaves the whole
    access-control table, hence the ownership record, unchanged. *)
Theorem owner_guard_spec (ac : EntityAccessControl) (E : Entity)
    (o : EntityOwnership) (caller target : SystemId) (perms : list Permission) :
  getOwnership ac E = Some o →
  (returned (grantAccess E caller target perms ac).1 = true ↔
     owner o = caller ∨ (caller ∈ delegates o ∧ DELEGATE ∈ permissions o))
  ∧ (returned (revokeAccess E caller target ac).1 = true ↔ owner o = caller)
  ∧ (returned (transferOwnership E caller target ac).1 = true ↔ owner o = caller)
  ∧ (returned (grantAccess E caller target perms ac).1 = false →
       ∃ err, grantAccess E caller target perms ac = (Thrown err, ac))
  ∧ (returned (revokeAccess E caller target ac).1 = false →
       ∃ err, revokeAccess E caller target ac = (Thrown err, ac))
  ∧ (returned (transferOwnership E caller target ac).1 = false →
       ∃ err, transferOwnership E caller target ac = (Thrown err, ac)).
Proof.
  unfold getOwnership, grantAccess, revokeAccess, transferOwnership.
  intros ->.
  destruct (decide (owner o = caller)) as [Ho|Ho].
  - rewrite !bool_decide_eq_false_2 by (intros H; by apply H). cbn.
    split_and!; naive_solver.
  - rewrite !bool_decide_eq_true_2 by done. cbn.
    destruct (includes caller (delegates o)) eqn:Hd; cbn.
    + apply includes_true in Hd.
      destruct (includes DELEGATE (permissions o)) eqn:Hp; cbn.
      * apply includes_true in Hp. split_and!; naive_solver.
      * apply includes_false in Hp. split_and!; naive_solver.
    + apply includes_false in Hd. split_and!; naive_solver.
Qed.

Lemma owner_guard_spec_witness :
  let e := mkEntity 1 0 in
  let ac := registerEntity e "A" noOptions 0 empty in
  returned (revokeAccess e "B" "C" ac).1 = true ↔ "A" = "B".
Proof.
  intros e ac.
  exact (proj1 (proj2 (owner_guard_spec ac e
           (mkOwnership "A" [READ; WRITE; DELETE] [] "A" 0) "B" "C" [] eq_refl))).
Defined.

(** C2 as stated fails for [grantAccess]: a delegate of an entity whose
    permission set holds [DELEGATE] is not the owner, yet its grant returns
    normally and changes the ownership record. *)
Lemma grantAccess_by_delegate_counterexample :
  let e := mkEntity 1 0 in
  let ac0 := registerEntity e "A" noOptions 0 empty in
  let ac1 := (grantAccess e "A" "D" [DELEGATE] ac0).2 in
  reachable ac1
  ∧ (owner <$> getOwnership ac1 e) = Some "A"
  ∧ "A" ≠ "D"
  ∧ (grantAccess e "D" "X" [WRITE] ac1).1 = Returned tt
  ∧ (delegates <$> getOwnership ac1 e) = Some ["D"]
  ∧ (delegates <$> getOwnership (grantAccess e "D" "X" [WRITE] ac1).2 e)
      = Some ["D"; "X"]
  ∧ getOwnership (grantAccess e "D" "X" [WRITE] ac1).2 e ≠ getOwnership ac1 e.
Proof.
  intros e ac0 ac1.
  split; [apply reach_grant, reach_register, reach_new|].
  split_and!; try (vm_compute; reflexivity); vm_compute; discriminate.
Qed.

(** C4, as the code has it. For a registered entity [E] of a reachable
    table whose owner is [A], [transferOwnership(E, A, B)] to a different
    system [B] returns normally; afterwards [B] passes every permission
    check, [A] passes a check exactly when [A] is in the delegate list and
    the permission is in the permission set, [B] is no longer a delegate,
    and the creator, creation time, permission set and the other delegates
    (in their order) are as before, as are all other entities. *)
Theorem transferOwnership_spec (ac : EntityAccessControl) (E : Entity)
    (o : EntityOwnership) (A B : SystemId) :
  reachable ac →
  getOwnership ac E = Some o →
  owner o = A →
  A ≠ B →
  ∃ ac' o',
    transferOwnership E A B ac = (Returned tt, ac')
    ∧ getOwnership ac' E = Some o'
    ∧ owner o' = B
    ∧ (∀ perm, hasPermission ac' E B perm = true)
    ∧ (∀ perm, hasPermission ac' E A perm = true ↔
                A ∈ delegates o' ∧ perm ∈ permissions o')
    ∧ (B ∉ delegates o')
    ∧ delegates o' = filter (λ x, x ≠ B) (delegates o)
    ∧ createdBy o' = createdBy o
    ∧ createdAt o' = createdAt o
    ∧ permissions o' = permissions o
    ∧ (∀ i, i ≠ id E → entityOwnership ac' !! i = entityOwnership ac !! i).
Proof.
  intros Hreach Hget Hown Hne.
  pose proof (reachable_delegates_nodup _ Hreach _ _ Hget) as Hnd.
  unfold getOwnership in Hget.
  unfold transferOwnership. rewrite Hget.
  rewrite bool_decide_eq_false_2 by (intros H; by apply H).
  eexists _, _. split; [reflexivity|].
  unfold getOwnership, hasPermission. cbn.
  rewrite lookup_insert_eq. cbn.
  split_and!; try done.
  - intros perm. by rewrite decide_True.
  - intros perm. rewrite decide_False by congruence.
    destruct (includes A (spliceOut B (delegates o))) eqn:Hd.
    + apply includes_true in Hd. rewrite includes_true. naive_solver.
    + apply includes_false in Hd. naive_solver.
  - by apply not_elem_of_spliceOut.
  - by apply spliceOut_filter.
  - intros i Hi. by rewrite lookup_insert_ne.
Qed.

Lemma transferOwnership_spec_witness :
  let e := mkEntity 1 0 in
  let ac := (grantAccess e "A" "B" [READ] (registerEntity e "A" noOptions 0 empty)).2 in
  ∃ ac' o',
    transferOwnership e "A" "B" ac = (Returned tt, ac')
    ∧ getOwnership ac' e = Some o'
    ∧ owner o' = "B"
    ∧ (∀ perm, hasPermission ac' e "B" perm = true)
    ∧ (∀ perm, hasPermission ac' e "A" perm = true ↔
                "A" ∈ delegates o' ∧ perm ∈ permissions o')
    ∧ ("B" ∉ delegates o')
    ∧ delegates o' = filter (λ x, x ≠ "B") ["B"]
    ∧ createdBy o' = "A"
    ∧ createdAt o' = 0
    ∧ permissions o' = [READ; WRITE; DELETE]
    ∧ (∀ i, i ≠ 1 → entityOwnership ac' !! i = entityOwnership ac !! i).
Proof.
  intros e ac.
  apply (transferOwnership_spec ac e
           (mkOwnership "A" [READ; WRITE; DELETE] ["B"] "A" 0) "A" "B").
  - apply reach_grant, reach_register, reach_new.
  - reflexivity.
  - reflexivity.
  - discriminate.
Defined.

(** C4 as stated fails when the owner transfers the entity to itself: the
    call returns normally, the former owner is the new owner and keeps
    passing every check although it is not in the delegate list. *)
Lemma transfer_to_self_counterexample :
  let e := mkEntity 1 0 in
  let ac := registerEntity e "A" noOptions 0 empty in
  reachable ac
  ∧ (owner <$> getOwnership ac e) = Some "A"
  ∧ (transferOwnership e "A" "A" ac).1 = Returned tt
  ∧ hasPermission (transferOwnership e "A" "A" ac).2 e "A" WRITE = true
  ∧ (delegates <$> getOwnership (transferOwnership e "A" "A" ac).2 e) = Some [].
Proof.
  intros e ac. split; [apply reach_register, reach_new|].
  split_and!; vm_compute; reflexivity.
Qed.

End AccessControlProperties.

(** * Gas tracker ([system-loader/gas-tracker.ts]) *)

Module Gas.

(** The keys of [GasConfig['gasCosts']]. *)
Inductive Operation : Type :=
| OpEntityQuery | OpComponentAccess | OpComponentUpdate | OpEntityCreate
| OpEntityDestroy | OpIteration | OpDefineComponent | OpAddComponent
| OpUpdateComponent | OpRemoveComponent | OpEventSubscribe | OpEventEmit
| OpCrossSystemCall.

Record GasCosts : Type := mkCosts {
  entityQuery : Z;
  componentAccess : Z;
  componentUpdate : Z;
  entityCreate : Z;
  entityDestroy : Z;
  iteration : Z;
  defineComponent : Z;
  addComponent : Z;
  updateComponent : Z;
  removeComponent : Z;
  eventSubscribe : Z;
  eventEmit : Z;
  crossSystemCall : Z;
}.

Record GasConfig : Type := mkConfig {
  maxGas : Z;
  gasCosts : GasCosts;
}.

Definition DEFAULT_GAS_CONFIG : GasConfig :=
  {| maxGas := 10000;
     gasCosts :=
       {| entityQuery := 10; componentAccess := 1; componentUpdate := 2;
          entityCreate := 5; entityDestroy := 3; iteration := 1;
          defineComponent := 20; addComponent := 3; updateComponent := 2;
          removeComponent := 2; eventSubscribe := 5; eventEmit := 8;
          crossSystemCall := 15 |} |}.

(** [this.config.gasCosts[operation]] *)
Definition costOf (c : GasCosts) (operation : Operation) : Z :=
  match operation with
  | OpEntityQuery => entityQuery c
  | OpComponentAccess => componentAccess c
  | OpComponentUpdate => componentUpdate c
  | OpEntityCreate => entityCreate c
  | OpEntityDestroy => entityDestroy c
  | OpIteration => iteration c
  | OpDefineComponent => defineComponent c
  | OpAddComponent => addComponent c
  | OpUpdateComponent => updateComponent c
  | OpRemoveComponent => removeComponent c
  | OpEventSubscribe => eventSubscribe c
  | OpEventEmit => eventEmit c
  | OpCrossSystemCall => crossSystemCall c
  end.

Record GasTracker : Type := mkTracker {
  gasUsed : Z;
  config : GasConfig;
}.

Inductive Error : Type :=
| GasLimitExceeded (used limit : Z).

(** [new GasTracker(config)] *)
Definition new (cfg : GasConfig) : GasTracker :=
  {| gasUsed := 0; config := cfg |}.

(** [amount ?? this.config.gasCosts[operation]] *)
Definition tariff (cfg : GasConfig) (operation : Operation) (amount : option Z) : Z :=
  default (costOf (gasCosts cfg) operation) amount.

(** [consumeGas(operation, amount?)]: the addition is made first and stays
    when the limit check throws. *)
Definition consumeGas (operation : Operation) (amount : option Z)
  : Exec GasTracker Error unit :=
  λ t,
  let cost := tariff (config t) operation amount in
  let t' := {| gasUsed := gasUsed t + cost; config := config t |} in
  if bool_decide (gasUsed t' > maxGas (config t'))
  then (Thrown (GasLimitExceeded (gasUsed t') (maxGas (config t'))), t')
  else (Returned tt, t').

(** [getGasUsed()] *)
Definition getGasUsed (t : GasTracker) : Z := gasUsed t.

(** [getRemainingGas()] *)
Definition getRemainingGas (t : GasTracker) : Z :=
  Z.max 0 (maxGas (config t) - gasUsed t).

(** [reset()] *)
Definition reset (t : GasTracker) : GasTracker :=
  {| gasUsed := 0; config := config t |}.

(** [canAfford(operation, amount?)] *)
Definition canAfford (t : GasTracker) (operation : Operation) (amount : option Z) : bool :=
  bool_decide (gasUsed t + tariff (config t) operation amount ≤ maxGas (config t)).

(** [n] calls of [consumeGas] in a row, as a straight-line program makes
    them: the first one that throws ends the run. *)
Fixpoint consumeTimes (n : nat) (operation : Operation) (amount : option Z)
  : Exec GasTracker Error unit :=
  match n with
  | O => ret tt
  | S n' => (consumeGas operation amount ;; consumeTimes n' operation amount)%exec
  end.

Lemma consumeTimes_ok n operation amount t :
  let T := tariff (config t) operation amount in
  (∀ j : Z, 1 ≤ j ≤ Z.of_nat n → gasUsed t + j * T ≤ maxGas (config t)) →
  consumeTimes n operation amount t =
    (Returned tt, {| gasUsed := gasUsed t + Z.of_nat n * T; config := config t |}).
Proof.
  revert t. induction n as [|n IH]; intros t T Hle.
  - cbn. destruct t as [u c]. cbn. f_equal. f_equal. lia.
  - cbn [consumeTimes]. unfold bind at 1. unfold consumeGas at 1. cbn.
    fold T.
    rewrite bool_decide_eq_false_2 by (specialize (Hle 1); lia).
    rewrite IH; cbn; fold T.
    + replace (gasUsed t + T + Z.of_nat n * T)
        with (gasUsed t + Z.of_nat (S n) * T) by lia.
      done.
    + intros j Hj. specialize (Hle (j + 1)). lia.
Qed.

Lemma consumeTimes_throw k n operation amount t :
  let T := tariff (config t) operation amount in
  (∀ j : Z, 1 ≤ j ≤ Z.of_nat k → gasUsed t + j * T ≤ maxGas (config t)) →
  gasUsed t + (Z.of_nat k + 1) * T > maxGas (config t) →
  (k < n)%nat →
  consumeTimes n operation amount t =
    (Thrown (GasLimitExceeded (gasUsed t + (Z.of_nat k + 1) * T) (maxGas (config t))),
     {| gasUsed := gasUsed t + (Z.of_nat k + 1) * T; config := config t |}).
Proof.
  revert n t. induction k as [|k IH]; intros n t T Hle Hgt Hlt.
  - destruct n as [|n]; [lia|].
    cbn [consumeTimes]. unfold bind at 1. unfold consumeGas at 1. cbn.
    fold T. replace (gasUsed t + T) with (gasUsed t + (0 + 1) * T) by lia.
    rewrite bool_decide_eq_true_2 by (cbn in Hgt; lia). done.
  - destruct n as [|n]; [lia|].
    cbn [consumeTimes]. unfold bind at 1. unfold consumeGas at 1. cbn.
    fold T.
    rewrite bool_decide_eq_false_2 by (specialize (Hle 1); lia).
    rewrite (IH n); cbn; fold T.
    + replace (gasUsed t + T + (Z.of_nat k + 1) * T)
        with (gasUsed t + (Z.of_nat (S k) + 1) * T) by lia.
      done.
    + intros j Hj. specialize (Hle (j + 1)). lia.
    + lia.
    + lia.
Qed.

End Gas.

(** * Properties of the gas tracker *)

Section GasProperties.
Import Gas.

(** C3. Starting from a fresh tracker with budget [B], calls of
    [consumeGas] with a fixed tariff [T] behave as follows. If the running
    totals [T, 2T, ..., nT] all stay within [B] (a total equal to [B] is
    within), the [n] calls return and the ledger reads [n * T]. If the first
    [k] totals stay within [B] and the total [(k + 1) * T] strictly exceeds
    [B], then call number [k + 1] throws, no later call is made, and the
    ledger keeps the over-budget total [(k + 1) * T]. *)
Theorem consumeGas_ledger (cfg : GasConfig) (operation : Operation)
    (amount : option Z) (n k : nat) :
  let B := maxGas cfg in
  let T := tariff cfg operation amount in
  ((∀ j : Z, 1 ≤ j ≤ Z.of_nat n → j * T ≤ B) →
     consumeTimes n operation amount (new cfg) =
       (Returned tt, {| gasUsed := Z.of_nat n * T; config := cfg |}))
  ∧ ((∀ j : Z, 1 ≤ j ≤ Z.of_nat k → j * T ≤ B) →
     (Z.of_nat k + 1) * T > B →
     (k < n)%nat →
     consumeTimes k operation amount (new cfg) =
       (Returned tt, {| gasUsed := Z.of_nat k * T; config := cfg |})
     ∧ consumeTimes n operation amount (new cfg) =
       (Thrown (GasLimitExceeded ((Z.of_nat k + 1) * T) B),
        {| gasUsed := (Z.of_nat k + 1) * T; config := cfg |})).
Proof.
  intros B T. split.
  - intros Hle. rewrite consumeTimes_ok; cbn; [done|].
    intros j Hj. by apply Hle.
  - intros Hle Hgt Hlt. split.
    + rewrite consumeTimes_ok; cbn; [done|]. intros j Hj. by apply Hle.
    + rewrite (consumeTimes_throw k); cbn; [done| |done|done].
      intros j Hj. by apply Hle.
Qed.

(** The scenario of the specification: budget 10, one operation costing 15;
    the call throws and the ledger records 15 against the budget 10. *)
Lemma consumeGas_ledger_witness :
  let cfg := {| maxGas := 10; gasCosts := gasCosts DEFAULT_GAS_CONFIG |} in
  consumeTimes 0 OpCrossSystemCall None (new cfg) =
    (Returned tt, {| gasUsed := 0; config := cfg |})
  ∧ consumeTimes 1 OpCrossSystemCall None (new cfg) =
    (Thrown (GasLimitExceeded 15 10), {| gasUsed := 15; config := cfg |}).
Proof.
  intros cfg.
  apply (proj2 (consumeGas_ledger cfg OpCrossSystemCall None 1 0)).
  - intros j Hj. cbn in Hj. lia.
  - cbn. lia.
  - lia.
Defined.

End GasProperties.

(** * Record schemas ([core/types.ts], [system-loader/component-schema-validator.ts]) *)

Module Schema.

(** The [type] of a field as it arrives at run time: one of the five the
    validator accepts, or any other string. *)
Inductive FieldType : Type :=
| TNumber | TString | TBoolean | TObject | TArray
| TOther (name : string).

#[global] Instance FieldType_eq_dec : EqDecision FieldType.
Proof. solve_decision. Defined.

Inductive ConstraintType : Type :=
| CUnique | CRange | CPattern | CCustom
| COther (name : string).

(** A [Constraint]; of [value] and [validator] the schema check only asks
    whether a validator function is present. *)
Record Constraint : Type := mkConstraint {
  c_type : ConstraintType;
  c_field : string;
  c_hasValidator : bool;
}.

(** A [FieldDefinition] over the type [S] of nested schemas; of [pattern]
    the schema check only asks whether it is present. *)
Record FieldDefinitionOf (S : Type) : Type := mkField {
  f_type : FieldType;
  f_required : option bool;
  f_min : option Z;
  f_max : option Z;
  f_hasPattern : bool;
  f_nested : option S;
}.
Arguments mkField {S}.
Arguments f_type {S}.
Arguments f_required {S}.
Arguments f_min {S}.
Arguments f_max {S}.
Arguments f_hasPattern {S}.
Arguments f_nested {S}.

(** A [ComponentSchema]; [fields] keeps the order of [Object.entries]. *)
Inductive ComponentSchema : Type :=
| mkSchema (version : Z)
           (fields : list (string * FieldDefinitionOf ComponentSchema))
           (constraints : option (list Constraint))
           (maxSize : option Z).

Definition FieldDefinition : Type := FieldDefinitionOf ComponentSchema.

Definition version (s : ComponentSchema) : Z :=
  match s with mkSchema v _ _ _ => v end.
Definition fields (s : ComponentSchema) : list (string * FieldDefinition) :=
  match s with mkSchema _ f _ _ => f end.
Definition constraints (s : ComponentSchema) : option (list Constraint) :=
  match s with mkSchema _ _ c _ => c end.
Definition maxSize (s : ComponentSchema) : option Z :=
  match s with mkSchema _ _ _ m => m end.

Inductive Error : Type :=
| VersionNotPositive
| NoFields
| InvalidFieldType (fieldName : string)
| MinGreaterThanMax (fieldName : string)
| PatternOnNonString (fieldName : string)
| NestedOnNonContainer (fieldName : string)
| ConstraintWithoutField
| ConstraintUnknownField (field : string)
| InvalidConstraintType (name : string)
| CustomWithoutValidator
| MaxSizeNotPositive.

(** The property names every plain object inherits from [Object.prototype];
    each of them reads as a function or an object, so as a truthy value. *)
Definition objectPrototypeProperties : list string :=
  ["constructor"; "__defineGetter__"; "__defineSetter__"; "hasOwnProperty";
   "__lookupGetter__"; "__lookupSetter__"; "isPrototypeOf";
   "propertyIsEnumerable"; "toString"; "valueOf"; "__proto__"; "toLocaleString"].

(** What a property read on the [fields] object gives: a field definition of
    the schema, or a member inherited from [Object.prototype]. *)
Inductive Property (S : Type) : Type :=
| OwnField (fd : FieldDefinitionOf S)
| Inherited.
Arguments OwnField {S}.
Arguments Inherited {S}.

(** [fields[name]], [fields] being a plain object: the definition stored
    under the key (the last one written when a key occurs twice), else the
    member of that name on the prototype, else [undefined]. *)
Definition fieldLookup {S} (fs : list (string * FieldDefinitionOf S)) (name : string)
  : option (Property S) :=
  match last (filter (λ p, p.1 = name) fs) with
  | Some p => Some (OwnField p.2)
  | None => if decide (name ∈ objectPrototypeProperties) then Some Inherited else None
  end.

(** [validateConstraint(constraint, fields)] *)
Definition validateConstraint {S} (c : Constraint)
    (fs : list (string * FieldDefinitionOf S)) : option Error :=
  if decide (c_field c = "") then Some ConstraintWithoutField
  else match fieldLookup fs (c_field c) with
       | None => Some (ConstraintUnknownField (c_field c))
       | Some _ =>
           match c_type c with
           | COther n => Some (InvalidConstraintType n)
           | CCustom => if c_hasValidator c then None else Some CustomWithoutValidator
           | CUnique | CRange | CPattern => None
           end
       end.

(** The first error of a list of checks, run in order. *)
Fixpoint firstError {A} (check : A → option Error) (l : list A) : option Error :=
  match l with
  | [] => None
  | x :: l' => match check x with Some e => Some e | None => firstError check l' end
  end.

(** The checks [validateFieldDefinition] makes before it descends into a
    nested schema, in the order of the source. The [typeof] tests on [min]
    and [max] are settled by their type. *)
Definition validateFieldShape {S} (fieldName : string) (fd : FieldDefinitionOf S)
  : option Error :=
  if (match f_type fd with TOther _ => true | _ => false end)
  then Some (InvalidFieldType fieldName)
  else if (match f_min fd, f_max fd with
           | Some lo, Some hi => bool_decide (lo > hi)
           | _, _ => false
           end)
  then Some (MinGreaterThanMax fieldName)
  else if f_hasPattern fd && negb (bool_decide (f_type fd = TString))
  then Some (PatternOnNonString fieldName)
  else match f_nested fd with
       | Some _ =>
           if negb (bool_decide (f_type fd = TObject)) &&
              negb (bool_decide (f_type fd = TArray))
           then Some (NestedOnNonContainer fieldName)
           else None
       | None => None
       end.

(** [validateSchema(schema)]: [None] when the schema is accepted, the error
    of the first failing check otherwise. *)
Fixpoint validateSchema (s : ComponentSchema) : option Error :=
  match s with
  | mkSchema v fs cs ms =>
      if bool_decide (v < 1) then Some VersionNotPositive
      else match fs with
      | [] => Some NoFields
      | _ :: _ =>
          let fieldErrors :=
            (fix each (l : list (string * FieldDefinitionOf ComponentSchema)) :=
               match l with
               | [] => None
               | (fieldName, fd) :: l' =>
                   match validateFieldShape fieldName fd with
                   | Some e => Some e
                   | None =>
                       match fd with
                       | mkField _ _ _ _ _ (Some nested) =>
                           match validateSchema nested with
                           | Some e => Some e
                           | None => each l'
                           end
                       | mkField _ _ _ _ _ None => each l'
                       end
                   end
               end) fs in
          match fieldErrors with
          | Some e => Some e
          | None =>
              match from_option (firstError (λ c, validateConstraint c fs)) None cs with
              | Some e => Some e
              | None =>
                  match ms with
                  | Some m => if bool_decide (m ≤ 0) then Some MaxSizeNotPositive else None
                  | None => None
                  end
              end
          end
      end
  end.

(** A schema with one numeric field, of the given version. *)
Definition simpleSchema (v : Z) : ComponentSchema :=
  mkSchema v [("x", mkField TNumber None None None false None)] None None.

End Schema.

(** * Objects and insertion-ordered maps *)

(** A store of JavaScript objects of one class: a reference is the number
    under which the object was allocated. Two maps that hold the same object
    hold the same reference, and a field assignment through one is seen
    through the other. *)
Record Heap (A : Type) : Type := mkHeap {
  objects : gmap nat A;
  nextRef : nat;
}.
Arguments mkHeap {A}.
Arguments objects {A}.
Arguments nextRef {A}.

Definition heapEmpty {A} : Heap A := {| objects := ∅; nextRef := O |}.
Definition heapAlloc {A} (a : A) (h : Heap A) : nat * Heap A :=
  (nextRef h, {| objects := <[nextRef h := a]> (objects h); nextRef := S (nextRef h) |}).
Definition deref {A} (h : Heap A) (r : nat) : option A := objects h !! r.
Definition heapUpdate {A} (r : nat) (f : A → A) (h : Heap A) : Heap A :=
  {| objects := alter f r (objects h); nextRef := nextRef h |}.

(** A [Map] with string keys whose iteration order matters: entries in
    insertion order; [set] on a present key keeps its place. *)
Definition OrderedMap (V : Type) : Type := list (string * V).

Fixpoint omGet {V} (k : string) (m : OrderedMap V) : option V :=
  match m with
  | [] => None
  | (k', v) :: m' => if decide (k' = k) then Some v else omGet k m'
  end.

Definition omHas {V} (k : string) (m : OrderedMap V) : bool :=
  match omGet k m with Some _ => true | None => false end.

Fixpoint omSet {V} (k : string) (v : V) (m : OrderedMap V) : OrderedMap V :=
  match m with
  | [] => [(k, v)]
  | (k', v') :: m' =>
      if decide (k' = k) then (k, v) :: m' else (k', v') :: omSet k v m'
  end.

Fixpoint omDelete {V} (k : string) (m : OrderedMap V) : OrderedMap V :=
  match m with
  | [] => []
  | (k', v') :: m' =>
      if decide (k' = k) then m' else (k', v') :: omDelete k m'
  end.

Definition omValues {V} (m : OrderedMap V) : list V := m.*2.

Lemma omGet_omSet_eq {V} k (v : V) m : omGet k (omSet k v m) = Some v.
Proof.
  induction m as [|[k' v'] m IH]; cbn.
  - by rewrite decide_True.
  - destruct (decide (k' = k)) as [->|Hne]; cbn.
    + by rewrite decide_True.
    + by rewrite decide_False.
Qed.

Lemma omGet_omSet_ne {V} k k' (v : V) m :
  k ≠ k' → omGet k' (omSet k v m) = omGet k' m.
Proof.
  intros Hne. induction m as [|[k0 v0] m IH]; cbn.
  - by rewrite decide_False.
  - destruct (decide (k0 = k)) as [->|Hk]; cbn.
    + by rewrite !decide_False.
    + destruct (decide (k0 = k')); [done|apply IH].
Qed.

Lemma omSet_fresh {V} k (v : V) m : omGet k m = None → omSet k v m = m ++ [(k, v)].
Proof.
  induction m as [|[k0 v0] m IH]; cbn; [done|].
  destruct (decide (k0 = k)); [done|]. intros H. by rewrite IH.
Qed.

Lemma omGet_app_None {V} k (m1 m2 : OrderedMap V) :
  omGet k m1 = None → omGet k (m1 ++ m2) = omGet k m2.
Proof.
  induction m1 as [|[k0 v0] m IH]; cbn; [done|].
  destruct (decide (k0 = k)); [done|apply IH].
Qed.

Lemma omGet_Some_elem {V} k (v : V) m : omGet k m = Some v → (k, v) ∈ m.
Proof.
  induction m as [|[k0 v0] m IH]; cbn; [done|].
  destruct (decide (k0 = k)) as [->|Hne].
  - intros [= ->]. apply elem_of_cons. by left.
  - intros H. apply elem_of_cons. right. by apply IH.
Qed.

Lemma omGet_None_elem {V} k (v : V) m : omGet k m = None → (k, v) ∉ m.
Proof.
  induction m as [|[k0 v0] m IH]; cbn; [intros _; apply not_elem_of_nil|].
  destruct (decide (k0 = k)) as [->|Hne]; [done|].
  intros H. apply not_elem_of_cons. split; [congruence|by apply IH].
Qed.

(** * SHA-256, as [crypto.createHash('sha256')] computes it

    The dynamic registry names a record type by the first sixteen hex digits
    of the SHA-256 digest of ["systemId:name"]. The digest is computed here
    on 32-bit words held in [Z]; the round constants are derived from the
    primes as the standard defines them. *)

Module Sha256.

Definition two32 : Z := 2 ^ 32.
Definition wrap32 (x : Z) : Z := x mod two32.
Definition add32 (x y : Z) : Z := wrap32 (x + y).
Definition not32 (x : Z) : Z := two32 - 1 - x.
Definition rotr (n x : Z) : Z :=
  Z.lor (Z.shiftr x n) (wrap32 (Z.shiftl x (32 - n))).
Definition xor3 (x y z : Z) : Z := Z.lxor (Z.lxor x y) z.

Definition choose (x y z : Z) : Z := Z.lxor (Z.land x y) (Z.land (not32 x) z).
Definition majority (x y z : Z) : Z :=
  xor3 (Z.land x y) (Z.land x z) (Z.land y z).
Definition bigSigma0 (x : Z) : Z := xor3 (rotr 2 x) (rotr 13 x) (rotr 22 x).
Definition bigSigma1 (x : Z) : Z := xor3 (rotr 6 x) (rotr 11 x) (rotr 25 x).
Definition smallSigma0 (x : Z) : Z := xor3 (rotr 7 x) (rotr 18 x) (Z.shiftr x 3).
Definition smallSigma1 (x : Z) : Z := xor3 (rotr 17 x) (rotr 19 x) (Z.shiftr x 10).

(** Primes by trial division; the first sixty-four lie below 312. *)
Definition isPrime (p : Z) : bool :=
  bool_decide (2 ≤ p) &&
  forallb (λ d, negb (bool_decide (p mod d = 0)) || bool_decide (d = p))
          (Z.of_nat <$> seq 2 (Z.to_nat p - 2)).
Definition primes64 : list Z :=
  filter (λ p, isPrime p = true) (Z.of_nat <$> seq 2 310).

(** The integer cube root of [n], found bit by bit below [2 ^ bits]. *)
Fixpoint cubeRootBits (bits : nat) (n r : Z) : Z :=
  match bits with
  | O => r
  | S b =>
      let r' := r + 2 ^ Z.of_nat b in
      cubeRootBits b n (if bool_decide (r' * r' * r' ≤ n) then r' else r)
  end.

(** First 32 bits of the fractional part of the cube (square) root of [p]. *)
Definition roundConstant (p : Z) : Z := wrap32 (cubeRootBits 40 (p * 2 ^ 96) 0).
Definition initialWord (p : Z) : Z := wrap32 (Z.sqrt (p * 2 ^ 64)).

Definition roundConstants : list Z := Eval vm_compute in roundConstant <$> primes64.
Definition initialHash : list Z := Eval vm_compute in initialWord <$> take 8 primes64.

Definition bytesOf (s : string) : list Z :=
  (λ c, Z.of_N (Ascii.N_of_ascii c)) <$> String.list_ascii_of_string s.

(** [n] as [k] bytes, most significant first. *)
Fixpoint bigEndian (k : nat) (n : Z) : list Z :=
  match k with
  | O => []
  | S k' => (Z.shiftr n (8 * Z.of_nat k')) mod 256 :: bigEndian k' n
  end.

(** The message followed by the bit 1, zeros up to 56 modulo 64 bytes, and
    the length in bits on eight bytes. *)
Definition pad (msg : list Z) : list Z :=
  let len := Z.of_nat (length msg) in
  msg ++ [128] ++ replicate (Z.to_nat ((55 - len) mod 64)) 0 ++ bigEndian 8 (8 * len).

Fixpoint wordsOf (n : nat) (bytes : list Z) : list Z :=
  match n, bytes with
  | S n', b0 :: b1 :: b2 :: b3 :: rest =>
      (((b0 * 256 + b1) * 256 + b2) * 256 + b3) :: wordsOf n' rest
  | _, _ => []
  end.

(** The message schedule, newest word first while it is being extended. *)
Fixpoint extendSchedule (n : nat) (rev_w : list Z) : list Z :=
  match n with
  | O => rev_w
  | S n' =>
      let w := add32 (add32 (smallSigma1 (nth 1 rev_w 0)) (nth 6 rev_w 0))
                     (add32 (smallSigma0 (nth 14 rev_w 0)) (nth 15 rev_w 0)) in
      extendSchedule n' (w :: rev_w)
  end.
Definition schedule (block : list Z) : list Z :=
  reverse (extendSchedule 48 (reverse block)).

Definition round (st : list Z) (kw : Z * Z) : list Z :=
  match st with
  | [a; b; c; d; e; f; g; h] =>
      let t1 := add32 (add32 (add32 h (bigSigma1 e)) (add32 (choose e f g) kw.1)) kw.2 in
      let t2 := add32 (bigSigma0 a) (majority a b c) in
      [add32 t1 t2; a; b; c; add32 d t1; e; f; g]
  | _ => st
  end.

Definition compress (h : list Z) (block : list Z) : list Z :=
  zip_with add32 h (foldl round h (zip roundConstants (schedule block))).

Fixpoint blocksOf (n : nat) (bytes : list Z) : list (list Z) :=
  match n with
  | O => []
  | S n' => wordsOf 16 (take 64 bytes) :: blocksOf n' (drop 64 bytes)
  end.

Definition digestWords (s : string) : list Z :=
  let padded := pad (bytesOf s) in
  foldl compress initialHash (blocksOf (length padded / 64) padded).

Definition hexDigit (n : Z) : string :=
  String.substring (Z.to_nat n) 1 "0123456789abcdef".
Fixpoint hexOf (digits : nat) (n : Z) : string :=
  match digits with
  | O => ""
  | S d => hexDigit ((Z.shiftr n (4 * Z.of_nat d)) mod 16) +:+ hexOf d n
  end.

(** [createHash('sha256').update(s).digest('hex')] *)
Definition sha256hex (s : string) : string :=
  foldr (λ w acc, hexOf 8 w +:+ acc) "" (digestWords s).

Example sha256hex_empty :
  sha256hex "" = "e3b0c44298fc1c149afbf4c8996fb92427ae41e4649b934ca495991b7852b855".
Proof. vm_compute. reflexivity. Qed.

Example sha256hex_abc :
  sha256hex "abc" = "ba7816bf8f01cfea414140de5dae2223b00361a396177a9cb410ff61f20015ad".
Proof. vm_compute. reflexivity. Qed.

End Sha256.

(** * Component registries ([core/component.ts] and the dynamic component
      registry of [system-loader]) *)

Module Registry.
Import Schema.

(** What a [ComponentType] wraps: a class registered by the host, or the
    [DynamicComponent] class that [defineComponent] builds around a schema. *)
Inductive Constructor : Type :=
| UserClass (label : string)
| DynamicComponent (schema : ComponentSchema).

Record ComponentType : Type := mkType {
  ct_id : Z;
  ct_name : string;
  ct_constructor : Constructor;
}.

Definition isBuiltIn (t : ComponentType) : bool :=
  match ct_constructor t with UserClass _ => true | DynamicComponent _ => false end.

(** The global [componentRegistry]. [onIdRegistered] records whether the
    callback of the dynamic registry has been installed. *)
Record ComponentRegistry : Type := mkCR {
  typeObjects : Heap ComponentType;
  components : OrderedMap nat;
  componentsById : gmap Z nat;
  nextId : Z;
  onIdRegistered : bool;
}.

Record ComponentRegistration : Type := mkRegistration {
  id : ComponentId;
  hashedId : string;
  originalName : string;
  systemId : SystemId;
  schema : ComponentSchema;
  createdAt : Z;
}.

Record DynamicComponentRegistry : Type := mkDCR {
  registrationObjects : Heap ComponentRegistration;
  componentRegistrations : gmap string nat;
  systemComponents : gmap SystemId (gset ComponentId);
  hashedIdToRegistration : OrderedMap nat;
  usedIds : gset ComponentId;
  nextDynamicId : Z;
}.

(** The two module-level singletons. *)
Record Runtime : Type := mkRuntime {
  componentRegistry : ComponentRegistry;
  dynamicComponentRegistry : DynamicComponentRegistry;
}.

Inductive Error : Type :=
| SchemaRejected (e : Schema.Error)
| AlreadyRegistered (name : string)
| NegativeComponentId (componentId : Z)
| NegativeIdStart (startId : Z)
| VersionNotGreater (name : string) (given existing : Z)
| NameConflict (name : string) (existingSystem : SystemId)
| ComponentNotFound (name : string) (sys : SystemId).

Definition with_cr (w : Runtime) (cr : ComponentRegistry) : Runtime :=
  {| componentRegistry := cr; dynamicComponentRegistry := dynamicComponentRegistry w |}.
Definition with_dcr (w : Runtime) (d : DynamicComponentRegistry) : Runtime :=
  {| componentRegistry := componentRegistry w; dynamicComponentRegistry := d |}.

Definition set_usedIds (d : DynamicComponentRegistry) (u : gset ComponentId)
  : DynamicComponentRegistry :=
  {| registrationObjects := registrationObjects d;
     componentRegistrations := componentRegistrations d;
     systemComponents := systemComponents d;
     hashedIdToRegistration := hashedIdToRegistration d;
     usedIds := u;
     nextDynamicId := nextDynamicId d |}.
Definition set_nextDynamicId (d : DynamicComponentRegistry) (n : Z)
  : DynamicComponentRegistry :=
  {| registrationObjects := registrationObjects d;
     componentRegistrations := componentRegistrations d;
     systemComponents := systemComponents d;
     hashedIdToRegistration := hashedIdToRegistration d;
     usedIds := usedIds d;
     nextDynamicId := n |}.
Definition set_registrationObjects (d : DynamicComponentRegistry)
    (h : Heap ComponentRegistration) : DynamicComponentRegistry :=
  {| registrationObjects := h;
     componentRegistrations := componentRegistrations d;
     systemComponents := systemComponents d;
     hashedIdToRegistration := hashedIdToRegistration d;
     usedIds := usedIds d;
     nextDynamicId := nextDynamicId d |}.
Definition set_schema (r : ComponentRegistration) (s : ComponentSchema)
  : ComponentRegistration :=
  {| id := id r; hashedId := hashedId r; originalName := originalName r;
     systemId := systemId r; schema := s; createdAt := createdAt r |}.
Definition set_ct_id (t : ComponentType) (i : Z) : ComponentType :=
  {| ct_id := i; ct_name := ct_name t; ct_constructor := ct_constructor t |}.
Definition set_typeObjects (cr : ComponentRegistry) (h : Heap ComponentType)
  : ComponentRegistry :=
  {| typeObjects := h; components := components cr;
     componentsById := componentsById cr; nextId := nextId cr;
     onIdRegistered := onIdRegistered cr |}.

(** ** [ComponentRegistry] *)

(** [getType(name)] *)
Definition getType (cr : ComponentRegistry) (name : string) : option nat :=
  omGet name (components cr).

(** [getTypeById(id)] *)
Definition getTypeById (cr : ComponentRegistry) (i : Z) : option nat :=
  componentsById cr !! i.

(** [getAllTypes()]: the objects, in registration order. *)
Definition getAllTypes (cr : ComponentRegistry) : list ComponentType :=
  omap (deref (typeObjects cr)) (omValues (components cr)).

(** ** [DynamicComponentRegistry] *)

(** [reserveComponentId(componentId)] *)
Definition reserveComponentId (componentId : ComponentId)
  : Exec DynamicComponentRegistry Error unit :=
  λ d,
  if bool_decide (componentId < 0)
  then (Thrown (NegativeComponentId componentId), d)
  else (Returned tt, set_usedIds d ({[componentId]} ∪ usedIds d)).

(** [componentRegistry.register(name, constructor)], with the callback the
    dynamic registry installs in its constructor. Returns the reference of
    the new [ComponentType] object. *)
Definition register (name : string) (ctor : Constructor) : Exec Runtime Error nat :=
  λ w,
  let cr := componentRegistry w in
  if omHas name (components cr)
  then (Thrown (AlreadyRegistered name), w)
  else
    let componentType :=
      {| ct_id := nextId cr; ct_name := name; ct_constructor := ctor |} in
    let '(r, h) := heapAlloc componentType (typeObjects cr) in
    let cr' :=
      {| typeObjects := h;
         components := omSet name r (components cr);
         componentsById := <[ct_id componentType := r]> (componentsById cr);
         nextId := nextId cr + 1;
         onIdRegistered := onIdRegistered cr |} in
    if onIdRegistered cr
    then match reserveComponentId (ct_id componentType) (dynamicComponentRegistry w) with
         | (Returned _, d') =>
             (Returned r, {| componentRegistry := cr'; dynamicComponentRegistry := d' |})
         | (Thrown e, d') =>
             (Thrown e, {| componentRegistry := cr'; dynamicComponentRegistry := d' |})
         end
    else (Returned r, with_cr w cr').

(** [refreshStaticComponentIds()] *)
Definition refreshStaticComponentIds (w : Runtime) : Runtime :=
  let staticComponents := getAllTypes (componentRegistry w) in
  let d := dynamicComponentRegistry w in
  let dynamicIds := filter (λ i : Z, 1000 ≤ i) (usedIds d) in
  let staticIds :=
    list_to_set (filter (λ i : Z, 0 ≤ i) (ct_id <$> staticComponents)) in
  with_dcr w (set_usedIds d (dynamicIds ∪ staticIds)).

(** The [while] loop of [allocateComponentId]; a used set of [n] ids is
    left behind after at most [n] steps, which is the fuel it is run with. *)
Fixpoint skipUsed (fuel : nat) (used : gset ComponentId) (n : Z) : Z :=
  match fuel with
  | O => n
  | S fuel' => if bool_decide (n ∈ used) then skipUsed fuel' used (n + 1) else n
  end.

(** [allocateComponentId()] *)
Definition allocateComponentId (d : DynamicComponentRegistry)
  : ComponentId * DynamicComponentRegistry :=
  let allocatedId := skipUsed (size (usedIds d)) (usedIds d) (nextDynamicId d) in
  (allocatedId,
   set_nextDynamicId (set_usedIds d ({[allocatedId]} ∪ usedIds d)) (allocatedId + 1)).

(** [configureDynamicIdStart(startId)] *)
Definition configureDynamicIdStart (startId : Z)
  : Exec DynamicComponentRegistry Error unit :=
  λ d,
  if bool_decide (startId < 0) then (Thrown (NegativeIdStart startId), d)
  else if bool_decide (startId > nextDynamicId d)
       then (Returned tt, set_nextDynamicId d startId)
       else (Returned tt, d).

(** The constructor of the dynamic registry, run when its module is loaded
    over the component registry as it then is. *)
Definition newDynamicRegistry (cr : ComponentRegistry) : Runtime :=
  refreshStaticComponentIds
    {| componentRegistry :=
         {| typeObjects := typeObjects cr; components := components cr;
            componentsById := componentsById cr; nextId := nextId cr;
            onIdRegistered := true |};
       dynamicComponentRegistry :=
         {| registrationObjects := heapEmpty;
            componentRegistrations := ∅;
            systemComponents := ∅;
            hashedIdToRegistration := [];
            usedIds := ∅;
            nextDynamicId := 1000 |} |}.

(** [new ComponentRegistry()] *)
Definition newComponentRegistry : ComponentRegistry :=
  {| typeObjects := heapEmpty; components := []; componentsById := ∅;
     nextId := 0; onIdRegistered := false |}.

(** The runtime right after both modules are loaded. *)
Definition initial : Runtime := newDynamicRegistry newComponentRegistry.

(** The registrations held by [hashedIdToRegistration], in its order. *)
Definition registrations (d : DynamicComponentRegistry) : list ComponentRegistration :=
  omap (deref (registrationObjects d)) (omValues (hashedIdToRegistration d)).

(** [getComponentTypeById(componentId)] *)
Definition getComponentTypeById (w : Runtime) (componentId : ComponentId) : option nat :=
  match list_find (λ reg, id reg = componentId)
          (registrations (dynamicComponentRegistry w)) with
  | Some (_, registration) => getType (componentRegistry w) (hashedId registration)
  | None => getTypeById (componentRegistry w) componentId
  end.

(** [getComponentRegistration(name, systemId)] *)
Definition getComponentRegistration (w : Runtime) (name : string) (sys : SystemId)
  : option ComponentRegistration :=
  let d := dynamicComponentRegistry w in
  componentRegistrations d !! (name +:+ ":" +:+ sys) ≫= deref (registrationObjects d).

(** [getComponentId(name, systemId)] *)
Definition getComponentId (w : Runtime) (name : string) (sys : SystemId)
  : option ComponentId :=
  id <$> getComponentRegistration w name sys.

(** [hasComponent(name, systemId)] *)
Definition hasComponent (w : Runtime) (name : string) (sys : SystemId) : bool :=
  bool_decide (is_Some (componentRegistrations (dynamicComponentRegistry w)
                          !! (name +:+ ":" +:+ sys))).

(** [getSystemComponents(systemId)] *)
Definition getSystemComponents (w : Runtime) (sys : SystemId)
  : list ComponentRegistration :=
  let d := dynamicComponentRegistry w in
  match systemComponents d !! sys with
  | None => []
  | Some componentIds => filter (λ reg, id reg ∈ componentIds) (registrations d)
  end.

(** [removeSystemComponents(systemId)] *)
Definition removeSystemComponents (sys : SystemId) (w : Runtime) : Runtime :=
  let d := dynamicComponentRegistry w in
  match systemComponents d !! sys with
  | None => w
  | Some componentIds =>
      let d' :=
        foldl (λ d registration,
                 if bool_decide (id registration ∈ componentIds)
                 then
                   {| registrationObjects := registrationObjects d;
                      componentRegistrations :=
                        delete (originalName registration +:+ ":" +:+ sys)
                               (componentRegistrations d);
                      systemComponents := systemComponents d;
                      hashedIdToRegistration :=
                        omDelete (hashedId registration) (hashedIdToRegistration d);
                      usedIds := usedIds d ∖ {[id registration]};
                      nextDynamicId := nextDynamicId d |}
                 else d)
              d (registrations d) in
      with_dcr w
        {| registrationObjects := registrationObjects d';
           componentRegistrations := componentRegistrations d';
           systemComponents := delete sys (systemComponents d');
           hashedIdToRegistration := hashedIdToRegistration d';
           usedIds := usedIds d';
           nextDynamicId := nextDynamicId d' |}
  end.

(** [clear()] of the dynamic registry. *)
Definition clear (w : Runtime) : Runtime :=
  let d := dynamicComponentRegistry w in
  let freed :=
    foldl (λ u registration,
             if bool_decide (1000 ≤ id registration) then u ∖ {[id registration]} else u)
          (usedIds d) (registrations d) in
  refreshStaticComponentIds
    (with_dcr w
       {| registrationObjects := registrationObjects d;
          componentRegistrations := ∅;
          systemComponents := ∅;
          hashedIdToRegistration := [];
          usedIds := freed;
          nextDynamicId := 1000 |}).

(** [createHashedId(systemId, componentName)] *)
Definition createHashedId (sys : SystemId) (componentName : string) : string :=
  String.substring 0 16 (Sha256.sha256hex (sys +:+ ":" +:+ componentName)).
#[global] Arguments createHashedId : simpl never.

(** [getComponentType(name, systemId)] *)
Definition getComponentType (w : Runtime) (name : string) (sys : SystemId) : option nat :=
  getType (componentRegistry w) (createHashedId sys name).

(** [defineComponent(name, schema, systemId)]; [now] is [Date.now()]. The
    result is the reference of the component type, [None] for [undefined]. *)
Definition defineComponent (name : string) (sch : ComponentSchema) (sys : SystemId)
    (now : Z) : Exec Runtime Error (option nat) :=
  λ w,
  match validateSchema sch with
  | Some e => (Thrown (SchemaRejected e), w)
  | None =>
      let hashed := createHashedId sys name in
      let d := dynamicComponentRegistry w in
      match omGet hashed (hashedIdToRegistration d) ≫= (λ r, pair r <$> deref (registrationObjects d) r) with
      | Some (r, existing) =>
          if decide (systemId existing = sys)
          then
            if bool_decide (version sch ≤ version (schema existing))
            then (Thrown (VersionNotGreater name (version sch)
                            (version (schema existing))), w)
            else
              let w' := with_dcr w (set_registrationObjects d
                          (heapUpdate r (λ reg, set_schema reg sch)
                             (registrationObjects d))) in
              (Returned (getComponentTypeById w' (id existing)), w')
          else (Thrown (NameConflict name (systemId existing)), w)
      | None =>
          let w1 := refreshStaticComponentIds w in
          let '(componentId, d2) := allocateComponentId (dynamicComponentRegistry w1) in
          let w2 := with_dcr w1 d2 in
          match register hashed (DynamicComponent sch) w2 with
          | (Thrown e, w3) => (Thrown e, w3)
          | (Returned componentType, w3) =>
              let d3 := dynamicComponentRegistry w3 in
              let registration :=
                {| id := componentId; hashedId := hashed; originalName := name;
                   systemId := sys; schema := sch; createdAt := now |} in
              let '(r, h) := heapAlloc registration (registrationObjects d3) in
              let d4 :=
                {| registrationObjects := h;
                   componentRegistrations :=
                     <[name +:+ ":" +:+ sys := r]> (componentRegistrations d3);
                   systemComponents :=
                     <[sys := {[componentId]} ∪ default ∅ (systemComponents d3 !! sys)]>
                       (systemComponents d3);
                   hashedIdToRegistration := omSet hashed r (hashedIdToRegistration d3);
                   usedIds := usedIds d3;
                   nextDynamicId := nextDynamicId d3 |} in
              let cr4 := set_typeObjects (componentRegistry w3)
                           (heapUpdate componentType (λ t, set_ct_id t componentId)
                              (typeObjects (componentRegistry w3))) in
              (Returned (Some componentType),
               {| componentRegistry := cr4; dynamicComponentRegistry := d4 |})
          end
      end
  end.

End Registry.

(** * Properties of the dynamic component registry *)

Section RegistryProperties.
Import Schema Registry.

(** "[name] is registered by [S] with the registration object [existing]",
    as [defineComponent] finds it: through the namespaced key. *)
Definition registeredBy (w : Runtime) (S : SystemId) (name : string)
    (r : nat) (existing : ComponentRegistration) : Prop :=
  let d := dynamicComponentRegistry w in
  omGet (createHashedId S name) (hashedIdToRegistration d) = Some r
  ∧ deref (registrationObjects d) r = Some existing
  ∧ systemId existing = S.

(** The runtime after the schema of the object [r] has been replaced. *)
Definition withSchema (w : Runtime) (r : nat) (sch : ComponentSchema) : Runtime :=
  let d := dynamicComponentRegistry w in
  with_dcr w (set_registrationObjects d
                (heapUpdate r (λ reg, set_schema reg sch) (registrationObjects d))).

Lemma defineComponent_existing w S name r existing sch now :
  registeredBy w S name r existing →
  defineComponent name sch S now w =
    match validateSchema sch with
    | Some e => (Thrown (SchemaRejected e), w)
    | None =>
        if bool_decide (version sch ≤ version (schema existing))
        then (Thrown (VersionNotGreater name (version sch)
                        (version (schema existing))), w)
        else (Returned (getComponentTypeById (withSchema w r sch) (id existing)),
              withSchema w r sch)
    end.
Proof.
  intros (Hget & Hobj & Hsys). unfold defineComponent.
  destruct (validateSchema sch); [done|].
  rewrite Hget. cbn. rewrite Hobj. cbn.
  rewrite decide_True by done. done.
Qed.

(** C6, as the code has it. Let [name] be registered by [S] with a schema of
    version [v]. A re-declaration by [S] with a schema of version [w] returns
    normally exactly when the new schema passes [validateSchema] and [w > v];
    it then replaces the schema of the registration object and changes
    nothing else (same id, key, name and owner; every other object and both
    registries as before). A re-declaration with [w ≤ v], or with a rejected
    schema, throws and leaves the runtime unchanged. *)
Theorem redeclare_version_spec (w : Runtime) (S : SystemId) (name : string)
    (r : nat) (existing : ComponentRegistration) (sch : ComponentSchema) (now : Z) :
  registeredBy w S name r existing →
  let v := version (schema existing) in
  let res := defineComponent name sch S now w in
  (returned res.1 = true ↔ validateSchema sch = None ∧ version sch > v)
  ∧ (version sch ≤ v → ∃ e, res = (Thrown e, w))
  ∧ (validateSchema sch ≠ None → ∃ e, res = (Thrown e, w))
  ∧ (validateSchema sch = None → version sch > v →
       res.2 = withSchema w r sch
       ∧ registeredBy res.2 S name r (set_schema existing sch)
       ∧ id (set_schema existing sch) = id existing
       ∧ systemId (set_schema existing sch) = systemId existing
       ∧ schema (set_schema existing sch) = sch
       ∧ componentRegistry res.2 = componentRegistry w
       ∧ (∀ r', r' ≠ r →
            deref (registrationObjects (dynamicComponentRegistry res.2)) r'
            = deref (registrationObjects (dynamicComponentRegistry w)) r')).
Proof.
  intros Hreg v res. subst res.
  rewrite (defineComponent_existing _ _ _ _ _ _ _ Hreg). fold v.
  destruct Hreg as (Hget & Hobj & Hsys).
  destruct (validateSchema sch) as [e|] eqn:Hval.
  - cbn. split_and!; [naive_solver|eauto|eauto|done].
  - destruct (bool_decide (version sch ≤ v)) eqn:Hle.
    + apply bool_decide_eq_true in Hle. cbn.
      split_and!; [|eauto|done|intros _ ?; lia].
      split; [done|]. intros [_ ?]. lia.
    + apply bool_decide_eq_false in Hle. cbn.
      split_and!; [split; [intros _; split; [done|lia]|done]|intros ?; lia|done|].
      intros _ _. split_and!; try done.
      * unfold registeredBy, withSchema. cbn. split_and!; [done| |done].
        unfold deref, heapUpdate. cbn. unfold deref in Hobj.
        rewrite lookup_alter_eq, Hobj. done.
      * intros r' Hr'. unfold deref, withSchema, heapUpdate. cbn.
        by rewrite lookup_alter_ne.
Qed.

Lemma redeclare_version_spec_witness :
  let w1 := (defineComponent "Position" (simpleSchema 1) "sysA" 0 initial).2 in
  returned (defineComponent "Position" (simpleSchema 2) "sysA" 5 w1).1 = true ↔
    validateSchema (simpleSchema 2) = None ∧ version (simpleSchema 2) > 1.
Proof.
  intros w1.
  apply (proj1 (redeclare_version_spec w1 "sysA" "Position" 0%nat
                  (mkRegistration 1000 "3c717c97c3d47b45" "Position" "sysA"
                     (simpleSchema 1) 0)
                  (simpleSchema 2) 5
                  ltac:(vm_compute; done))).
Defined.

(** C6 as stated fails for a schema that [validateSchema] rejects: version 2
    is greater than the registered version 1, yet the re-declaration throws
    and the stored schema stays. *)
Lemma redeclare_rejected_schema_counterexample :
  let w1 := (defineComponent "Position" (simpleSchema 1) "sysA" 0 initial).2 in
  let sch2 := mkSchema 2 [] None None in
  (version ∘ schema <$> getComponentRegistration w1 "Position" "sysA") = Some 1
  ∧ (systemId <$> getComponentRegistration w1 "Position" "sysA") = Some "sysA"
  ∧ version sch2 > 1
  ∧ defineComponent "Position" sch2 "sysA" 5 w1 = (Thrown (SchemaRejected NoFields), w1).
Proof.
  intros w1 sch2. split_and!; vm_compute; reflexivity.
Qed.

(** ** Reachable runtimes *)

(** Built-in registrations made before the dynamic registry module is
    loaded: no callback is installed yet. *)
Definition preload (statics : list (string * string)) : ComponentRegistry :=
  componentRegistry
    (foldl (λ w s, (register s.1 (UserClass s.2) w).2)
           {| componentRegistry := newComponentRegistry;
              dynamicComponentRegistry :=
                dynamicComponentRegistry initial |}
           statics).

Inductive reachable : Runtime → Prop :=
| reach_loaded statics :
    reachable (newDynamicRegistry (preload statics))
| reach_register name label w :
    reachable w → reachable (register name (UserClass label) w).2
| reach_define name sch sys now w :
    reachable w → reachable (defineComponent name sch sys now w).2
| reach_remove sys w :
    reachable w → reachable (removeSystemComponents sys w)
| reach_reserve i w :
    reachable w →
    reachable (with_dcr w (reserveComponentId i (dynamicComponentRegistry w)).2)
| reach_configure n w :
    reachable w →
    reachable (with_dcr w (configureDynamicIdStart n (dynamicComponentRegistry w)).2)
| reach_refresh w :
    reachable w → reachable (refreshStaticComponentIds w)
| reach_clear w :
    reachable w → reachable (clear w).

Lemma reachable_initial : reachable initial.
Proof. apply (reach_loaded []). Qed.

Lemma register_nextId name ctor w :
  0 ≤ nextId (componentRegistry w) →
  0 ≤ nextId (componentRegistry (register name ctor w).2).
Proof.
  intros H. unfold register.
  destruct (omHas name _); [done|]. cbn.
  destruct (onIdRegistered _); [|cbn; lia].
  unfold reserveComponentId. destruct (bool_decide _); cbn; lia.
Qed.

Lemma removeSystemComponents_cr sys w :
  componentRegistry (removeSystemComponents sys w) = componentRegistry w.
Proof.
  unfold removeSystemComponents. by destruct (systemComponents _ !! sys).
Qed.

Lemma defineComponent_nextId name sch sys now w :
  0 ≤ nextId (componentRegistry w) →
  0 ≤ nextId (componentRegistry (defineComponent name sch sys now w).2).
Proof.
  intros H. unfold defineComponent.
  destruct (validateSchema sch); [done|].
  destruct (omGet _ _ ≫= _) as [[r existing]|].
  - destruct (decide _); [|done]. by destruct (bool_decide _).
  - cbn.
    match goal with |- context [register ?n ?c ?w'] =>
      pose proof (register_nextId n c w' H) as Hreg;
      destruct (register n c w') as [[t|e] w3] end; cbn in *; done.
Qed.

Lemma reachable_nextId w : reachable w → 0 ≤ nextId (componentRegistry w).
Proof.
  induction 1 as [statics| | | | | | |]; cbn; try done.
  - unfold preload.
    assert (∀ w0, 0 ≤ nextId (componentRegistry w0) →
              0 ≤ nextId (componentRegistry
                     (foldl (λ w s, (register s.1 (UserClass s.2) w).2) w0 statics))) as Hfold.
    { induction statics as [|s statics IH]; intros w0 H0; cbn; [done|].
      apply IH. by apply register_nextId. }
    apply Hfold. cbn. lia.
  - by apply register_nextId.
  - by apply defineComponent_nextId.
  - by rewrite removeSystemComponents_cr.
Qed.

Lemma skipUsed_ge fuel used n : n ≤ skipUsed fuel used n.
Proof.
  revert n. induction fuel as [|fuel IH]; intros n; cbn; [lia|].
  destruct (bool_decide _); [|lia]. specialize (IH (n + 1)). lia.
Qed.

(** What a first declaration does to the runtime. *)
Record declaredIn (w w' : Runtime) (S : SystemId) (name : string)
    (sch : ComponentSchema) (now : Z) (t r : nat) (cid : Z) : Prop := mkDeclared {
  decl_t : t = nextRef (typeObjects (componentRegistry w));
  decl_r : r = nextRef (registrationObjects (dynamicComponentRegistry w));
  decl_cid_ge : nextDynamicId (dynamicComponentRegistry w) ≤ cid;
  decl_next : nextDynamicId (dynamicComponentRegistry w') = cid + 1;
  decl_keys :
    componentRegistrations (dynamicComponentRegistry w') =
      <[name +:+ ":" +:+ S := r]> (componentRegistrations (dynamicComponentRegistry w));
  decl_hashed :
    hashedIdToRegistration (dynamicComponentRegistry w') =
      omSet (createHashedId S name) r (hashedIdToRegistration (dynamicComponentRegistry w));
  decl_obj :
    deref (registrationObjects (dynamicComponentRegistry w')) r =
      Some (mkRegistration cid (createHashedId S name) name S sch now);
  decl_obj_frame : ∀ r', r' ≠ r →
    deref (registrationObjects (dynamicComponentRegistry w')) r' =
      deref (registrationObjects (dynamicComponentRegistry w)) r';
  decl_obj_next :
    nextRef (registrationObjects (dynamicComponentRegistry w')) = Datatypes.S r;
  decl_components :
    components (componentRegistry w') =
      omSet (createHashedId S name) t (components (componentRegistry w));
  decl_type :
    deref (typeObjects (componentRegistry w')) t =
      Some (mkType cid (createHashedId S name) (DynamicComponent sch));
  decl_type_frame : ∀ t', t' ≠ t →
    deref (typeObjects (componentRegistry w')) t' =
      deref (typeObjects (componentRegistry w)) t';
  decl_type_next :
    nextRef (typeObjects (componentRegistry w')) = Datatypes.S t;
  decl_nextId :
    nextId (componentRegistry w') = nextId (componentRegistry w) + 1;
}.

Lemma defineComponent_fresh w S name sch now :
  validateSchema sch = None →
  omGet (createHashedId S name)
        (hashedIdToRegistration (dynamicComponentRegistry w)) = None →
  getType (componentRegistry w) (createHashedId S name) = None →
  0 ≤ nextId (componentRegistry w) →
  ∃ w' t r cid,
    defineComponent name sch S now w = (Returned (Some t), w')
    ∧ declaredIn w w' S name sch now t r cid.
Proof.
  intros Hval Hfresh Htype Hnext. unfold defineComponent.
  rewrite Hval, Hfresh. cbn.
  unfold register. cbn. unfold getType in Htype. unfold omHas. rewrite Htype.
  set (cid := skipUsed _ _ _).
  assert (nextDynamicId (dynamicComponentRegistry w) ≤ cid) as Hcid
    by apply skipUsed_ge.
  destruct (onIdRegistered (componentRegistry w)) eqn:Hcb.
  - unfold reserveComponentId. cbn.
    rewrite bool_decide_eq_false_2 by lia. cbn.
    eexists _, _, _, cid. split; [reflexivity|].
    split; cbn; try done.
    + unfold deref. cbn. by rewrite lookup_insert_eq.
    + intros r' Hr'. unfold deref. cbn. by rewrite lookup_insert_ne.
    + unfold deref. cbn. by rewrite lookup_alter_eq, lookup_insert_eq.
    + intros t' Ht'. unfold deref. cbn.
      by rewrite lookup_alter_ne, lookup_insert_ne.
  - cbn.
    eexists _, _, _, cid. split; [reflexivity|].
    split; cbn; try done.
    + unfold deref. cbn. by rewrite lookup_insert_eq.
    + intros r' Hr'. unfold deref. cbn. by rewrite lookup_insert_ne.
    + unfold deref. cbn. by rewrite lookup_alter_eq, lookup_insert_eq.
    + intros t' Ht'. unfold deref. cbn.
      by rewrite lookup_alter_ne, lookup_insert_ne.
Qed.

(** Neither map knows the namespaced key of [(S, name)] yet. *)
Definition undeclared (w : Runtime) (S : SystemId) (name : string) : Prop :=
  omGet (createHashedId S name)
        (hashedIdToRegistration (dynamicComponentRegistry w)) = None
  ∧ getType (componentRegistry w) (createHashedId S name) = None.





(** ** Built-in ids can run into the dynamic range *)

(** The ids of the built-in component types, and the ids of the record
    types the dynamic registry holds. *)
Definition builtInIds (w : Runtime) : list ComponentId :=
  ct_id <$> filter (λ t, isBuiltIn t = true) (getAllTypes (componentRegistry w)).
Definition dynamicIds (w : Runtime) : list ComponentId :=
  id <$> registrations (dynamicComponentRegistry w).

(** [registerAll names]: the host registers one built-in class per name. *)
Definition registerAll (names : list string) (w : Runtime) : Runtime :=
  foldl (λ w name, (register name (UserClass name) w).2) w names.

Definition builtInNames (n : nat) : list string :=
  (λ i, "BuiltIn" +:+ pretty i) <$> seq 1 n.

Lemma registerAll_reachable names w : reachable w → reachable (registerAll names w).
Proof.
  revert w. induction names as [|name names IH]; intros w Hw; cbn; [done|].
  apply IH. by apply reach_register.
Qed.

(** What one built-in registration under a new name does. *)
Lemma register_builtin_fresh name w :
  omGet name (components (componentRegistry w)) = None →
  0 ≤ nextId (componentRegistry w) →
  let w' := (register name (UserClass name) w).2 in
  let t := nextRef (typeObjects (componentRegistry w)) in
  nextId (componentRegistry w') = nextId (componentRegistry w) + 1
  ∧ nextRef (typeObjects (componentRegistry w')) = Datatypes.S t
  ∧ components (componentRegistry w') = components (componentRegistry w) ++ [(name, t)]
  ∧ deref (typeObjects (componentRegistry w')) t
      = Some (mkType (nextId (componentRegistry w)) name (UserClass name))
  ∧ (∀ t', t' ≠ t →
       deref (typeObjects (componentRegistry w')) t'
       = deref (typeObjects (componentRegistry w)) t')
  ∧ registrationObjects (dynamicComponentRegistry w')
      = registrationObjects (dynamicComponentRegistry w)
  ∧ componentRegistrations (dynamicComponentRegistry w')
      = componentRegistrations (dynamicComponentRegistry w)
  ∧ hashedIdToRegistration (dynamicComponentRegistry w')
      = hashedIdToRegistration (dynamicComponentRegistry w).
Proof.
  intros Hfresh Hnext. cbn zeta. unfold register, omHas. rewrite Hfresh. cbn.
  rewrite (omSet_fresh _ _ _ Hfresh).
  destruct (onIdRegistered (componentRegistry w)); cbn.
  - unfold reserveComponentId. rewrite bool_decide_eq_false_2 by lia. cbn.
    unfold deref. cbn. rewrite lookup_insert_eq.
    split_and!; try done. intros t' Ht'. by rewrite lookup_insert_ne.
  - unfold deref. cbn. rewrite lookup_insert_eq.
    split_and!; try done. intros t' Ht'. by rewrite lookup_insert_ne.
Qed.

(** A run of built-in registrations under new, pairwise different names:
    the [i]-th gets the id [nextId + i], and the dynamic registrations are
    not touched. *)
Lemma registerAll_fresh names w :
  NoDup names →
  (∀ name, name ∈ names → omGet name (components (componentRegistry w)) = None) →
  0 ≤ nextId (componentRegistry w) →
  let w' := registerAll names w in
  let t0 := nextRef (typeObjects (componentRegistry w)) in
  nextRef (typeObjects (componentRegistry w')) = (t0 + length names)%nat
  ∧ (∀ i name, names !! i = Some name →
       getType (componentRegistry w') name = Some (t0 + i)%nat
       ∧ deref (typeObjects (componentRegistry w')) (t0 + i)%nat
         = Some (mkType (nextId (componentRegistry w) + Z.of_nat i) name (UserClass name)))
  ∧ (∀ t', (t' < t0)%nat →
       deref (typeObjects (componentRegistry w')) t'
       = deref (typeObjects (componentRegistry w)) t')
  ∧ (∀ k, omGet k (components (componentRegistry w)) ≠ None →
       getType (componentRegistry w') k = getType (componentRegistry w) k)
  ∧ registrationObjects (dynamicComponentRegistry w')
      = registrationObjects (dynamicComponentRegistry w)
  ∧ componentRegistrations (dynamicComponentRegistry w')
      = componentRegistrations (dynamicComponentRegistry w)
  ∧ hashedIdToRegistration (dynamicComponentRegistry w')
      = hashedIdToRegistration (dynamicComponentRegistry w).
Proof.
  intros Hnd. revert w. induction Hnd as [|name names Hname Hnd IH];
    intros w Hfresh Hnext; cbn zeta.
  - cbn. split_and!; try done; by rewrite ?Nat.add_0_r.
  - cbn [registerAll foldl].
    assert (omGet name (components (componentRegistry w)) = None) as Hn
      by (apply Hfresh, elem_of_cons; by left).
    destruct (register_builtin_fresh name w Hn Hnext)
      as (R1 & R2 & R3 & R4 & R5 & R6 & R7 & R8).
    set (w1 := (register name (UserClass name) w).2) in *.
    assert (∀ n, n ∈ names → omGet n (components (componentRegistry w1)) = None) as Hfresh1.
    { intros n Hin. rewrite R3, omGet_app_None.
      - cbn. rewrite decide_False; [done|]. intros ->. done.
      - apply Hfresh, elem_of_cons. by right. }
    assert (0 ≤ nextId (componentRegistry w1)) as Hnext1 by lia.
    destruct (IH w1 Hfresh1 Hnext1) as (I1 & I2 & I3 & I4 & I5 & I6 & I7).
    fold (registerAll names w1). rewrite R2 in I1, I2, I3.
    split_and!.
    + rewrite I1. cbn. lia.
    + intros [|i] n Hi; cbn in Hi.
      * injection Hi as <-. rewrite Nat.add_0_r, Z.add_0_r.
        split.
        -- rewrite I4.
           ++ unfold getType. rewrite R3, omGet_app_None by done. cbn.
              by rewrite decide_True.
           ++ rewrite R3, omGet_app_None by done. cbn. by rewrite decide_True.
        -- rewrite I3 by lia. done.
      * destruct (I2 i n Hi) as [G D].
        replace (nextRef (typeObjects (componentRegistry w)) + Datatypes.S i)%nat
          with (Datatypes.S (nextRef (typeObjects (componentRegistry w))) + i)%nat by lia.
        split; [done|]. rewrite D, R1. do 2 f_equal. lia.
    + intros t' Ht'. rewrite I3 by lia. apply R5. lia.
    + intros k Hk. rewrite I4.
      * unfold getType. rewrite R3.
        destruct (omGet k (components (componentRegistry w))) as [v|] eqn:Hv; [|done].
        clear -Hv. induction (components (componentRegistry w)) as [|[k0 v0] m IHm];
          cbn in *; [done|]. destruct (decide (k0 = k)); [done|by apply IHm].
      * rewrite R3.
        destruct (omGet k (components (componentRegistry w))) as [v|] eqn:Hv; [|done].
        clear -Hv. induction (components (componentRegistry w)) as [|[k0 v0] m IHm];
          cbn in *; [done|]. destruct (decide (k0 = k)); [done|by apply IHm].
    + by rewrite I5.
    + by rewrite I6.
    + by rewrite I7.
Qed.

Lemma builtInNames_lookup n i :
  (i < n)%nat → builtInNames n !! i = Some ("BuiltIn" +:+ pretty (Datatypes.S i)).
Proof.
  intros Hi. unfold builtInNames. rewrite list_lookup_fmap, lookup_seq_lt by done.
  done.
Qed.

Lemma builtInNames_NoDup n : NoDup (builtInNames n).
Proof.
  unfold builtInNames. apply NoDup_fmap_2_strong; [|apply NoDup_seq].
  intros i j _ _ Heq. apply (inj (String.app _)) in Heq. by apply (inj pretty) in Heq.
Qed.

(** After one declaration, the [n]-th built-in registration gets the id
    [n], whatever the ids the dynamic registry has given out. *)
Lemma registerAll_after_declaration (w1 : Runtime) (n : nat) (h : string)
    (lastName : string) (lastId : Z) :
  components (componentRegistry w1) = [(h, 0%nat)] →
  (∀ i : nat, h ≠ "BuiltIn" +:+ pretty i) →
  nextId (componentRegistry w1) = 1 →
  nextRef (typeObjects (componentRegistry w1)) = 1%nat →
  (0 < n)%nat →
  lastName = "BuiltIn" +:+ pretty n →
  lastId = Z.of_nat n →
  ∀ w', w' = registerAll (builtInNames n) w1 →
  getComponentId w' "Position" "sysA" = getComponentId w1 "Position" "sysA"
  ∧ dynamicIds w' = dynamicIds w1
  ∧ (∃ t, getType (componentRegistry w') lastName = Some t
          ∧ deref (typeObjects (componentRegistry w')) t
            = Some (mkType lastId lastName (UserClass lastName)))
  ∧ lastId ∈ builtInIds w'.
Proof.
  intros Hc Hh Hn Hr Hpos -> -> w' Hw'.
  destruct (registerAll_fresh (builtInNames n) w1 (builtInNames_NoDup n))
    as (_ & Hnames & _ & _ & Hobj & Hkeys & Hhashed).
  { intros name Hin. rewrite Hc. cbn [omGet].
    apply list_elem_of_fmap in Hin as (i & -> & _).
    rewrite decide_False; [done|]. apply Hh. }
  { rewrite Hn. lia. }
  cbn zeta in Hnames, Hobj, Hkeys, Hhashed.
  rewrite <-Hw' in Hnames, Hobj, Hkeys, Hhashed. clear Hw'.
  destruct n as [|n]; [lia|].
  destruct (Hnames n _ (builtInNames_lookup (Datatypes.S n) n ltac:(lia))) as [Hget Hty].
  rewrite Hn, Hr in *.
  replace (1 + Z.of_nat n) with (Z.of_nat (Datatypes.S n)) in Hty by lia.
  split_and!.
  - unfold getComponentId, getComponentRegistration. by rewrite Hkeys, Hobj.
  - unfold dynamicIds, registrations. by rewrite Hhashed, Hobj.
  - eauto.
  - unfold builtInIds. apply list_elem_of_fmap.
    eexists. split; [|apply list_elem_of_filter; split;
      [|unfold getAllTypes; apply list_elem_of_omap; eexists; split; [|exact Hty]]].
    + done.
    + done.
    + unfold omValues. apply list_elem_of_fmap. eexists (_, _). split; [done|].
      apply omGet_Some_elem. exact Hget.
Qed.

Lemma collision_at_1000 (w1 w : Runtime) :
  w1 = (defineComponent "Position" (simpleSchema 1) "sysA" 0 initial).2 →
  w = registerAll (builtInNames 1000) w1 →
  reachable w
  ∧ getComponentId w "Position" "sysA" = Some 1000
  ∧ (∃ t, getType (componentRegistry w) "BuiltIn1000" = Some t
          ∧ deref (typeObjects (componentRegistry w)) t
            = Some (mkType 1000 "BuiltIn1000" (UserClass "BuiltIn1000")))
  ∧ 1000 ∈ dynamicIds w
  ∧ 1000 ∈ builtInIds w.
Proof.
  intros Hw1 Hw.
  assert (components (componentRegistry w1) = [("3c717c97c3d47b45", 0%nat)]) as Hc
    by (rewrite Hw1; vm_compute; reflexivity).
  assert (nextId (componentRegistry w1) = 1) as Hn
    by (rewrite Hw1; vm_compute; reflexivity).
  assert (nextRef (typeObjects (componentRegistry w1)) = 1%nat) as Hr
    by (rewrite Hw1; vm_compute; reflexivity).
  assert (getComponentId w1 "Position" "sysA" = Some 1000) as Hid
    by (rewrite Hw1; vm_compute; reflexivity).
  assert (dynamicIds w1 = [1000]) as Hd
    by (rewrite Hw1; vm_compute; reflexivity).
  assert ("BuiltIn1000" = "BuiltIn" +:+ pretty 1000%nat) as Hname
    by (vm_compute; reflexivity).
  assert (reachable w1) as Hreach
    by (rewrite Hw1; apply reach_define, reachable_initial).
  clear Hw1.
  assert (∀ i : nat, "3c717c97c3d47b45" ≠ "BuiltIn" +:+ pretty i) as Hh
    by (intros i Heq; discriminate Heq).
  assert (0 < 1000)%nat as Hpos by lia.
  assert (1000 = Z.of_nat 1000) as Hlast by reflexivity.
  destruct (registerAll_after_declaration w1 1000 _ "BuiltIn1000" 1000
              Hc Hh Hn Hr Hpos Hname Hlast w Hw) as (H1 & H2 & H3 & H4).
  split; [rewrite Hw; by apply registerAll_reachable|].
  split; [by rewrite H1|].
  split; [exact H3|].
  split; [|exact H4].
  rewrite H2, Hd. by apply list_elem_of_singleton.
Qed.

(** One record type is declared by program [sysA]; afterwards a thousand
    built-in types are registered. *)
Local Abbreviation oneDeclaration :=
  ((defineComponent "Position" (simpleSchema 1) "sysA" 0 initial).2).
Local Abbreviation thousandBuiltIns :=
  (registerAll (builtInNames 1000) oneDeclaration).

(** C8 fails on the code. In the reachable runtime [thousandBuiltIns] the id
    1000 belongs both to the record type that program [sysA] declared and to
    the built-in type registered last. *)
Theorem builtin_id_collides_with_dynamic_id :
  reachable thousandBuiltIns
  ∧ getComponentId thousandBuiltIns "Position" "sysA" = Some 1000
  ∧ (∃ t, getType (componentRegistry thousandBuiltIns) "BuiltIn1000" = Some t
          ∧ deref (typeObjects (componentRegistry thousandBuiltIns)) t
            = Some (mkType 1000 "BuiltIn1000" (UserClass "BuiltIn1000")))
  ∧ 1000 ∈ dynamicIds thousandBuiltIns
  ∧ 1000 ∈ builtInIds thousandBuiltIns.
Proof. exact (collision_at_1000 oneDeclaration thousandBuiltIns eq_refl eq_refl). Qed.

End RegistryProperties.

(** * Event system (the [EventSystem] class of [system-loader]) *)

Module Events.

Section WithPayload.
(** The payload of an event ([data: any]), what a handler may throw, and the
    state that handlers keep outside the event system. *)
Context {Data Exn Host : Type}.

Record SystemEvent : Type := mkEvent {
  ev_type : string;
  ev_data : Data;
  ev_emitter : SystemId;
  ev_timestamp : Z;
  ev_broadcast : bool;   (* [metadata: { broadcast: true }] or [undefined] *)
}.

Record EmitOptions : Type := mkEmitOptions {
  targetSystems : option (list SystemId);
  broadcast : option bool;
}.

Definition noOptions : EmitOptions := {| targetSystems := None; broadcast := None |}.

(** An [EventHandler] is a closure. A call of it is a run of steps that ends
    when the handler returns or throws; on the way it can read and write the
    state it closes over, and it can call back into the event system that is
    delivering to it, through the [subscribe], [unsubscribe] and [emit] of the
    system context it holds ([enhanced-system-context.ts]). A call carries
    the [Date.now()] it is made at, and the handler goes on with the value
    the call returns. The event object that the handler is given is taken
    to be read only. *)
Inductive Action : Type :=
| Return
| Throw (error : Exn)
| ReadHost (k : Host → Action)
| WriteHost (h : Host) (k : Action)
| CallSubscribe (systemId : SystemId) (eventType : string)
                (handler : SystemEvent → Action) (now : Z) (k : string → Action)
| CallUnsubscribe (subscriptionId : string) (k : bool → Action)
| CallEmit (emitterSystemId : SystemId) (eventType : string) (data : Data)
           (options : EmitOptions) (now : Z) (k : Action).

Definition EventHandler : Type := SystemEvent → Action.

Record EventSubscription : Type := mkSubscription {
  sub_id : string;
  sub_systemId : SystemId;
  sub_eventType : string;
  sub_handler : EventHandler;
  sub_createdAt : Z;
}.

(** The class state. [subscriptions] maps an event type to its array of
    subscriptions; [errorLog] is what [console.error] printed. *)
Record EventSystem : Type := mkES {
  subscriptions : OrderedMap (list EventSubscription);
  systemSubscriptions : gmap SystemId (gset string);
  eventHistory : gmap string (list SystemEvent);
  maxEventHistory : nat;
  nextSubscriptionId : Z;
  errorLog : list (SystemId * Exn);
}.

Definition new : EventSystem :=
  {| subscriptions := []; systemSubscriptions := ∅; eventHistory := ∅;
     maxEventHistory := 1000; nextSubscriptionId := 1; errorLog := [] |}.

(** [subscribe(systemId, eventType, handler)]; [now] is [Date.now()]. A new
    array is put into the map when the event type has none, and the
    subscription is pushed onto the array of the event type. *)
Definition subscribe (sys : SystemId) (eventType : string) (handler : EventHandler)
    (now : Z) (es : EventSystem) : string * EventSystem :=
  let subscriptionId := "sub_" +:+ pretty (nextSubscriptionId es) in
  let subscription :=
    {| sub_id := subscriptionId; sub_systemId := sys; sub_eventType := eventType;
       sub_handler := handler; sub_createdAt := now |} in
  (subscriptionId,
   {| subscriptions :=
        omSet eventType (default [] (omGet eventType (subscriptions es)) ++ [subscription])
              (subscriptions es);
      systemSubscriptions :=
        <[sys := {[subscriptionId]} ∪ default ∅ (systemSubscriptions es !! sys)]>
          (systemSubscriptions es);
      eventHistory := eventHistory es;
      maxEventHistory := maxEventHistory es;
      nextSubscriptionId := nextSubscriptionId es + 1;
      errorLog := errorLog es |}).

(** The loop of [unsubscribe] over the event types, in iteration order:
    the first list that holds the subscription, and its index there. *)
Fixpoint findSubscription (subscriptionId : string)
    (m : OrderedMap (list EventSubscription))
  : option (string * nat * EventSubscription) :=
  match m with
  | [] => None
  | (eventType, subs) :: m' =>
      match list_find (λ sub, sub_id sub = subscriptionId) subs with
      | Some (index, sub) => Some (eventType, index, sub)
      | None => findSubscription subscriptionId m'
      end
  end.

(** [unsubscribe(subscriptionId)]: the subscription is spliced out of the
    array of its event type, and an array left empty is taken out of the
    map. *)
Definition unsubscribe (subscriptionId : string) (es : EventSystem)
  : bool * EventSystem :=
  match findSubscription subscriptionId (subscriptions es) with
  | None => (false, es)
  | Some (eventType, index, subscription) =>
      let remaining :=
        delete index (default [] (omGet eventType (subscriptions es))) in
      let systemSubs' :=
        match systemSubscriptions es !! sub_systemId subscription with
        | Some systemSubs =>
            let s := systemSubs ∖ {[subscriptionId]} in
            if bool_decide (size s = 0%nat)
            then delete (sub_systemId subscription) (systemSubscriptions es)
            else <[sub_systemId subscription := s]> (systemSubscriptions es)
        | None => systemSubscriptions es
        end in
      (true,
       {| subscriptions :=
            match remaining with
            | [] => omDelete eventType (subscriptions es)
            | _ => omSet eventType remaining (subscriptions es)
            end;
          systemSubscriptions := systemSubs';
          eventHistory := eventHistory es;
          maxEventHistory := maxEventHistory es;
          nextSubscriptionId := nextSubscriptionId es;
          errorLog := errorLog es |})
  end.

(** What [filterTargetSubscriptions] returns: the array it was given, when
    neither of its two [filter] calls ran, or the new array that [filter]
    made. *)
Inductive Filtered : Type :=
| TheArray
| NewArray (elements : list EventSubscription).

(** [filterTargetSubscriptions(subscriptions, emitterSystemId, options)] *)
Definition filterTargetSubscriptions (subs : list EventSubscription)
    (emitterSystemId : SystemId) (options : EmitOptions) : Filtered :=
  let filtered :=
    match targetSystems options with
    | Some (t :: ts) => NewArray (filter (λ sub, sub_systemId sub ∈ t :: ts) subs)
    | _ => TheArray
    end in
  if negb (default false (broadcast options))
  then NewArray (filter (λ sub, sub_systemId sub ≠ emitterSystemId)
                        (match filtered with
                         | TheArray => subs
                         | NewArray elements => elements
                         end))
  else filtered.

(** [addToHistory(eventType, event)] *)
Definition addToHistory (eventType : string) (event : SystemEvent)
    (history : gmap string (list SystemEvent)) (maxHistory : nat)
  : gmap string (list SystemEvent) :=
  let h := default [] (history !! eventType) ++ [event] in
  <[eventType := drop (length h - maxHistory) h]> history.

(** The state after [this.addToHistory(eventType, event)]. *)
Definition recordEvent (eventType : string) (event : SystemEvent) (es : EventSystem)
  : EventSystem :=
  {| subscriptions := subscriptions es;
     systemSubscriptions := systemSubscriptions es;
     eventHistory := addToHistory eventType event (eventHistory es) (maxEventHistory es);
     maxEventHistory := maxEventHistory es;
     nextSubscriptionId := nextSubscriptionId es;
     errorLog := errorLog es |}.

(** The state after the [console.error] of the [catch] block. *)
Definition logError (sys : SystemId) (error : Exn) (es : EventSystem) : EventSystem :=
  {| subscriptions := subscriptions es;
     systemSubscriptions := systemSubscriptions es;
     eventHistory := eventHistory es;
     maxEventHistory := maxEventHistory es;
     nextSubscriptionId := nextSubscriptionId es;
     errorLog := errorLog es ++ [(sys, error)] |}.

(** The event object [emit] builds. *)
Definition eventOf (emitterSystemId : SystemId) (eventType : string) (data : Data)
    (options : EmitOptions) (now : Z) : SystemEvent :=
  {| ev_type := eventType; ev_data := data; ev_emitter := emitterSystemId;
     ev_timestamp := now; ev_broadcast := default false (broadcast options) |}.

(** A subscription that an [unsubscribe] call took out: its event type, its
    id, and whether its array was left empty and taken out of the map. *)
Record Removal : Type := mkRemoval {
  rm_eventType : string;
  rm_id : string;
  rm_emptied : bool;
}.

Definition removalOf (subscriptionId : string) (es : EventSystem) : list Removal :=
  match findSubscription subscriptionId (subscriptions es) with
  | None => []
  | Some (eventType, _, _) =>
      [{| rm_eventType := eventType; rm_id := subscriptionId;
          rm_emptied :=
            negb (omHas eventType (subscriptions (unsubscribe subscriptionId es).2)) |}]
  end.

(** Whether the array of [eventType] was taken out of the map. *)
Definition arrayDropped (eventType : string) (removed : list Removal) : bool :=
  existsb (λ r, rm_emptied r && bool_decide (rm_eventType r = eventType)) removed.

(** A handler call that has come back: how it ended, the states it left,
    and the subscriptions removed on the way. *)
Record Ran : Type := mkRan {
  r_outcome : Outcome Exn unit;
  r_host : Host;
  r_system : EventSystem;
  r_removed : list Removal;
}.

(** An [emit] that has come back: the states it left, the handler calls its
    own loop made, in order and each with the way it ended, and the
    subscriptions removed on the way. *)
Record Delivery : Type := mkDelivery {
  d_host : Host;
  d_system : EventSystem;
  d_calls : list (EventSubscription * Outcome Exn unit);
  d_removed : list Removal;
}.

Definition Emit : Type :=
  SystemId → string → Data → EmitOptions → Z → Host → EventSystem → option Delivery.

(** The run of a handler call, [nested] being the [emit] it reaches. *)
Fixpoint run (nested : Emit) (action : Action) (h : Host) (es : EventSystem)
  : option Ran :=
  match action with
  | Return =>
      Some {| r_outcome := Returned tt; r_host := h; r_system := es; r_removed := [] |}
  | Throw error =>
      Some {| r_outcome := Thrown error; r_host := h; r_system := es; r_removed := [] |}
  | ReadHost k => run nested (k h) h es
  | WriteHost h' k => run nested k h' es
  | CallSubscribe sys eventType handler now k =>
      let r := subscribe sys eventType handler now es in
      run nested (k r.1) h r.2
  | CallUnsubscribe subscriptionId k =>
      let r := unsubscribe subscriptionId es in
      match run nested (k r.1) h r.2 with
      | None => None
      | Some ran =>
          Some {| r_outcome := r_outcome ran; r_host := r_host ran;
                  r_system := r_system ran;
                  r_removed := removalOf subscriptionId es ++ r_removed ran |}
      end
  | CallEmit emitterSystemId eventType data options now k =>
      match nested emitterSystemId eventType data options now h es with
      | None => None
      | Some d =>
          match run nested k (d_host d) (d_system d) with
          | None => None
          | Some ran =>
              Some {| r_outcome := r_outcome ran; r_host := r_host ran;
                      r_system := r_system ran;
                      r_removed := d_removed d ++ r_removed ran |}
          end
      end
  end.

(** The body of the delivery loop: the handler is called inside
    [try]/[catch], a thrown value goes to [console.error]. *)
Definition invoke (nested : Emit) (event : SystemEvent) (subscription : EventSubscription)
    (h : Host) (es : EventSystem) : option Ran :=
  match run nested (sub_handler subscription event) h es with
  | None => None
  | Some ran =>
      Some match r_outcome ran with
           | Returned _ => ran
           | Thrown error =>
               {| r_outcome := r_outcome ran; r_host := r_host ran;
                  r_system := logError (sub_systemId subscription) error (r_system ran);
                  r_removed := r_removed ran |}
           end
  end.

(** The delivery after one more turn of its loop. *)
Definition called (d : Delivery) (subscription : EventSubscription) (ran : Ran)
  : Delivery :=
  {| d_host := r_host ran; d_system := r_system ran;
     d_calls := d_calls d ++ [(subscription, r_outcome ran)];
     d_removed := d_removed d ++ r_removed ran |}.

(** [for (const subscription of targetSubscriptions)] over an array that
    [filter] made: nothing else holds it, so it stays as it is. *)
Fixpoint forEach (nested : Emit) (event : SystemEvent)
    (targetSubscriptions : list EventSubscription) (d : Delivery) : option Delivery :=
  match targetSubscriptions with
  | [] => Some d
  | subscription :: rest =>
      match invoke nested event subscription (d_host d) (d_system d) with
      | None => None
      | Some ran => forEach nested event rest (called d subscription ran)
      end
  end.

(** The same loop over the array that the map holds for the event type (no
    array, when the map holds none). The iterator reads the element at its
    index from the array as it is then: [subscribe] pushes onto this array
    and [unsubscribe] splices it. Once the array was left empty and taken
    out of the map, nothing is added to it any more and the loop ends. *)
Fixpoint forEachLive (nested : Emit) (event : SystemEvent) (eventType : string)
    (turns : nat) (index : nat) (d : Delivery) : option Delivery :=
  match turns with
  | O => None
  | S turns' =>
      match default [] (omGet eventType (subscriptions (d_system d))) !! index with
      | None => Some d
      | Some subscription =>
          match invoke nested event subscription (d_host d) (d_system d) with
          | None => None
          | Some ran =>
              if arrayDropped eventType (r_removed ran)
              then Some (called d subscription ran)
              else forEachLive nested event eventType turns' (S index)
                     (called d subscription ran)
          end
      end
  end.

(** [emit(emitterSystemId, eventType, data, options)]; [now] is [Date.now()].
    The method has no [throw] of its own and catches what handlers throw.
    Handlers may emit in turn and the loop over the array of the map has no
    bound of its own: [fuel] bounds the depth of nested emits and the turns
    of that loop, and [None] stands for a call that has not come back
    within it. A run that exhausts every bound, which on the machine ends
    in a stack overflow or not at all, has no counterpart here. *)
Fixpoint emit (fuel : nat) (emitterSystemId : SystemId) (eventType : string)
    (data : Data) (options : EmitOptions) (now : Z) (h : Host) (es : EventSystem)
  : option Delivery :=
  match fuel with
  | O => None
  | S fuel' =>
      let event := eventOf emitterSystemId eventType data options now in
      let es1 := recordEvent eventType event es in
      let subs := default [] (omGet eventType (subscriptions es1)) in
      let start := {| d_host := h; d_system := es1; d_calls := []; d_removed := [] |} in
      match filterTargetSubscriptions subs emitterSystemId options with
      | TheArray => forEachLive (emit fuel') event eventType fuel 0 start
      | NewArray targetSubscriptions =>
          forEach (emit fuel') event targetSubscriptions start
      end
  end.

(** [getEventSubscribers(eventType)] *)
Definition getEventSubscribers (es : EventSystem) (eventType : string) : list SystemId :=
  sub_systemId <$> default [] (omGet eventType (subscriptions es)).

(** [clear()] *)
Definition clear (es : EventSystem) : EventSystem :=
  {| subscriptions := []; systemSubscriptions := ∅; eventHistory := ∅;
     maxEventHistory := maxEventHistory es; nextSubscriptionId := 1;
     errorLog := errorLog es |}.

End WithPayload.

Arguments SystemEvent : clear implicits.
Arguments Action : clear implicits.
Arguments EventHandler : clear implicits.
Arguments EventSubscription : clear implicits.
Arguments EventSystem : clear implicits.
Arguments Filtered : clear implicits.
Arguments Ran : clear implicits.
Arguments Delivery : clear implicits.
Arguments Emit : clear implicits.

End Events.

(** * Properties of the event system *)

Section EventProperties.
Import Events.
Context {Data Exn Host : Type}.
Abbreviation SystemEvent := (Events.SystemEvent Data).
Abbreviation Action := (Events.Action Data Exn Host).
Abbreviation EventSystem := (Events.EventSystem Data Exn Host).
Abbreviation EventSubscription := (Events.EventSubscription Data Exn Host).
Abbreviation EventHandler := (Events.EventHandler Data Exn Host).
Abbreviation Filtered := (Events.Filtered Data Exn Host).
Abbreviation Ran := (Events.Ran Data Exn Host).
Abbreviation Delivery := (Events.Delivery Data Exn Host).
Abbreviation Emit := (Events.Emit Data Exn Host).

(** The targeting rule of [emit] as one test on a subscription: a non-empty
    target list must name the subscriber, and without the broadcast flag the
    subscriber must not be the emitter. *)
Definition matchesTargeting (options : EmitOptions) (emitter : SystemId)
    (sub : EventSubscription) : bool :=
  match targetSystems options with
  | Some (t :: ts) => bool_decide (sub_systemId sub ∈ t :: ts)
  | _ => true
  end
  && (default false (broadcast options) || bool_decide (sub_systemId sub ≠ emitter)).

(** The elements of the array that [filterTargetSubscriptions] returns, at
    the time it returns. *)
Definition elementsOf (subs : list EventSubscription) (filtered : Filtered)
  : list EventSubscription :=
  match filtered with
  | TheArray => subs
  | NewArray elements => elements
  end.

Lemma list_filter_id_all {A} (P : A → Prop) `{!∀ x, Decision (P x)} (l : list A) :
  (∀ x, P x) → filter P l = l.
Proof.
  intros HP. induction l as [|x l IH]; [done|].
  rewrite filter_cons, decide_True by done. by rewrite IH.
Qed.

Lemma filterTargetSubscriptions_matches (subs : list EventSubscription) emitter options :
  elementsOf subs (filterTargetSubscriptions subs emitter options) =
    filter (λ sub, matchesTargeting options emitter sub = true) subs.
Proof.
  unfold filterTargetSubscriptions, matchesTargeting.
  destruct (targetSystems options) as [[|t ts]|];
    destruct (default false (broadcast options)); cbn [negb andb orb elementsOf].
  - symmetry. apply list_filter_id_all. done.
  - apply list_filter_iff. intros sub. by rewrite bool_decide_eq_true.
  - apply list_filter_iff. intros sub.
    by rewrite andb_true_r, bool_decide_eq_true.
  - rewrite list_filter_filter. apply list_filter_iff. intros sub.
    rewrite andb_true_iff, !bool_decide_eq_true. tauto.
  - symmetry. apply list_filter_id_all. done.
  - apply list_filter_iff. intros sub. by rewrite bool_decide_eq_true.
Qed.

(** [filterTargetSubscriptions] hands back the array of the map exactly
    under the broadcast flag with no target list, or an empty one. *)
Lemma filterTargetSubscriptions_TheArray (subs : list EventSubscription) emitter options :
  filterTargetSubscriptions subs emitter options = TheArray ↔
  default false (broadcast options) = true
  ∧ (targetSystems options = None ∨ targetSystems options = Some []).
Proof.
  unfold filterTargetSubscriptions.
  destruct (targetSystems options) as [[|t ts]|];
    destruct (default false (broadcast options)); cbn [negb]; naive_solver.
Qed.

(** ** What every step of a delivery keeps *)

(** A property of the class state that each of the four ways in which a
    delivery changes the state keeps. *)
Definition stepInvariant (P : EventSystem → Prop) : Prop :=
  (∀ sys eventType handler now es, P es → P (subscribe sys eventType handler now es).2)
  ∧ (∀ subscriptionId es, P es → P (unsubscribe subscriptionId es).2)
  ∧ (∀ eventType event es, P es → P (recordEvent eventType event es))
  ∧ (∀ sys error es, P es → P (logError sys error es)).






Lemma emit_S (fuel : nat) emitter eventType (data : Data) options now (h : Host)
    (es : EventSystem) :
  emit (S fuel) emitter eventType data options now h es =
  match filterTargetSubscriptions (default [] (omGet eventType (subscriptions es)))
          emitter options with
  | TheArray =>
      forEachLive (emit fuel) (eventOf emitter eventType data options now) eventType
        (S fuel) 0
        {| d_host := h;
           d_system := recordEvent eventType (eventOf emitter eventType data options now) es;
           d_calls := []; d_removed := [] |}
  | NewArray targetSubscriptions =>
      forEach (emit fuel) (eventOf emitter eventType data options now) targetSubscriptions
        {| d_host := h;
           d_system := recordEvent eventType (eventOf emitter eventType data options now) es;
           d_calls := []; d_removed := [] |}
  end.
Proof. reflexivity. Qed.


(** ** The bound does not matter *)







(** ** Reachable event systems *)

(** The states of the class: a new event system, and what a call of
    [subscribe], [unsubscribe] or [clear] or a step of [emit] makes of a
    reachable one. The steps of [emit] are the event put into the history
    and a thrown value logged, next to the calls its handlers make; with
    them the states in the middle of a delivery, at which the handlers make
    their calls, are reachable as well as the state in which [emit] comes
    back. *)
Inductive reachableES : EventSystem → Prop :=
| es_reach_new : reachableES Events.new
| es_reach_subscribe sys eventType (handler : EventHandler) now es :
    reachableES es → reachableES (subscribe sys eventType handler now es).2
| es_reach_unsubscribe subscriptionId es :
    reachableES es → reachableES (unsubscribe subscriptionId es).2
| es_reach_record eventType event es :
    reachableES es → reachableES (recordEvent eventType event es)
| es_reach_log sys error es :
    reachableES es → reachableES (logError sys error es)
| es_reach_clear es :
    reachableES es → reachableES (Events.clear es).



Lemma reachableES_keeps (P : EventSystem → Prop) :
  stepInvariant P → P Events.new → (∀ es, P es → P (Events.clear es)) →
  ∀ es, reachableES es → P es.
Proof.
  intros Hstep Hnew Hclear.
  induction 1 as [|sys eventType handler now es _ IH|subscriptionId es _ IH
                 |eventType event es _ IH|sys error es _ IH|es _ IH].
  - exact Hnew.
  - by apply Hstep.
  - by apply Hstep.
  - by apply Hstep.
  - by apply Hstep.
  - by apply Hclear.
Qed.

(** Every subscription carries an id [sub_k] issued below the counter, and
    no list of subscriptions holds an id twice. *)
Definition issued (next : Z) (sub : EventSubscription) : Prop :=
  ∃ k, sub_id sub = "sub_" +:+ pretty k ∧ k < next.
Definition ids_fresh (es : EventSystem) : Prop :=
  Forall (λ entry : string * list EventSubscription,
            NoDup (sub_id <$> entry.2) ∧ Forall (issued (nextSubscriptionId es)) entry.2)
         (subscriptions es).

Lemma Forall_omSet {V} (P : string * V → Prop) k v (m : OrderedMap V) :
  Forall P m → P (k, v) → Forall P (omSet k v m).
Proof.
  intros Hm Hv. induction Hm as [|[k' v'] m Hx Hm IH]; cbn.
  - by constructor.
  - destruct (decide (k' = k)); constructor; done.
Qed.

Lemma Forall_omDelete {V} (P : string * V → Prop) k (m : OrderedMap V) :
  Forall P m → Forall P (omDelete k m).
Proof.
  intros Hm. induction Hm as [|[k' v'] m Hx Hm IH]; cbn; [constructor|].
  destruct (decide (k' = k)); [done|by constructor].
Qed.

Lemma Forall_omGet {V} (P : string * V → Prop) k v (m : OrderedMap V) :
  Forall P m → omGet k m = Some v → P (k, v).
Proof.
  intros Hm Hget. apply omGet_Some_elem in Hget.
  by apply (proj1 (Forall_forall P m) Hm).
Qed.

Lemma issued_mono next next' (sub : EventSubscription) :
  next ≤ next' → issued next sub → issued next' sub.
Proof. intros Hle (k & Hk & Hlt). exists k. split; [done|lia]. Qed.

Lemma ids_fresh_step : stepInvariant ids_fresh.
Proof.
  unfold stepInvariant, ids_fresh. split_and!.
  - intros sys eventType handler now es IH.
    cbn. apply Forall_omSet.
    + eapply Forall_impl; [exact IH|]. intros [k subs] [Hnd Hiss]; cbn in *.
      split; [done|]. eapply Forall_impl; [exact Hiss|].
      intros sub. apply issued_mono. lia.
    + cbn. destruct (omGet eventType (subscriptions es)) as [subs|] eqn:Hget; cbn.
      * destruct (Forall_omGet _ _ _ _ IH Hget) as [Hnd Hiss]; cbn in *.
        split.
        -- rewrite fmap_app. apply NoDup_app. split_and!; [done| |apply NoDup_singleton].
           intros i Hi. cbn. rewrite list_elem_of_singleton. intros ->.
           apply list_elem_of_fmap in Hi as (sub & Hid & Hsub).
           apply (proj1 (Forall_forall _ _) Hiss) in Hsub as (k & Hk & Hlt).
           rewrite Hk in Hid. apply (inj (String.app _)) in Hid.
           apply (inj pretty) in Hid. lia.
        -- apply Forall_app. split.
           ++ eapply Forall_impl; [exact Hiss|]. intros sub. apply issued_mono. lia.
           ++ constructor; [|constructor]. eexists. split; [reflexivity|lia].
      * split; [apply NoDup_singleton|].
        constructor; [|constructor]. eexists. split; [reflexivity|lia].
  - intros subscriptionId es IH. unfold unsubscribe.
    destruct (findSubscription subscriptionId (subscriptions es))
      as [[[eventType index] sub]|]; [|exact IH].
    cbn.
    assert (NoDup (sub_id <$> delete index (default [] (omGet eventType (subscriptions es))))
            ∧ Forall (issued (nextSubscriptionId es))
                (delete index (default [] (omGet eventType (subscriptions es))))) as Hrem.
    { destruct (omGet eventType (subscriptions es)) as [subs|] eqn:Hget; cbn.
      - destruct (Forall_omGet _ _ _ _ IH Hget) as [Hnd Hiss]; cbn in *. split.
        + rewrite list_fmap_delete. eapply sublist_NoDup; [exact Hnd|apply sublist_delete].
        + apply Forall_forall. intros x Hx.
          apply (proj1 (Forall_forall _ _) Hiss).
          eapply elem_of_sublist; [exact Hx|apply sublist_delete].
      - split; [constructor|constructor]. }
    destruct (delete index (default [] (omGet eventType (subscriptions es)))) eqn:Hdel.
    + by apply Forall_omDelete.
    + by apply Forall_omSet.
  - intros eventType event es IH. exact IH.
  - intros sys error es IH. exact IH.
Qed.

Lemma reachableES_ids_fresh es : reachableES es → ids_fresh es.
Proof.
  revert es. apply reachableES_keeps.
  - apply ids_fresh_step.
  - constructor.
  - intros. constructor.
Qed.

(** ** How a delivery goes on *)

(** The subscriptions of an event type, in subscription order. *)
Definition subscribersOf (es : EventSystem) (eventType : string)
  : list EventSubscription :=
  default [] (omGet eventType (subscriptions es)).

(** The loops only add to the calls and to the removals. *)
Lemma forEach_extends (nested : Emit) event (targets : list EventSubscription) :
  ∀ d d', forEach nested event targets d = Some d' →
    d_calls d `prefix_of` d_calls d' ∧ d_removed d `prefix_of` d_removed d'.
Proof.
  induction targets as [|subscription rest IH]; intros d d' Hfor; cbn in Hfor.
  - by injection Hfor as <-.
  - destruct (invoke nested event subscription _ _) as [ran|]; [|done].
    destruct (IH _ _ Hfor) as [Hc Hr]. cbn in Hc, Hr. split.
    + etrans; [|exact Hc]. by apply prefix_app_r.
    + etrans; [|exact Hr]. by apply prefix_app_r.
Qed.

Lemma forEachLive_extends (nested : Emit) event eventType (turns : nat) :
  ∀ index d d', forEachLive nested event eventType turns index d = Some d' →
    d_calls d `prefix_of` d_calls d' ∧ d_removed d `prefix_of` d_removed d'.
Proof.
  induction turns as [|turns IH]; intros index d d' Hfor; cbn in Hfor; [done|].
  destruct (default [] _ !! index) as [subscription|]; [|by injection Hfor as <-].
  destruct (invoke nested event subscription _ _) as [ran|]; [|done].
  destruct (arrayDropped eventType (r_removed ran)).
  - injection Hfor as <-. cbn. split; by apply prefix_app_r.
  - destruct (IH _ _ _ Hfor) as [Hc Hr]. cbn in Hc, Hr. split.
    + etrans; [|exact Hc]. by apply prefix_app_r.
    + etrans; [|exact Hr]. by apply prefix_app_r.
Qed.

(** *** Logged errors *)







(** *** The calls of the loop over a new array *)


(** *** The calls of the loop over the array of the map *)














(** *** Exactly once *)



(** *** Calls that come back *)

(** A handler call that does not emit. *)
Inductive emitFree : Action → Prop :=
| emitFree_Return : emitFree Return
| emitFree_Throw error : emitFree (Throw error)
| emitFree_ReadHost k : (∀ h, emitFree (k h)) → emitFree (ReadHost k)
| emitFree_WriteHost h k : emitFree k → emitFree (WriteHost h k)
| emitFree_CallSubscribe sys eventType handler now k :
    (∀ subscriptionId, emitFree (k subscriptionId)) →
    emitFree (CallSubscribe sys eventType handler now k)
| emitFree_CallUnsubscribe subscriptionId k :
    (∀ found, emitFree (k found)) → emitFree (CallUnsubscribe subscriptionId k).


Lemma run_emitFree (nested : Emit) (action : Action) :
  emitFree action →
  ∀ h es, ∃ ran, run nested action h es = Some ran
                 ∧ eventHistory (r_system ran) = eventHistory es
                 ∧ maxEventHistory (r_system ran) = maxEventHistory es.
Proof.
  induction 1 as [|error|k _ IH|h' k _ IH|sys eventType handler now k _ IH
                 |subscriptionId k _ IH]; intros h es;
    cbn -[subscribe unsubscribe removalOf].
  - by eexists.
  - by eexists.
  - apply IH.
  - apply IH.
  - destruct (IH (subscribe sys eventType handler now es).1 h
                (subscribe sys eventType handler now es).2) as (ran & -> & Hh & Hm).
    by exists ran.
  - destruct (IH (unsubscribe subscriptionId es).1 h (unsubscribe subscriptionId es).2)
      as (ran & -> & Hh & Hm).
    eexists. split; [reflexivity|]. cbn -[unsubscribe]. rewrite Hh, Hm. unfold unsubscribe.
    by destruct (findSubscription subscriptionId (subscriptions es)) as [[[? ?] ?]|].
Qed.


Lemma forEach_returns (nested : Emit) event (targets : list EventSubscription) :
  Forall (λ sub, emitFree (sub_handler sub event)) targets →
  ∀ d, is_Some (forEach nested event targets d).
Proof.
  induction 1 as [|subscription rest Hfree _ IH]; intros d; cbn; [by eexists|].
  unfold invoke.
  destruct (run_emitFree nested _ Hfree (d_host d) (d_system d)) as (ran & -> & _).
  apply IH.
Qed.



(** The delivery loop runs over the array of the map itself, not over a
    copy of it: the broadcast flag is set and no target list applies. *)
Definition overLiveArray (options : EmitOptions) : Prop :=
  default false (broadcast options) = true
  ∧ (targetSystems options = None ∨ targetSystems options = Some []).


End EventProperties.

(** Three subscribers of a topic; the handler of [B] throws. *)
Definition threeSubscribers : Events.EventSystem unit string unit :=
  (Events.subscribe "C" "tick" (λ _, Events.Return) 3
     (Events.subscribe "B" "tick" (λ _, Events.Throw "boom") 2
        (Events.subscribe "A" "tick" (λ _, Events.Return) 1 Events.new).2).2).2.

Lemma threeSubscribers_reachable : reachableES threeSubscribers.
Proof. repeat apply es_reach_subscribe. apply es_reach_new. Qed.

(** The same three subscribers, the handler of [B] now busy: it unsubscribes
    [C], subscribes a system [D] and then throws. *)
Definition busySubscribers : Events.EventSystem unit string unit :=
  (Events.subscribe "C" "tick" (λ _, Events.Return) 3
     (Events.subscribe "B" "tick"
        (λ _, Events.CallUnsubscribe "sub_3" (λ _,
                Events.CallSubscribe "D" "tick" (λ _, Events.Return) 5 (λ _,
                  Events.Throw "boom"))) 2
        (Events.subscribe "A" "tick" (λ _, Events.Return) 1 Events.new).2).2).2.

Lemma busySubscribers_reachable : reachableES busySubscribers.
Proof. repeat apply es_reach_subscribe. apply es_reach_new. Qed.




(** * Further properties of the gas tracker *)

Section GasLedger.
Import Gas.

(** The calls a tick makes, one after the other; the first throw ends it. *)
Fixpoint consumeAll (calls : list (Operation * option Z))
  : Exec GasTracker Gas.Error unit :=
  match calls with
  | [] => ret tt
  | (operation, amount) :: rest =>
      (consumeGas operation amount ;; consumeAll rest)%exec
  end.

(** The sum of the tariffs of a list of calls under a configuration. *)
Definition totalTariff (cfg : GasConfig) (calls : list (Operation * option Z)) : Z :=
  foldr (λ c acc, tariff cfg c.1 c.2 + acc) 0 calls.

Definition with_gasUsed (t : GasTracker) (u : Z) : GasTracker :=
  {| gasUsed := u; config := config t |}.

Lemma consumeAll_config calls t : config (consumeAll calls t).2 = config t.
Proof.
  revert t. induction calls as [|[operation amount] rest IH]; intros t; cbn; [done|].
  unfold bind, consumeGas. cbn.
  destruct (bool_decide _); cbn; [done|]. by rewrite IH.
Qed.

(** [canAfford] answers what [consumeGas] would do: it is [true] exactly
    when the same call returns normally, and a call that returns leaves the
    ledger within the budget while a call that throws leaves it above. *)
Theorem canAfford_predicts_consumeGas (t : GasTracker) (operation : Operation)
    (amount : option Z) :
  (canAfford t operation amount = true ↔
     returned (consumeGas operation amount t).1 = true)
  ∧ (returned (consumeGas operation amount t).1 = true →
       gasUsed (consumeGas operation amount t).2 ≤ maxGas (config t))
  ∧ (returned (consumeGas operation amount t).1 = false →
       gasUsed (consumeGas operation amount t).2 > maxGas (config t))
  ∧ gasUsed (consumeGas operation amount t).2
      = gasUsed t + tariff (config t) operation amount.
Proof.
  unfold canAfford, consumeGas. cbn.
  destruct (bool_decide (gasUsed t + tariff (config t) operation amount
                           > maxGas (config t))) eqn:Hgt;
    destruct (bool_decide (gasUsed t + tariff (config t) operation amount
                             ≤ maxGas (config t))) eqn:Hle; cbn;
    try apply bool_decide_eq_true in Hgt; try apply bool_decide_eq_false in Hgt;
    try apply bool_decide_eq_true in Hle; try apply bool_decide_eq_false in Hle;
    split_and!; try done; try lia; intros; lia.
Qed.

(** The cost model is closed-form. From a ledger within its budget, when
    no tariff of the calls is negative,
    the run returns exactly when the ledger plus the sum of the tariffs stays
    within the budget, and the ledger then has advanced by that sum; when the
    sum does not fit, the run throws and the ledger is left above the budget
    but not above what all the calls would have cost. *)
Theorem consumeAll_closed_form (calls : list (Operation * option Z)) (t : GasTracker) :
  gasUsed t ≤ maxGas (config t) →
  Forall (λ c, 0 ≤ tariff (config t) c.1 c.2) calls →
  let total := totalTariff (config t) calls in
  (gasUsed t + total ≤ maxGas (config t) →
     consumeAll calls t = (Returned tt, with_gasUsed t (gasUsed t + total)))
  ∧ (gasUsed t + total > maxGas (config t) →
     returned (consumeAll calls t).1 = false
     ∧ maxGas (config t) < gasUsed (consumeAll calls t).2 ≤ gasUsed t + total).
Proof.
  revert t. induction calls as [|[operation amount] rest IH]; intros t Hin Hnn; cbn zeta.
  - cbn. split.
    + intros _. destruct t as [u c]. unfold with_gasUsed. cbn. do 2 f_equal. lia.
    + intros H. lia.
  - apply Forall_cons in Hnn as [Hc Hrest]. cbn in Hc.
    cbn [consumeAll totalTariff foldr fst snd].
    fold (totalTariff (config t) rest).
    assert (0 ≤ totalTariff (config t) rest) as Htot.
    { clear -Hrest. induction Hrest as [|c l Hc _ IHl]; cbn; [lia|].
      fold (totalTariff (config t) l). lia. }
    unfold bind at 1. unfold consumeGas at 1. cbn.
    set (t1 := {| gasUsed := gasUsed t + tariff (config t) operation amount;
                  config := config t |}).
    unfold bind. unfold consumeGas. cbn. fold t1.
    case_bool_decide as Hgt.
    + split; [intros; lia|]. intros _. cbn. split; [done|lia].
    + destruct (IH t1 ltac:(cbn; lia) Hrest) as [IHok IHthrow].
      cbn in IHok, IHthrow. split.
      * intros Hle. rewrite IHok by lia. unfold with_gasUsed. cbn.
        do 2 f_equal. lia.
      * intros Hover. destruct IHthrow as [Hret Hbound]; [lia|].
        split; [done|]. lia.
Qed.

Lemma consumeAll_closed_form_witness :
  let t := new DEFAULT_GAS_CONFIG in
  let calls := [(OpEntityCreate, None); (OpAddComponent, None); (OpEventEmit, Some 100)] in
  consumeAll calls t = (Returned tt, with_gasUsed t 108).
Proof.
  intros t calls.
  apply (proj1 (consumeAll_closed_form calls t
                  ltac:(cbn; lia) ltac:(repeat constructor; cbn; lia))).
  cbn. lia.
Defined.

(** Exhaustion is sticky. Once the ledger is above the budget, every further
    call with a non-negative tariff throws, [canAfford] answers [false] and
    no gas remains, until [reset] brings the ledger back to zero. *)
Theorem exhausted_until_reset (t : GasTracker) (operation : Operation)
    (amount : option Z) :
  gasUsed t > maxGas (config t) →
  0 ≤ tariff (config t) operation amount →
  returned (consumeGas operation amount t).1 = false
  ∧ canAfford t operation amount = false
  ∧ getRemainingGas t = 0
  ∧ gasUsed (consumeGas operation amount t).2 > maxGas (config t)
  ∧ reset t = new (config t).
Proof.
  intros Hover Hnn. unfold consumeGas, canAfford, getRemainingGas, reset, new. cbn.
  rewrite bool_decide_eq_true_2 by lia. cbn.
  rewrite bool_decide_eq_false_2 by lia.
  split_and!; try done; lia.
Qed.

Lemma exhausted_until_reset_witness :
  let t := (consumeGas OpCrossSystemCall None
              (new {| maxGas := 10; gasCosts := gasCosts DEFAULT_GAS_CONFIG |})).2 in
  returned (consumeGas OpIteration None t).1 = false
  ∧ canAfford t OpIteration None = false
  ∧ getRemainingGas t = 0
  ∧ gasUsed (consumeGas OpIteration None t).2 > maxGas (config t)
  ∧ reset t = new (config t).
Proof.
  intros t. apply (exhausted_until_reset t OpIteration None);
    vm_compute; first [reflexivity | discriminate].
Defined.

End GasLedger.

(** * Further properties of entity access control *)

Section AccessControlEffects.
Import AccessControl.

(** [getSystemEntityCount(systemId)] *)
Definition getSystemEntityCount (ac : EntityAccessControl) (systemId : SystemId) : Z :=
  default 0 (systemEntityCounts ac !! systemId).

Lemma elem_of_unionPermissions (existing new : list Permission) (p : Permission) :
  p ∈ unionPermissions existing new ↔ p ∈ existing ∨ p ∈ new.
Proof.
  unfold unionPermissions. revert existing.
  induction new as [|q new IH]; intros existing; cbn.
  - rewrite elem_of_nil. tauto.
  - rewrite IH, elem_of_pushIfAbsent, elem_of_cons. tauto.
Qed.

Lemma hasPermission_lookup ac e o P p :
  entityOwnership ac !! id e = Some o →
  hasPermission ac e P p = true ↔ owner o = P ∨ (P ∈ delegates o ∧ p ∈ permissions o).
Proof.
  intros Hget. unfold hasPermission. rewrite Hget.
  destruct (decide (owner o = P)) as [Ho|Ho]; [tauto|].
  destruct (includes P (delegates o)) eqn:Hd.
  - apply includes_true in Hd. rewrite includes_true. tauto.
  - apply includes_false in Hd. split; [done|]. tauto.
Qed.

(** A grant is made to the entity, not to the grantee. After a permitted
    [grantAccess] the target is a delegate of the entity and the entity's
    permission set is the union of the old set and the granted permissions;
    its owner and creator stay. Every delegate of the entity, old or new, then
    passes exactly the checks for the permissions of that union: the target
    also receives what the set held before, and the earlier delegates also
    receive what was granted now. Of every other record, owner, delegates
    and creator stay as they are; nothing is said of the permission sets of
    the other records. *)
Theorem grantAccess_effect (ac : EntityAccessControl) (E : Entity)
    (o : EntityOwnership) (granter target : SystemId) (perms : list Permission) :
  getOwnership ac E = Some o →
  owner o = granter ∨ (granter ∈ delegates o ∧ DELEGATE ∈ permissions o) →
  ∃ ac' o',
    grantAccess E granter target perms ac = (Returned tt, ac')
    ∧ getOwnership ac' E = Some o'
    ∧ owner o' = owner o
    ∧ createdBy o' = createdBy o
    ∧ (∀ D, D ∈ delegates o' ↔ D = target ∨ D ∈ delegates o)
    ∧ (∀ p, p ∈ permissions o' ↔ p ∈ permissions o ∨ p ∈ perms)
    ∧ (∀ D p, D ∈ delegates o' →
         hasPermission ac' E D p = true ↔
         D = owner o ∨ p ∈ permissions o ∨ p ∈ perms)
    ∧ (∀ i other, i ≠ id E → entityOwnership ac !! i = Some other →
         ∃ other', entityOwnership ac' !! i = Some other'
                   ∧ owner other' = owner other
                   ∧ delegates other' = delegates other
                   ∧ createdBy other' = createdBy other).
Proof.
  unfold getOwnership. intros Hget Hallowed.
  unfold grantAccess. rewrite Hget.
  assert (bool_decide (owner o ≠ granter) &&
          negb (includes granter (delegates o) && includes DELEGATE (permissions o))
          = false) as ->.
  { destruct Hallowed as [Ho|[Hd Hp]].
    - by rewrite bool_decide_eq_false_2 by (intros H; by apply H).
    - apply includes_true in Hd, Hp. rewrite Hd, Hp. cbn. apply andb_false_r. }
  eexists _, _. split; [reflexivity|].
  cbn. rewrite lookup_insert_eq. split; [reflexivity|]. cbn.
  split_and!; try done.
  - intros D. apply elem_of_pushIfAbsent.
  - intros p. apply elem_of_unionPermissions.
  - intros D p HD.
    rewrite (hasPermission_lookup _ E _ D p (lookup_insert_eq _ _ _)). cbn.
    rewrite elem_of_unionPermissions. split; [|intros [->|Hp]]; try tauto.
    + intros [<-|[_ Hp]]; tauto.
  - intros i other Hi Hother. exists other. by rewrite lookup_insert_ne.
Qed.

Lemma grantAccess_effect_witness :
  let e := mkEntity 7 0 in
  let ac := registerEntity e "A" (mkOptions None (Some [READ])) 0 empty in
  ∃ ac' o',
    grantAccess e "A" "D" [WRITE] ac = (Returned tt, ac')
    ∧ getOwnership ac' e = Some o'
    ∧ owner o' = "A"
    ∧ createdBy o' = "A"
    ∧ (∀ D, D ∈ delegates o' ↔ D = "D" ∨ D ∈ [])
    ∧ (∀ p, p ∈ permissions o' ↔ p ∈ [READ] ∨ p ∈ [WRITE])
    ∧ (∀ D p, D ∈ delegates o' →
         hasPermission ac' e D p = true ↔ D = "A" ∨ p ∈ [READ] ∨ p ∈ [WRITE])
    ∧ (∀ i other, i ≠ 7 → AccessControl.entityOwnership ac !! i = Some other →
         ∃ other', AccessControl.entityOwnership ac' !! i = Some other'
                   ∧ owner other' = owner other
                   ∧ delegates other' = delegates other
                   ∧ createdBy other' = createdBy other).
Proof.
  intros e ac.
  apply (grantAccess_effect ac e (mkOwnership "A" [READ] [] "A" 0) "A" "D" [WRITE]).
  - reflexivity.
  - left. reflexivity.
Defined.

(** An entity created without a [permissions] option starts with the
    permission set READ, WRITE, DELETE. Whatever its owner then grants to a
    system, even the empty list, that system passes the READ, WRITE and
    DELETE checks. *)
Theorem default_permissions_reach_every_delegate (ac : EntityAccessControl)
    (e : Entity) (S D : SystemId) (opts : CreateEntityOptions) (now : Z)
    (granted : list Permission) (p : Permission) :
  opt_permissions opts = None →
  p ∈ [READ; WRITE; DELETE] →
  let ac1 := registerEntity e S opts now ac in
  let O := orString (opt_owner opts) S in
  (grantAccess e O D granted ac1).1 = Returned tt
  ∧ hasPermission (grantAccess e O D granted ac1).2 e D p = true.
Proof.
  intros Hopts Hp ac1 O. subst ac1.
  unfold grantAccess, registerEntity. cbn. rewrite lookup_insert_eq. cbn.
  fold O. rewrite Hopts. cbn.
  rewrite bool_decide_eq_false_2 by (intros H; by apply H). cbn.
  split; [done|].
  unfold hasPermission. cbn. rewrite lookup_insert_eq. cbn.
  destruct (decide (O = D)); [done|].
  assert (includes D (pushIfAbsent D []) = true) as ->.
  { apply includes_true, elem_of_pushIfAbsent. by left. }
  apply includes_true, elem_of_unionPermissions. by left.
Qed.

Lemma default_permissions_reach_every_delegate_witness :
  let e := mkEntity 1 0 in
  let ac1 := registerEntity e "owner" noOptions 0 empty in
  (grantAccess e "owner" "reader" [READ] ac1).1 = Returned tt
  ∧ hasPermission (grantAccess e "owner" "reader" [READ] ac1).2 e "reader" WRITE = true.
Proof.
  intros e ac1.
  apply (default_permissions_reach_every_delegate empty e "owner" "reader"
           noOptions 0 [READ] WRITE).
  - reflexivity.
  - apply elem_of_cons. right. apply elem_of_cons. by left.
Defined.

(** Revocation removes the delegate and nothing else. After the owner's
    [revokeAccess] in a reachable table the target is no delegate any more
    and passes a check only if it is the owner; the permission set is not
    reduced, so every other system passes the same checks as before. *)
Theorem revokeAccess_effect (ac : EntityAccessControl) (E : Entity)
    (o : EntityOwnership) (A T : SystemId) :
  AccessControl.reachable ac →
  getOwnership ac E = Some o →
  owner o = A →
  ∃ ac' o',
    revokeAccess E A T ac = (Returned tt, ac')
    ∧ getOwnership ac' E = Some o'
    ∧ owner o' = A
    ∧ permissions o' = permissions o
    ∧ delegates o' = filter (λ x, x ≠ T) (delegates o)
    ∧ (∀ p, hasPermission ac' E T p = true ↔ T = A)
    ∧ (∀ D p, D ≠ T → hasPermission ac' E D p = hasPermission ac E D p)
    ∧ (∀ i, i ≠ id E → entityOwnership ac' !! i = entityOwnership ac !! i).
Proof.
  intros Hreach Hget Hown.
  pose proof (reachable_delegates_nodup _ Hreach _ _ Hget) as Hnd.
  unfold getOwnership in *. unfold revokeAccess. rewrite Hget.
  rewrite bool_decide_eq_false_2 by (intros H; by apply H).
  eexists _, _. split; [reflexivity|].
  cbn. rewrite lookup_insert_eq. split; [reflexivity|]. cbn.
  split_and!; try done.
  - by apply spliceOut_filter.
  - intros p.
    rewrite (hasPermission_lookup _ E _ T p (lookup_insert_eq _ _ _)). cbn.
    pose proof (not_elem_of_spliceOut T (delegates o) Hnd). split; [|intros ->; tauto].
    intros [?|[? _]]; [congruence|done].
  - intros D p HD. apply eq_true_iff_eq.
    rewrite (hasPermission_lookup _ E _ D p (lookup_insert_eq _ _ _)).
    rewrite (hasPermission_lookup _ E _ D p Hget). cbn.
    by rewrite elem_of_spliceOut_ne.
  - intros i Hi. by rewrite lookup_insert_ne.
Qed.

Lemma revokeAccess_effect_witness :
  let e := mkEntity 1 0 in
  let ac := (grantAccess e "A" "B" [EXECUTE] (registerEntity e "A" noOptions 0 empty)).2 in
  ∃ ac' o',
    revokeAccess e "A" "B" ac = (Returned tt, ac')
    ∧ getOwnership ac' e = Some o'
    ∧ owner o' = "A"
    ∧ permissions o' = [READ; WRITE; DELETE; EXECUTE]
    ∧ delegates o' = filter (λ x, x ≠ "B") ["B"]
    ∧ (∀ p, hasPermission ac' e "B" p = true ↔ "B" = "A")
    ∧ (∀ D p, D ≠ "B" → hasPermission ac' e D p = hasPermission ac e D p)
    ∧ (∀ i, i ≠ 1 → entityOwnership ac' !! i = entityOwnership ac !! i).
Proof.
  intros e ac.
  apply (revokeAccess_effect ac e
           (mkOwnership "A" [READ; WRITE; DELETE; EXECUTE] ["B"] "A" 0) "A" "B").
  - apply AccessControl.reach_grant, AccessControl.reach_register, AccessControl.reach_new.
  - reflexivity.
  - reflexivity.
Defined.

(** Registering an entity, also one that is registered already, installs a
    fresh record: only the resolved owner ([options.owner], or the creating
    system when that option is absent or the empty string) passes a check,
    there are no delegates, the creator is the registering system and its
    entity count goes up by one; the records of other entities stay. *)
Theorem registerEntity_effect (ac : EntityAccessControl) (e : Entity)
    (S : SystemId) (opts : CreateEntityOptions) (now : Z) :
  let ac' := registerEntity e S opts now ac in
  let newOwner := orString (opt_owner opts) S in
  (∀ P p, hasPermission ac' e P p = true ↔ P = newOwner)
  ∧ (opt_owner opts = None ∨ opt_owner opts = Some "" → newOwner = S)
  ∧ (createdBy <$> getOwnership ac' e) = Some S
  ∧ (delegates <$> getOwnership ac' e) = Some []
  ∧ getSystemEntityCount ac' S = getSystemEntityCount ac S + 1
  ∧ (∀ i, i ≠ id e → entityOwnership ac' !! i = entityOwnership ac !! i).
Proof.
  intros ac' newOwner. subst ac'. unfold getOwnership, getSystemEntityCount.
  cbn. rewrite !lookup_insert_eq. cbn. split_and!; try done.
  - intros P p.
    rewrite (hasPermission_lookup _ e _ P p (lookup_insert_eq _ _ _)). cbn.
    fold newOwner. rewrite elem_of_nil. split; [intros [?|[[] _]]; done|].
    intros ->. by left.
  - subst newOwner. by intros [-> | ->].
  - intros i Hi. by rewrite lookup_insert_ne.
Qed.

(** Entity counts never go below zero. *)
Definition counts_nonneg (ac : EntityAccessControl) : Prop :=
  ∀ s n, systemEntityCounts ac !! s = Some n → 0 ≤ n.

Lemma reachable_counts_nonneg ac : AccessControl.reachable ac → counts_nonneg ac.
Proof.
  induction 1 as [|e s opts now ac _ IH|e ac _ IH|e g t ps ac _ IH
                 |e r t ac _ IH|e c n ac _ IH|s ac _ IH|ac _ IH];
    intros s0 n0; cbn.
  - by rewrite lookup_empty.
  - destruct (decide (s = s0)) as [<-|Hne].
    + rewrite lookup_insert_eq. intros [= <-].
      destruct (systemEntityCounts ac !! s) as [c|] eqn:Hc; cbn; [|lia].
      specialize (IH _ _ Hc). lia.
    + rewrite lookup_insert_ne by done. apply IH.
  - unfold unregisterEntity. destruct (entityOwnership ac !! id e) as [o|]; [|apply IH].
    cbn. case_bool_decide as Hpos; [|apply IH].
    destruct (decide (createdBy o = s0)) as [<-|Hne].
    + rewrite lookup_insert_eq. intros [= <-]. lia.
    + rewrite lookup_insert_ne by done. apply IH.
  - unfold grantAccess. destruct (entityOwnership ac !! id e); [|apply IH].
    destruct (_ && _); apply IH.
  - unfold revokeAccess. destruct (entityOwnership ac !! id e); [|apply IH].
    destruct (bool_decide _); apply IH.
  - unfold transferOwnership. destruct (entityOwnership ac !! id e); [|apply IH].
    destruct (bool_decide _); apply IH.
  - destruct (decide (s = s0)) as [<-|Hne].
    + by rewrite lookup_delete_eq.
    + rewrite lookup_delete_ne by done. apply IH.
  - by rewrite lookup_empty.
Qed.

(** After [unregisterEntity] nobody passes a check on the entity, not even
    its former owner; the entity count of its creator goes down by one but
    never below zero, and no count of a reachable table is negative. *)
Theorem unregisterEntity_effect (ac : EntityAccessControl) (e : Entity) :
  AccessControl.reachable ac →
  let ac' := unregisterEntity e ac in
  (∀ P p, hasPermission ac' e P p = false)
  ∧ getOwnership ac' e = None
  ∧ (∀ i, i ≠ id e → entityOwnership ac' !! i = entityOwnership ac !! i)
  ∧ (∀ s, 0 ≤ getSystemEntityCount ac' s)
  ∧ (∀ o, getOwnership ac e = Some o →
       getSystemEntityCount ac' (createdBy o)
       = Z.max 0 (getSystemEntityCount ac (createdBy o) - 1))
  ∧ (getOwnership ac e = None → ac' = ac).
Proof.
  intros Hreach ac'.
  pose proof (reachable_counts_nonneg _ (AccessControl.reach_unregister e _ Hreach)) as Hnn'.
  pose proof (reachable_counts_nonneg _ Hreach) as Hnn.
  fold ac' in Hnn'.
  assert (getOwnership ac' e = None) as Hnone.
  { subst ac'. unfold getOwnership, unregisterEntity.
    destruct (entityOwnership ac !! id e) eqn:He; cbn; [|done].
    by rewrite lookup_delete_eq. }
  split_and!.
  - intros P p. unfold hasPermission. unfold getOwnership in Hnone. by rewrite Hnone.
  - done.
  - intros i Hi. subst ac'. unfold unregisterEntity.
    destruct (entityOwnership ac !! id e); cbn; [|done]. by rewrite lookup_delete_ne.
  - intros s. unfold getSystemEntityCount.
    destruct (systemEntityCounts ac' !! s) as [n|] eqn:Hs; cbn; [|lia].
    by eapply Hnn'.
  - unfold getOwnership. intros o Ho. subst ac'.
    unfold getSystemEntityCount, unregisterEntity. rewrite Ho. cbn.
    case_bool_decide as Hpos.
    + rewrite lookup_insert_eq. cbn. lia.
    + destruct (systemEntityCounts ac !! createdBy o) as [n|] eqn:Hc; cbn in *; [|lia].
      specialize (Hnn _ _ Hc). lia.
  - unfold getOwnership. intros Ho. subst ac'. unfold unregisterEntity. by rewrite Ho.
Qed.

Lemma unregisterEntity_effect_witness :
  let e := mkEntity 3 0 in
  let ac := registerEntity e "A" noOptions 0 empty in
  (∀ P p, hasPermission (unregisterEntity e ac) e P p = false)
  ∧ getSystemEntityCount (unregisterEntity e ac) "A" = 0.
Proof.
  intros e ac.
  destruct (unregisterEntity_effect ac e
              (AccessControl.reach_register e "A" noOptions 0 _ AccessControl.reach_new))
    as (H1 & _ & _ & _ & H5 & _).
  split; [exact H1|]. exact (H5 _ eq_refl).
Defined.

(** Removing a system from a reachable table leaves it with no access at
    all: every entity it owned or created is dropped (also one that another
    system owns by now), it is in no delegate list any more, so no check
    on any entity passes for it, and its entity count is forgotten. Entities
    it neither owned nor created keep owner, creator and permission set. *)
Theorem cleanupSystemEntities_effect (ac : EntityAccessControl) (S : SystemId) :
  AccessControl.reachable ac →
  let ac' := cleanupSystemEntities S ac in
  (∀ e p, hasPermission ac' e S p = false)
  ∧ (∀ e o, getOwnership ac e = Some o → owner o = S ∨ createdBy o = S →
       getOwnership ac' e = None)
  ∧ (∀ e o, getOwnership ac e = Some o → owner o ≠ S → createdBy o ≠ S →
       getOwnership ac' e =
         Some (set_delegates o (filter (λ x, x ≠ S) (delegates o))))
  ∧ (∀ e, getOwnership ac e = None → getOwnership ac' e = None)
  ∧ getSystemEntityCount ac' S = 0.
Proof.
  intros Hreach ac'.
  assert (∀ e o, getOwnership ac e = Some o → owner o ≠ S → createdBy o ≠ S →
            getOwnership ac' e =
              Some (set_delegates o (filter (λ x, x ≠ S) (delegates o)))) as Hkeep.
  { unfold getOwnership. intros e o Ho H1 H2. subst ac'. cbn.
    rewrite lookup_omap, Ho. cbn.
    rewrite bool_decide_eq_false_2 by tauto.
    rewrite spliceOut_filter; [done|].
    by eapply (reachable_delegates_nodup _ Hreach). }
  assert (∀ e o, getOwnership ac e = Some o → owner o = S ∨ createdBy o = S →
            getOwnership ac' e = None) as Hdrop.
  { unfold getOwnership. intros e o Ho H1. subst ac'. cbn.
    rewrite lookup_omap, Ho. cbn. by rewrite bool_decide_eq_true_2. }
  assert (∀ e, getOwnership ac e = None → getOwnership ac' e = None) as Hnone.
  { unfold getOwnership. intros e Ho. subst ac'. cbn. by rewrite lookup_omap, Ho. }
  split_and!; try done.
  - intros e p. destruct (getOwnership ac e) as [o|] eqn:Ho.
    + destruct (decide (owner o = S ∨ createdBy o = S)) as [Hd|Hd].
      * unfold hasPermission. specialize (Hdrop _ _ Ho Hd).
        unfold getOwnership in Hdrop. by rewrite Hdrop.
      * assert (owner o ≠ S ∧ createdBy o ≠ S) as [H1 H2] by tauto.
        specialize (Hkeep _ _ Ho H1 H2). unfold getOwnership in Hkeep.
        apply not_true_is_false. rewrite (hasPermission_lookup _ _ _ _ _ Hkeep). cbn.
        rewrite list_elem_of_filter. tauto.
    + unfold hasPermission. specialize (Hnone _ Ho).
      unfold getOwnership in Hnone. by rewrite Hnone.
  - subst ac'. unfold getSystemEntityCount. cbn. by rewrite lookup_delete_eq.
Qed.

Lemma cleanupSystemEntities_effect_witness :
  let e := mkEntity 1 0 in
  let ac := (transferOwnership e "A" "B" (registerEntity e "A" noOptions 0 empty)).2 in
  (owner <$> getOwnership ac e) = Some "B"
  ∧ getOwnership (cleanupSystemEntities "A" ac) e = None.
Proof.
  intros e ac. split; [reflexivity|].
  destruct (cleanupSystemEntities_effect ac "A"
              (AccessControl.reach_transfer e "A" "B" _
                 (AccessControl.reach_register e "A" noOptions 0 _ AccessControl.reach_new)))
    as (_ & Hdrop & _).
  apply (Hdrop e (mkOwnership "B" [READ; WRITE; DELETE] [] "A" 0)).
  - reflexivity.
  - right. reflexivity.
Defined.

End AccessControlEffects.

(** * Further properties of the event system *)

Lemma omGet_split {V} (k : string) (v : V) (m : OrderedMap V) :
  omGet k m = Some v →
  ∃ m1 m2, m = m1 ++ (k, v) :: m2
           ∧ omGet k m1 = None
           ∧ (∀ v', omSet k v' m = m1 ++ (k, v') :: m2)
           ∧ omDelete k m = m1 ++ m2.
Proof.
  induction m as [|[k0 v0] m IH]; cbn; [done|].
  destruct (decide (k0 = k)) as [->|Hne].
  - intros [= ->]. by exists [], m.
  - intros Hget. destruct (IH Hget) as (m1 & m2 & Hm & Hnone & Hset & Hdel).
    exists ((k0, v0) :: m1), m2.
    split_and!; cbn.
    + by rewrite Hm.
    + by rewrite decide_False.
    + intros v'. by rewrite Hset.
    + by rewrite Hdel.
Qed.

Section EventEffects.
Import Events.
Context {Data Exn Host : Type}.
Abbreviation SystemEvent := (Events.SystemEvent Data).
Abbreviation Action := (Events.Action Data Exn Host).
Abbreviation EventSystem := (Events.EventSystem Data Exn Host).
Abbreviation EventSubscription := (Events.EventSubscription Data Exn Host).
Abbreviation EventHandler := (Events.EventHandler Data Exn Host).
Abbreviation Ran := (Events.Ran Data Exn Host).
Abbreviation Delivery := (Events.Delivery Data Exn Host).
Abbreviation Emit := (Events.Emit Data Exn Host).

(** All subscriptions of all topics, in iteration order. *)
Definition allSubscriptions (es : EventSystem) : list EventSubscription :=
  mjoin (omValues (subscriptions es)).

Lemma elem_of_allSubscriptions es topic subs sub :
  omGet topic (subscriptions es) = Some subs → sub ∈ subs → sub ∈ allSubscriptions es.
Proof.
  intros Hget Hin. unfold allSubscriptions, omValues.
  apply list_elem_of_join. exists subs. split; [done|].
  apply list_elem_of_fmap. exists (topic, subs). split; [done|].
  by apply omGet_Some_elem.
Qed.

Lemma allSubscriptions_issued es :
  ids_fresh es → Forall (issued (nextSubscriptionId es)) (allSubscriptions es).
Proof.
  unfold ids_fresh, allSubscriptions, omValues.
  induction 1 as [|[k subs] m [_ Hiss] _ IH]; cbn; [constructor|].
  apply Forall_app. by split.
Qed.

Lemma NoDup_insert_middle {A} (a l b : list A) (x : A) :
  NoDup (a ++ l ++ b) → x ∉ a ++ l ++ b → NoDup (a ++ (l ++ [x]) ++ b).
Proof.
  intros Hnd Hx.
  assert (a ++ (l ++ [x]) ++ b ≡ₚ x :: a ++ l ++ b) as ->.
  { rewrite <-(app_assoc l [x] b). cbn. rewrite (app_assoc a l (x :: b)).
    rewrite <-Permutation_middle. by rewrite <-app_assoc. }
  by apply NoDup_cons.
Qed.

Lemma ids_of_split (m1 m2 : OrderedMap (list EventSubscription)) k l :
  sub_id <$> mjoin (m1 ++ (k, l) :: m2).*2
  = (sub_id <$> mjoin m1.*2) ++ (sub_id <$> l) ++ (sub_id <$> mjoin m2.*2).
Proof.
  rewrite fmap_app, join_app, fmap_app. cbn. by rewrite fmap_app.
Qed.

Lemma ids_of_app (m1 m2 : OrderedMap (list EventSubscription)) :
  sub_id <$> mjoin (m1 ++ m2).*2
  = (sub_id <$> mjoin m1.*2) ++ (sub_id <$> mjoin m2.*2).
Proof. by rewrite fmap_app, join_app, fmap_app. Qed.

Lemma omGet_Some_key {V} k (v : V) (m : OrderedMap V) :
  omGet k m = Some v → k ∈ m.*1.
Proof.
  intros H. apply omGet_Some_elem in H. apply list_elem_of_fmap. by exists (k, v).
Qed.

Lemma keys_omSet {V} k (v : V) (m : OrderedMap V) :
  NoDup m.*1 → NoDup (omSet k v m).*1.
Proof.
  intros Hnd. destruct (omGet k m) as [v0|] eqn:Hget.
  - destruct (omGet_split _ _ _ Hget) as (m1 & m2 & Hm & _ & Hset & _).
    rewrite Hset. rewrite Hm in Hnd. by rewrite fmap_app, fmap_cons in *.
  - rewrite (omSet_fresh _ _ _ Hget), fmap_app. cbn.
    apply NoDup_app. split_and!; [done| |apply NoDup_singleton].
    intros k' Hk'. rewrite list_elem_of_singleton. intros ->.
    apply list_elem_of_fmap in Hk' as ([k0 v0] & -> & Hin). cbn in *.
    by apply (omGet_None_elem _ v0) in Hget.
Qed.

Lemma keys_omDelete {V} k (m : OrderedMap V) :
  NoDup m.*1 → NoDup (omDelete k m).*1.
Proof.
  intros Hnd. destruct (omGet k m) as [v0|] eqn:Hget.
  - destruct (omGet_split _ _ _ Hget) as (m1 & m2 & Hm & _ & _ & Hdel).
    rewrite Hdel. rewrite Hm in Hnd. rewrite fmap_app, fmap_cons in Hnd.
    rewrite fmap_app.
    apply NoDup_app in Hnd as (H1 & H2 & H3). apply NoDup_cons in H3 as [H3 H4].
    apply NoDup_app. split_and!; [done| |done].
    intros x Hx Hx2. apply (H2 x Hx). apply elem_of_cons. by right.
  - assert (omDelete k m = m) as ->; [|done].
    clear Hnd. induction m as [|[k0 v0] m IH]; cbn in *; [done|].
    destruct (decide (k0 = k)); [done|]. by rewrite IH.
Qed.

Lemma findSubscription_Some subscriptionId (m : OrderedMap (list EventSubscription))
    eventType index sub :
  NoDup m.*1 →
  findSubscription subscriptionId m = Some (eventType, index, sub) →
  ∃ subs, omGet eventType m = Some subs
          ∧ subs !! index = Some sub
          ∧ sub_id sub = subscriptionId.
Proof.
  induction m as [|[k l] m IHm]; cbn; [done|].
  intros Hnd. apply NoDup_cons in Hnd as [Hk Hnd].
  destruct (list_find _ l) as [[i s]|] eqn:Hl.
  - intros [= <- <- <-]. rewrite decide_True by done.
    apply list_find_Some in Hl as (Hi & Hs & _). eauto.
  - intros Hfind. destruct (IHm Hnd Hfind) as (subs & Hget & Hidx & Hid).
    destruct (decide (k = eventType)) as [->|Hne]; [|eauto].
    exfalso. apply Hk. by eapply omGet_Some_key.
Qed.

Lemma findSubscription_None subscriptionId (m : OrderedMap (list EventSubscription)) :
  findSubscription subscriptionId m = None ↔
  subscriptionId ∉ sub_id <$> mjoin m.*2.
Proof.
  induction m as [|[k l] m IHm]; cbn.
  - split; [intros _; apply not_elem_of_nil|done].
  - rewrite fmap_app, elem_of_app.
    destruct (list_find _ l) as [[i s]|] eqn:Hl.
    + apply list_find_Some in Hl as (Hi & Hs & _). split; [done|].
      intros Hnot. exfalso. apply Hnot. left.
      apply list_elem_of_fmap. exists s. split; [done|].
      by eapply list_elem_of_lookup_2.
    + rewrite IHm. apply list_find_None in Hl.
      split.
      * intros Hm [Hin|Hin]; [|done].
        apply list_elem_of_fmap in Hin as (s & Hid & Hs).
        by apply (proj1 (Forall_forall _ _) Hl s Hs).
      * tauto.
Qed.

Lemma keys_unique_step :
  stepInvariant (λ es : EventSystem, NoDup (subscriptions es).*1).
Proof.
  unfold stepInvariant. split_and!; try done.
  - intros sys eventType handler now es IH. cbn. by apply keys_omSet.
  - intros subscriptionId es IH. unfold unsubscribe.
    destruct (findSubscription subscriptionId (subscriptions es))
      as [[[eventType index] sub]|]; [|exact IH].
    cbn. destruct (delete index _); [by apply keys_omDelete|by apply keys_omSet].
Qed.

Lemma reachableES_keys_unique (es : EventSystem) :
  reachableES es → NoDup (subscriptions es).*1.
Proof.
  revert es. apply (reachableES_keeps (λ es, NoDup (subscriptions es).*1)).
  - apply keys_unique_step.
  - constructor.
  - intros. constructor.
Qed.

(** No subscription id is held twice, in whatever topics; stated with the
    two facts it rests on. *)
Definition ids_unique (es : EventSystem) : Prop :=
  ids_fresh es
  ∧ NoDup (subscriptions es).*1
  ∧ NoDup (sub_id <$> allSubscriptions es).

Lemma ids_unique_step : stepInvariant ids_unique.
Proof.
  pose proof (ids_fresh_step (Data := Data) (Exn := Exn) (Host := Host))
    as (F1 & F2 & _ & _).
  pose proof keys_unique_step as (K1 & K2 & _ & _).
  unfold stepInvariant, ids_unique. split_and!.
  - intros sys eventType handler now es (Hfresh & Hkeys & IH).
    split; [by apply F1|]. split; [by apply K1|].
    pose proof (allSubscriptions_issued _ Hfresh) as Hiss.
    assert ("sub_" +:+ pretty (nextSubscriptionId es) ∉ sub_id <$> allSubscriptions es)
      as Hnew.
    { intros Hin. apply list_elem_of_fmap in Hin as (sub & Heq & Hin).
      apply (proj1 (Forall_forall _ _) Hiss) in Hin as (k & Hk & Hlt).
      rewrite Hk in Heq. apply (inj (String.app _)) in Heq.
      apply (inj pretty) in Heq. lia. }
    unfold allSubscriptions, omValues in *. cbn.
    destruct (omGet eventType (subscriptions es)) as [subs|] eqn:Hget; cbn.
    + destruct (omGet_split _ _ _ Hget) as (m1 & m2 & Hm & _ & Hset & _).
      rewrite Hset, ids_of_split, fmap_app. cbn.
      rewrite Hm, ids_of_split in IH, Hnew.
      by apply NoDup_insert_middle.
    + rewrite (omSet_fresh _ _ _ Hget), ids_of_app. cbn.
      apply NoDup_app. split_and!; [done| |apply NoDup_singleton].
      intros i Hi. rewrite list_elem_of_singleton. by intros ->.
  - intros subscriptionId es (Hfresh & Hkeys & IH).
    split; [by apply F2|]. split; [by apply K2|].
    unfold unsubscribe.
    destruct (findSubscription subscriptionId (subscriptions es))
      as [[[eventType index] sub]|] eqn:Hfind; [|exact IH].
    destruct (findSubscription_Some _ _ _ _ _ Hkeys Hfind) as (subs & Hget & _ & _).
    unfold allSubscriptions, omValues in *. cbn. rewrite Hget. cbn.
    destruct (omGet_split _ _ _ Hget) as (m1 & m2 & Hm & _ & Hset & Hdel).
    rewrite Hm, ids_of_split in IH.
    assert (NoDup ((sub_id <$> mjoin m1.*2) ++ (sub_id <$> delete index subs)
                   ++ (sub_id <$> mjoin m2.*2))) as Hnd.
    { eapply sublist_NoDup; [exact IH|].
      apply sublist_app; [done|].
      apply sublist_app; [|done]. apply fmap_sublist, sublist_delete. }
    destruct (delete index subs) eqn:Hd.
    + rewrite Hdel, ids_of_app. by cbn in Hnd.
    + by rewrite Hset, ids_of_split.
  - intros eventType event es H. exact H.
  - intros sys error es H. exact H.
Qed.

(** No subscription id is held twice, in whatever topics. *)
Lemma reachableES_ids_unique (es : EventSystem) :
  reachableES es → NoDup (sub_id <$> allSubscriptions es).
Proof.
  intros Hreach. apply (reachableES_keeps ids_unique); [| | |exact Hreach].
  - apply ids_unique_step.
  - split_and!; constructor.
  - intros. split_and!; constructor.
Qed.

Lemma not_elem_of_delete_NoDup {A} (l : list A) (i : nat) (x : A) :
  NoDup l → l !! i = Some x → x ∉ delete i l.
Proof.
  intros Hnd Hi. rewrite delete_take_drop.
  rewrite <-(take_drop_middle l i x Hi) in Hnd.
  apply NoDup_app in Hnd as (_ & H1 & H2). apply NoDup_cons in H2 as [H2 _].
  rewrite elem_of_app. intros [Hin|Hin]; [|done].
  apply (H1 x Hin). apply elem_of_cons. by left.
Qed.

Lemma elem_of_delete_other {A} (l : list A) (i : nat) (x y : A) :
  l !! i = Some y → x ∈ l → x ≠ y → x ∈ delete i l.
Proof.
  intros Hi Hin Hne. rewrite delete_take_drop.
  rewrite <-(take_drop_middle l i y Hi) in Hin.
  rewrite elem_of_app, elem_of_cons in Hin. rewrite elem_of_app. tauto.
Qed.

(** [subscribe] hands out an id that no subscription of a reachable event
    system carries, in whatever topic; the new subscription comes last among
    the subscribers of its topic and the other topics are not touched. *)
Theorem subscribe_effect (es : EventSystem) (sys : SystemId) (topic : string)
    (handler : EventHandler) (now : Z) :
  reachableES es →
  let r := subscribe sys topic handler now es in
  r.1 = "sub_" +:+ pretty (nextSubscriptionId es)
  ∧ (r.1 ∉ sub_id <$> allSubscriptions es)
  ∧ NoDup (sub_id <$> allSubscriptions r.2)
  ∧ getEventSubscribers r.2 topic = getEventSubscribers es topic ++ [sys]
  ∧ (∀ t, t ≠ topic → omGet t (subscriptions r.2) = omGet t (subscriptions es))
  ∧ nextSubscriptionId r.2 = nextSubscriptionId es + 1.
Proof.
  intros Hreach r.
  pose proof (allSubscriptions_issued _ (reachableES_ids_fresh _ Hreach)) as Hiss.
  split_and!; try done.
  - cbn. intros Hin. apply list_elem_of_fmap in Hin as (sub & Heq & Hin).
    apply (proj1 (Forall_forall _ _) Hiss) in Hin as (k & Hk & Hlt).
    rewrite Hk in Heq. apply (inj (String.app _)) in Heq.
    apply (inj pretty) in Heq. lia.
  - apply reachableES_ids_unique. by apply es_reach_subscribe.
  - unfold getEventSubscribers. cbn. rewrite omGet_omSet_eq. cbn.
    by rewrite fmap_app.
  - intros t Ht. cbn. by rewrite omGet_omSet_ne.
Qed.

(** [unsubscribe] of an id that no subscription carries answers [false] and
    changes nothing. Otherwise it answers [true]; afterwards the id is gone
    from every topic, every other subscription is still there, and a second
    [unsubscribe] of the same id answers [false]. *)
Theorem unsubscribe_effect (es : EventSystem) (subscriptionId : string) :
  reachableES es →
  let r := unsubscribe subscriptionId es in
  (subscriptionId ∉ sub_id <$> allSubscriptions es → r = (false, es))
  ∧ (subscriptionId ∈ sub_id <$> allSubscriptions es → r.1 = true)
  ∧ (subscriptionId ∉ sub_id <$> allSubscriptions r.2)
  ∧ (∀ sub, sub ∈ allSubscriptions es → sub_id sub ≠ subscriptionId →
       sub ∈ allSubscriptions r.2)
  ∧ (unsubscribe subscriptionId r.2).1 = false.
Proof.
  intros Hreach r.
  pose proof (reachableES_keys_unique _ Hreach) as Hkeys.
  pose proof (reachableES_ids_unique _ Hreach) as Hids.
  assert ((subscriptionId ∉ sub_id <$> allSubscriptions r.2)
          ∧ (∀ sub, sub ∈ allSubscriptions es → sub_id sub ≠ subscriptionId →
               sub ∈ allSubscriptions r.2)) as [Hgone Hkept].
  { subst r. unfold unsubscribe.
    destruct (findSubscription subscriptionId (subscriptions es))
      as [[[eventType index] sub]|] eqn:Hfind.
    - destruct (findSubscription_Some _ _ _ _ _ Hkeys Hfind)
        as (subs & Hget & Hidx & Hid).
      unfold allSubscriptions, omValues in *. cbn. rewrite Hget. cbn.
      destruct (omGet_split _ _ _ Hget) as (m1 & m2 & Hm & _ & Hset & Hdel).
      rewrite Hm, ids_of_split in Hids.
      assert (subscriptionId ∉ (sub_id <$> mjoin m1.*2)
                ++ (sub_id <$> delete index subs) ++ (sub_id <$> mjoin m2.*2)) as Hnot.
      { apply NoDup_app in Hids as (Ha & Hab & Hrest).
        apply NoDup_app in Hrest as (Hs & Hsb & Hb).
        assert (subscriptionId ∈ sub_id <$> subs) as Hin.
        { rewrite <-Hid. apply list_elem_of_fmap_2. by eapply list_elem_of_lookup_2. }
        rewrite !elem_of_app. intros [H1|[H2|H3]].
        - apply (Hab _ H1). apply elem_of_app. by left.
        - rewrite list_fmap_delete in H2.
          revert H2. apply not_elem_of_delete_NoDup; [done|].
          by rewrite list_lookup_fmap, Hidx, <-Hid.
        - by apply (Hsb _ Hin). }
      assert (∀ s, s ∈ mjoin (m1 ++ (eventType, subs) :: m2).*2 →
                sub_id s ≠ subscriptionId →
                s ∈ mjoin m1.*2 ++ delete index subs ++ mjoin m2.*2) as Hothers.
      { intros s Hs Hne. rewrite fmap_app, join_app in Hs. cbn in Hs.
        rewrite !elem_of_app in *. destruct Hs as [?|[Hs|?]]; [tauto| |tauto].
        right. left. eapply elem_of_delete_other; [exact Hidx|done|].
        intros ->. done. }
      destruct (delete index subs) eqn:Hd.
      + rewrite Hdel, ids_of_app. cbn in Hnot. split; [done|].
        intros s Hs Hne. rewrite Hm in Hs. specialize (Hothers s Hs Hne).
        cbn in Hothers. by rewrite fmap_app, join_app.
      + rewrite Hset, ids_of_split. split; [done|].
        intros s Hs Hne. rewrite Hm in Hs. specialize (Hothers s Hs Hne).
        rewrite fmap_app, join_app. by cbn.
    - cbn. split; [|done]. by apply findSubscription_None. }
  split_and!; try done.
  - intros Hnot. subst r. unfold unsubscribe.
    apply findSubscription_None in Hnot. by rewrite Hnot.
  - intros Hin. subst r. unfold unsubscribe.
    destruct (findSubscription subscriptionId (subscriptions es))
      as [[[eventType index] sub]|] eqn:Hfind; [done|].
    apply findSubscription_None in Hfind. done.
  - unfold unsubscribe at 1.
    apply findSubscription_None in Hgone. by rewrite Hgone.
Qed.


(** ** Event history *)

(** [Array.prototype.slice(start)] with an integer [start]: a negative start
    counts from the end, and both are clamped to the array. *)
Definition sliceFrom {A} (start : Z) (l : list A) : list A :=
  let len := Z.of_nat (length l) in
  let k := if bool_decide (start < 0) then Z.max (len + start) 0 else Z.min start len in
  drop (Z.to_nat k) l.

(** [getEventHistory(eventType, limit = 100)] *)
Definition getEventHistory (es : EventSystem) (eventType : string) (limit : option Z)
  : list SystemEvent :=
  sliceFrom (- default 100 limit) (default [] (eventHistory es !! eventType)).

(** The history of every topic is bounded by [maxEventHistory], which stays
    at 1000. *)
Definition history_bounded (es : EventSystem) : Prop :=
  maxEventHistory es = 1000%nat
  ∧ ∀ t h, eventHistory es !! t = Some h → (length h ≤ 1000)%nat.

Lemma history_bounded_step : stepInvariant history_bounded.
Proof.
  unfold stepInvariant, history_bounded. split_and!; try done.
  - intros subscriptionId es IH. unfold unsubscribe.
    by destruct (findSubscription subscriptionId (subscriptions es)) as [[[? ?] ?]|].
  - intros eventType event es [Hmax Hlen]. split; [done|].
    intros t h. cbn. unfold addToHistory.
    destruct (decide (eventType = t)) as [<-|Hne].
    + rewrite lookup_insert_eq. intros [= <-]. rewrite length_drop, length_app. cbn.
      rewrite Hmax. lia.
    + rewrite lookup_insert_ne by done. apply Hlen.
Qed.

Lemma reachableES_history_bounded (es : EventSystem) :
  reachableES es → history_bounded es.
Proof.
  revert es. apply reachableES_keeps.
  - apply history_bounded_step.
  - split; [done|]. intros t h. cbn. by rewrite lookup_empty.
  - intros es [Hmax _]. split; [done|]. intros t h. cbn. by rewrite lookup_empty.
Qed.

(** A delivery whose calls do not emit leaves the histories as the
    [addToHistory] of its [emit] made them. *)
Lemma invoke_history (nested : Emit) event (subscription : EventSubscription) h
    (es : EventSystem) (ran : Ran) :
  emitFree (sub_handler subscription event) →
  invoke nested event subscription h es = Some ran →
  eventHistory (r_system ran) = eventHistory es.
Proof.
  intros Hfree Hinv. unfold invoke in Hinv.
  destruct (run_emitFree nested _ Hfree h es) as (ran' & Hrun & Hh & _).
  rewrite Hrun in Hinv. injection Hinv as <-.
  by destruct (r_outcome ran').
Qed.

Lemma forEach_history (nested : Emit) event (targets : list EventSubscription) :
  ∀ d d', forEach nested event targets d = Some d' →
    Forall (λ c, emitFree (sub_handler c.1 event)) (d_calls d') →
    eventHistory (d_system d') = eventHistory (d_system d).
Proof.
  induction targets as [|subscription rest IH]; intros d d' Hfor Hfree; cbn in Hfor.
  - by injection Hfor as <-.
  - destruct (invoke nested event subscription _ _) as [ran|] eqn:Hinv; [|done].
    rewrite (IH _ _ Hfor Hfree). cbn.
    apply (invoke_history _ _ _ _ _ _) in Hinv; [done|].
    destruct (forEach_extends _ _ _ _ _ Hfor) as [[k Hk] _]. cbn in Hk.
    rewrite Hk in Hfree. apply Forall_app in Hfree as [Hfree _].
    apply Forall_app in Hfree as [_ Hfree]. exact (Forall_inv Hfree).
Qed.

Lemma forEachLive_history (nested : Emit) event eventType (turns : nat) :
  ∀ index d d', forEachLive nested event eventType turns index d = Some d' →
    Forall (λ c, emitFree (sub_handler c.1 event)) (d_calls d') →
    eventHistory (d_system d') = eventHistory (d_system d).
Proof.
  induction turns as [|turns IH]; intros index d d' Hfor Hfree; cbn in Hfor; [done|].
  destruct (default [] _ !! index) as [subscription|]; [|by injection Hfor as <-].
  destruct (invoke nested event subscription _ _) as [ran|] eqn:Hinv; [|done].
  destruct (arrayDropped eventType (r_removed ran)).
  - injection Hfor as <-. cbn in Hfree |- *.
    apply Forall_app in Hfree as [_ Hfree].
    by apply (invoke_history _ _ _ _ _ _ (Forall_inv Hfree)) in Hinv.
  - rewrite (IH _ _ _ Hfor Hfree). cbn.
    apply (invoke_history _ _ _ _ _ _) in Hinv; [done|].
    destruct (forEachLive_extends _ _ _ _ _ _ _ Hfor) as [[k Hk] _]. cbn in Hk.
    rewrite Hk in Hfree. apply Forall_app in Hfree as [Hfree _].
    apply Forall_app in Hfree as [_ Hfree]. exact (Forall_inv Hfree).
Qed.

(** When none of the handlers that [emit] calls emits in turn, [emit]
    records the event as the newest entry of its topic's history and keeps
    at most the last 1000 entries of it; the histories of other topics
    stay. Asking for the last entry of the topic then returns this event.
    Such an [emit] comes back when the loop runs over a copy of the
    subscriptions (any case but the broadcast flag with no target list).
    A handler that emits puts its own events after this one. *)
Theorem emit_history (es : EventSystem) (h : Host) (emitter : SystemId)
    (topic : string) (data : Data) (options : EmitOptions) (now : Z) :
  reachableES es →
  let hist := default [] (eventHistory es !! topic) in
  let event := eventOf emitter topic data options now in
  (∀ fuel d,
     emit fuel emitter topic data options now h es = Some d →
     Forall (λ c, emitFree (sub_handler c.1 event)) (d_calls d) →
     eventHistory (d_system d) !! topic
       = Some (drop (length hist + 1 - 1000) (hist ++ [event]))
     ∧ last (default [] (eventHistory (d_system d) !! topic)) = Some event
     ∧ length (default [] (eventHistory (d_system d) !! topic))
       = ((length hist + 1) `min` 1000)%nat
     ∧ (∀ t, t ≠ topic → eventHistory (d_system d) !! t = eventHistory es !! t)
     ∧ getEventHistory (d_system d) topic (Some 1) = [event])
  ∧ (∀ fuel,
       ¬ overLiveArray options →
       Forall (λ sub, emitFree (sub_handler sub event))
              (filter (λ sub, matchesTargeting options emitter sub = true)
                      (subscribersOf es topic)) →
       is_Some (emit (S fuel) emitter topic data options now h es)).
Proof.
  intros Hreach hist event. split.
  - intros fuel d Hemit Hfree.
    destruct (reachableES_history_bounded _ Hreach) as [Hmax Hlen].
    assert (length hist ≤ 1000)%nat as Hh.
    { subst hist. destruct (eventHistory es !! topic) as [l|] eqn:Hl; cbn; [|lia].
      by eapply Hlen. }
    assert (eventHistory (d_system d) = addToHistory topic event (eventHistory es) 1000)
      as Heq.
    { destruct fuel as [|fuel]; [done|]. rewrite emit_S in Hemit. fold event in Hemit.
      rewrite <-Hmax.
      destruct (filterTargetSubscriptions _ emitter options) as [|targets].
      - by rewrite (forEachLive_history _ _ _ _ _ _ _ Hemit Hfree).
      - by rewrite (forEach_history _ _ _ _ _ Hemit Hfree). }
    assert (eventHistory (d_system d) !! topic
            = Some (drop (length hist + 1 - 1000) (hist ++ [event]))) as Hnew.
    { rewrite Heq. unfold addToHistory. rewrite lookup_insert_eq, length_app. done. }
    assert (∃ pre, drop (length hist + 1 - 1000) (hist ++ [event]) = pre ++ [event]
                   ∧ length pre = (length hist `min` 999)%nat) as (pre & Hpre & Hprelen).
    { exists (drop (length hist + 1 - 1000) hist). split.
      - rewrite drop_app_le by lia. done.
      - rewrite length_drop. lia. }
    split_and!.
    + done.
    + rewrite Hnew. cbn. rewrite Hpre. apply last_snoc.
    + rewrite Hnew. cbn. rewrite Hpre, length_app. cbn. lia.
    + intros t Ht. rewrite Heq. unfold addToHistory. by rewrite lookup_insert_ne.
    + unfold getEventHistory, sliceFrom. rewrite Hnew.
      change (default [] (Some ?x)) with x. rewrite Hpre, length_app.
      change (default 100 (Some 1)) with 1. change (length [event]) with 1%nat.
      rewrite bool_decide_eq_true_2 by lia.
      replace (Z.to_nat _) with (length pre) by lia.
      by rewrite drop_app_length.
  - intros fuel Hcopy Hfree. rewrite emit_S.
    fold (subscribersOf es topic). fold event.
    pose proof (filterTargetSubscriptions_matches (subscribersOf es topic) emitter options)
      as Hm.
    pose proof (filterTargetSubscriptions_TheArray (subscribersOf es topic) emitter options)
      as Harr.
    destruct (filterTargetSubscriptions _ emitter options) as [|targets].
    + destruct Hcopy. by apply Harr.
    + cbn in Hm. rewrite Hm. by apply forEach_returns.
Qed.

(** [getEventHistory] returns a suffix of the topic's history: the last
    [limit] entries for a positive [limit] (100 when none is given), all of
    them when fewer are recorded. A [limit] of zero does not give the empty
    list but the whole history, since [slice(-0)] starts at index 0. *)
Theorem getEventHistory_limit (es : EventSystem) (topic : string) (limit : option Z) :
  let h := default [] (eventHistory es !! topic) in
  let n := default 100 limit in
  (0 < n → getEventHistory es topic limit = drop (length h - Z.to_nat n) h
           ∧ length (getEventHistory es topic limit) = (length h `min` Z.to_nat n)%nat)
  ∧ (n = 0 → getEventHistory es topic limit = h)
  ∧ getEventHistory es topic limit `suffix_of` h
  ∧ (eventHistory es !! topic = None → getEventHistory es topic limit = []).
Proof.
  intros h n. unfold getEventHistory, sliceFrom. fold h. fold n.
  split_and!.
  - intros Hn. rewrite bool_decide_eq_true_2 by lia.
    replace (Z.to_nat (Z.max (Z.of_nat (length h) + - n) 0))
      with (length h - Z.to_nat n)%nat by lia.
    split; [done|]. rewrite length_drop. lia.
  - intros ->. rewrite bool_decide_eq_false_2 by lia.
    replace (Z.to_nat _) with 0%nat by lia. apply drop_0.
  - apply suffix_drop.
  - intros Hnone. subst h. rewrite Hnone. cbn. by rewrite drop_nil.
Qed.

End EventEffects.

Lemma subscribe_effect_witness :
  (Events.subscribe "D" "tick" (λ _, Events.Return) 4 threeSubscribers).1 = "sub_4"
  ∧ Events.getEventSubscribers
      (Events.subscribe "D" "tick" (λ _, Events.Return) 4 threeSubscribers).2 "tick"
    = ["A"; "B"; "C"; "D"].
Proof.
  destruct (subscribe_effect threeSubscribers "D" "tick" (λ _, Events.Return) 4
              threeSubscribers_reachable) as (H1 & _ & _ & H4 & _).
  split; [exact H1|]. rewrite H4. reflexivity.
Defined.

Lemma unsubscribe_effect_witness :
  (Events.unsubscribe "sub_2" threeSubscribers).1 = true
  ∧ Events.getEventSubscribers (Events.unsubscribe "sub_2" threeSubscribers).2 "tick"
    = ["A"; "C"]
  ∧ (Events.unsubscribe "sub_2" (Events.unsubscribe "sub_2" threeSubscribers).2).1 = false.
Proof.
  destruct (unsubscribe_effect threeSubscribers "sub_2" threeSubscribers_reachable)
    as (_ & H2 & _ & _ & H5).
  split; [apply H2; vm_compute|split; [reflexivity|exact H5]].
  apply elem_of_cons. right. apply elem_of_cons. by left.
Defined.

Lemma emit_history_witness :
  ∃ d, Events.emit 1 "A" "tick" tt Events.noOptions 9 tt busySubscribers = Some d
       ∧ getEventHistory (Events.d_system d) "tick" (Some 1)
         = [Events.eventOf "A" "tick" tt Events.noOptions 9].
Proof.
  destruct (emit_history busySubscribers tt "A" "tick" tt Events.noOptions 9
              busySubscribers_reachable) as (Hhistory & Hreturns).
  destruct (Hreturns 0%nat) as [d Hd].
  - intros [? _]. done.
  - vm_compute filter. repeat constructor.
  - exists d. split; [exact Hd|].
    apply (Hhistory 1%nat d Hd).
    vm_compute in Hd. injection Hd as <-. repeat constructor.
Defined.

(** * What an accepted schema looks like *)

Section SchemaSoundness.
Import Schema.

(** The shape [validateFieldDefinition] asks of a field, nested schema
    apart. *)
Definition fieldOk {S} (fd : FieldDefinitionOf S) : Prop :=
  f_type fd ∈ [TNumber; TString; TBoolean; TObject; TArray]
  ∧ (∀ lo hi, f_min fd = Some lo → f_max fd = Some hi → lo ≤ hi)
  ∧ (f_hasPattern fd = true → f_type fd = TString)
  ∧ (is_Some (f_nested fd) → f_type fd = TObject ∨ f_type fd = TArray).

(** What [validateConstraint] asks of a constraint: its field is a field of
    the schema or a name that the [fields] object inherits. *)
Definition constraintOk {S} (fs : list (string * FieldDefinitionOf S)) (c : Constraint)
  : Prop :=
  c_field c ≠ ""
  ∧ (c_field c ∈ fs.*1 ∨ c_field c ∈ objectPrototypeProperties)
  ∧ c_type c ∈ [CUnique; CRange; CPattern; CCustom]
  ∧ (c_type c = CCustom → c_hasValidator c = true).

(** A well-formed schema: a version of at least 1, at least one field, every
    field of a known type with consistent bounds, patterns on strings only,
    nested schemas on objects and arrays only and well-formed themselves,
    constraints on declared fields or on inherited property names such as
    [toString], and a positive size cap. *)
Inductive wellFormed : ComponentSchema → Prop :=
| wellFormed_schema v fs cs ms :
    1 ≤ v →
    fs ≠ [] →
    Forall (λ p : string * FieldDefinition,
              fieldOk p.2 ∧ ∀ nested, f_nested p.2 = Some nested → wellFormed nested) fs →
    (∀ l, cs = Some l → Forall (constraintOk fs) l) →
    (∀ m, ms = Some m → 0 < m) →
    wellFormed (mkSchema v fs cs ms).

(** The nesting depth of a schema, to reason by induction on it. *)
Fixpoint depth (s : ComponentSchema) : nat :=
  match s with
  | mkSchema _ fs _ _ =>
      S ((fix fields (l : list (string * FieldDefinitionOf ComponentSchema)) : nat :=
            match l with
            | [] => O
            | (_, mkField _ _ _ _ _ (Some nested)) :: l' => Nat.max (depth nested) (fields l')
            | (_, mkField _ _ _ _ _ None) :: l' => fields l'
            end) fs)
  end.

Lemma depth_nested v fs cs ms (p : string * FieldDefinition) nested :
  p ∈ fs → f_nested p.2 = Some nested →
  (depth nested < depth (mkSchema v fs cs ms))%nat.
Proof.
  intros Hin Hn. cbn. apply Nat.lt_succ_r.
  induction fs as [|[name fd] fs IH]; [by apply elem_of_nil in Hin|].
  apply elem_of_cons in Hin as [->|Hin].
  - destruct fd as [ty req lo hi pat [s'|]]; cbn in *; [|done].
    injection Hn as ->. lia.
  - specialize (IH Hin). destruct fd as [ty req lo hi pat [s'|]]; cbn in *; lia.
Qed.

Lemma firstError_None {A} (check : A → option Schema.Error) (l : list A) :
  firstError check l = None ↔ Forall (λ x, check x = None) l.
Proof.
  induction l as [|x l IH]; cbn.
  - split; [constructor|done].
  - rewrite Forall_cons. destruct (check x); [|by rewrite IH; tauto].
    split; [done|]. by intros [? _].
Qed.

Lemma fieldLookup_Some {S} (fs : list (string * FieldDefinitionOf S)) name :
  is_Some (fieldLookup fs name) ↔ name ∈ fs.*1 ∨ name ∈ objectPrototypeProperties.
Proof.
  unfold fieldLookup.
  assert (∀ l : list (string * FieldDefinitionOf S), is_Some (last l) ↔ l ≠ []) as Hlast.
  { intros l. destruct l as [|x l] using rev_ind; cbn.
    - split; [by intros [? ?]|done].
    - rewrite last_snoc. split; [intros _ H; by destruct l|eauto]. }
  assert (filter (λ p : string * FieldDefinitionOf S, p.1 = name) fs ≠ [] ↔ name ∈ fs.*1)
    as Hown.
  { split.
    - intros Hne. destruct (filter _ fs) as [|p l] eqn:Hf; [done|].
      assert (p ∈ filter (λ p, p.1 = name) fs) as Hp
        by (rewrite Hf; apply elem_of_cons; by left).
      apply list_elem_of_filter in Hp as [Hn Hin].
      apply list_elem_of_fmap. by exists p.
    - intros Hin Hnil. apply list_elem_of_fmap in Hin as (p & -> & Hin).
      assert (p ∈ filter (λ q, q.1 = p.1) fs) as Hp by by apply list_elem_of_filter.
      rewrite Hnil in Hp. by apply elem_of_nil in Hp. }
  rewrite <-Hown, <-Hlast.
  destruct (last _) as [p|]; [split; eauto|].
  destruct (decide (name ∈ objectPrototypeProperties)) as [Hp|Hp].
  - split; eauto.
  - split; [by intros [? ?]|]. intros [[? ?]|?]; done.
Qed.

Lemma validateConstraint_None {S} (fs : list (string * FieldDefinitionOf S)) c :
  validateConstraint c fs = None ↔ constraintOk fs c.
Proof.
  unfold validateConstraint, constraintOk.
  destruct (decide (c_field c = "")) as [He|He]; [split; [done|tauto]|].
  pose proof (fieldLookup_Some fs (c_field c)) as Hl.
  destruct (fieldLookup fs (c_field c)) as [fd|].
  - assert (c_field c ∈ fs.*1 ∨ c_field c ∈ objectPrototypeProperties) as Hin
      by (apply Hl; eauto).
    destruct (c_type c) eqn:Ht; cbn.
    + split; [|done]. intros _. split_and!; [done|done| |done].
      apply elem_of_cons; by left.
    + split; [|done]. intros _. split_and!; [done|done| |done].
      apply elem_of_cons; right; apply elem_of_cons; by left.
    + split; [|done]. intros _. split_and!; [done|done| |done].
      do 2 (apply elem_of_cons; right). apply elem_of_cons; by left.
    + destruct (c_hasValidator c).
      * split; [|done]. intros _. split_and!; [done|done| |done].
        do 3 (apply elem_of_cons; right). apply elem_of_cons; by left.
      * split; [done|]. intros (_ & _ & _ & Hv). by specialize (Hv eq_refl).
    + split; [done|]. intros (_ & _ & Hty & _).
      repeat (apply elem_of_cons in Hty as [Hty|Hty]; [done|]).
      by apply elem_of_nil in Hty.
  - split; [done|]. intros (_ & Hin & _).
    apply Hl in Hin. by destruct Hin.
Qed.

Lemma validateFieldShape_None {S} name (fd : FieldDefinitionOf S) :
  validateFieldShape name fd = None ↔ fieldOk fd.
Proof.
  unfold validateFieldShape, fieldOk.
  destruct fd as [ty req lo hi pat nested]; cbn.
  assert (∀ t : FieldType, t ∈ [TNumber; TString; TBoolean; TObject; TArray]
            ↔ match t with TOther _ => False | _ => True end) as Hty.
  { intros t. rewrite !elem_of_cons, elem_of_nil. destruct t; naive_solver. }
  rewrite Hty. destruct ty; try (split; [done|tauto]);
    destruct lo as [lo|], hi as [hi|]; cbn;
    try case_bool_decide; destruct pat, nested; cbn;
    split; try done; try (intros (_ & H1 & H2 & H3); first
      [ by specialize (H1 _ _ eq_refl eq_refl); lia
      | by specialize (H2 eq_refl)
      | by destruct (H3 ltac:(eauto)) ]);
    intros _; split_and!; try done; try (intros ? ? [= <-] [= <-]; lia);
    try (intros [? ?]; done); try (intros; by eauto).
Qed.

(** The loop of [validateSchema] over the fields, named. *)
Definition eachField : list (string * FieldDefinition) → option Schema.Error :=
  fix each (l : list (string * FieldDefinition)) :=
    match l with
    | [] => None
    | (fieldName, fd) :: l' =>
        match validateFieldShape fieldName fd with
        | Some e => Some e
        | None =>
            match fd with
            | mkField _ _ _ _ _ (Some nested) =>
                match validateSchema nested with
                | Some e => Some e
                | None => each l'
                end
            | mkField _ _ _ _ _ None => each l'
            end
        end
    end.

Lemma validateSchema_unfold v fs cs ms :
  validateSchema (mkSchema v fs cs ms) =
  if bool_decide (v < 1) then Some VersionNotPositive
  else match fs with
       | [] => Some NoFields
       | _ :: _ =>
           match eachField fs with
           | Some e => Some e
           | None =>
               match from_option (firstError (λ c, validateConstraint c fs)) None cs with
               | Some e => Some e
               | None =>
                   match ms with
                   | Some m => if bool_decide (m ≤ 0) then Some MaxSizeNotPositive else None
                   | None => None
                   end
               end
           end
       end.
Proof. by destruct fs. Qed.

Lemma eachField_None l :
  eachField l = None ↔
  Forall (λ p : string * FieldDefinition,
            validateFieldShape p.1 p.2 = None
            ∧ ∀ nested, f_nested p.2 = Some nested → validateSchema nested = None) l.
Proof.
  induction l as [|[name fd] l IH].
  - split; [constructor|done].
  - rewrite Forall_cons. change (eachField ((name, fd) :: l)) with
      (match validateFieldShape name fd with
       | Some e => Some e
       | None =>
           match fd with
           | mkField _ _ _ _ _ (Some nested) =>
               match validateSchema nested with
               | Some e => Some e
               | None => eachField l
               end
           | mkField _ _ _ _ _ None => eachField l
           end
       end).
    cbn [fst snd].
    destruct (validateFieldShape name fd); [split; [done|by intros [[? _] _]]|].
    destruct fd as [ty req lo hi pat [nested|]]; cbn [f_nested].
    + destruct (validateSchema nested) eqn:Hn.
      * split; [done|]. intros [[_ H] _]. specialize (H _ eq_refl). congruence.
      * rewrite IH. split; [|tauto]. intros Hl. split; [|done].
        split; [done|]. by intros ? [= <-].
    + rewrite IH. split; [|tauto]. intros Hl. split; [|done]. by split.
Qed.

Lemma validateSchema_None_unfold v fs cs ms :
  validateSchema (mkSchema v fs cs ms) = None ↔
  1 ≤ v
  ∧ fs ≠ []
  ∧ Forall (λ p : string * FieldDefinition,
              validateFieldShape p.1 p.2 = None
              ∧ ∀ nested, f_nested p.2 = Some nested → validateSchema nested = None) fs
  ∧ from_option (firstError (λ c, validateConstraint c fs)) None cs = None
  ∧ (∀ m, ms = Some m → 0 < m).
Proof.
  rewrite validateSchema_unfold, <-eachField_None.
  case_bool_decide as Hv; [split; [done|intros [? _]; lia]|].
  destruct fs as [|f0 fs0] eqn:Hfs; [split; [done|tauto]|]. rewrite <-Hfs.
  assert (fs ≠ []) as Hne by by rewrite Hfs.
  clear Hfs. destruct (eachField fs) as [e|].
  - split; [done|]. by intros (_ & _ & Hf & _).
  - destruct (from_option _ None cs) as [e|].
    + split; [done|]. by intros (_ & _ & _ & ? & _).
    + destruct ms as [m|].
      * case_bool_decide as Hm.
        -- split; [done|]. intros (_ & _ & _ & _ & H). specialize (H _ eq_refl). lia.
        -- split; [|done]. intros _. split_and!; try done; [lia|].
           intros ? [= <-]. lia.
      * split; [|done]. intros _. split_and!; try done. lia.
Qed.

(** For schemas whose version, bounds and size cap are integers,
    [validateSchema] accepts exactly the well-formed ones, nested schemas
    included. A constraint may name a declared field or a property that the
    [fields] object inherits from [Object.prototype], such as [toString]:
    the test [!fields[constraint.field]] reads through the prototype chain. *)
Theorem validateSchema_accepts_wellFormed (s : ComponentSchema) :
  validateSchema s = None ↔ wellFormed s.
Proof.
  remember (depth s) as n eqn:Hn. revert s Hn.
  induction n as [n IH] using lt_wf_ind. intros [v fs cs ms] ->.
  rewrite validateSchema_None_unfold. split.
  - intros (Hv & Hfs & Hfields & Hcs & Hms). constructor; try done.
    + apply Forall_forall. intros p Hp.
      destruct (proj1 (Forall_forall _ _) Hfields p Hp) as [Hshape Hnested].
      split; [by apply (validateFieldShape_None p.1)|].
      intros nested Hnest.
      apply (IH (depth nested) (depth_nested v fs cs ms p nested Hp Hnest) nested eq_refl).
      by apply Hnested.
    + intros l ->. cbn in Hcs. apply firstError_None in Hcs.
      eapply Forall_impl; [exact Hcs|]. intros c. apply validateConstraint_None.
  - intros Hwf. inversion Hwf as [v' fs' cs' ms' Hv Hfs Hfields Hcs Hms]; subst.
    split_and!; try done.
    + apply Forall_forall. intros p Hp.
      destruct (proj1 (Forall_forall _ _) Hfields p Hp) as [Hshape Hnested].
      split; [by apply validateFieldShape_None|].
      intros nested Hnest.
      apply (IH (depth nested) (depth_nested v fs cs ms p nested Hp Hnest) nested eq_refl).
      by apply Hnested.
    + destruct cs as [l|]; cbn; [|done]. apply firstError_None.
      eapply Forall_impl; [exact (Hcs l eq_refl)|]. intros c. apply validateConstraint_None.
Qed.

End SchemaSoundness.

(** * The dynamic registry: allocation and invariants *)

Section RegistryInvariants.
Import Schema Registry.

Local Abbreviation dcr := dynamicComponentRegistry.

(** The loop of [allocateComponentId] stops within as many steps as there
    are used ids, at the least id from [n] on that is not used. *)
Lemma skipUsed_least (fuel : nat) (used : gset ComponentId) (n : Z) :
  (size (filter (λ i : Z, (n ≤ i)%Z) used) ≤ fuel)%nat →
  (skipUsed fuel used n ∉ used)
  ∧ ∀ j, n ≤ j < skipUsed fuel used n → j ∈ used.
Proof.
  revert n. induction fuel as [|fuel IH]; intros n Hsize; cbn.
  - split; [|intros j ?; lia]. intros Hin.
    assert (n ∈ filter (λ i : Z, n ≤ i) used) as Hn by (apply elem_of_filter; split; [lia|done]).
    assert (size (filter (λ i : Z, n ≤ i) used) = 0%nat) as H0 by lia.
    apply size_empty_inv in H0. by apply H0 in Hn.
  - case_bool_decide as Hin; [|split; [done|intros j ?; lia]].
    assert (filter (λ i : Z, n + 1 ≤ i) used ⊂ filter (λ i : Z, n ≤ i) used) as Hsub.
    { split.
      - intros i. rewrite !elem_of_filter. intros [? ?]. split; [lia|done].
      - intros Hall. assert (n ∈ filter (λ i : Z, n + 1 ≤ i) used) as Hn.
        { apply Hall, elem_of_filter. split; [lia|done]. }
        apply elem_of_filter in Hn as [? _]. lia. }
    apply subset_size in Hsub.
    destruct (IH (n + 1)) as [Hout Hbelow]; [lia|].
    split; [done|]. intros j Hj.
    destruct (decide (j = n)) as [->|Hne]; [done|]. apply Hbelow. lia.
Qed.

(** [allocateComponentId] hands out the least id from [nextDynamicId] on
    that is not reserved, reserves it, and moves [nextDynamicId] just past
    it. *)
Theorem allocateComponentId_least (d : DynamicComponentRegistry) :
  let allocated := (allocateComponentId d).1 in
  let d' := (allocateComponentId d).2 in
  nextDynamicId d ≤ allocated
  ∧ (allocated ∉ usedIds d)
  ∧ (∀ j, nextDynamicId d ≤ j < allocated → j ∈ usedIds d)
  ∧ usedIds d' = {[allocated]} ∪ usedIds d
  ∧ nextDynamicId d' = allocated + 1.
Proof.
  cbn. destruct (skipUsed_least (size (usedIds d)) (usedIds d) (nextDynamicId d))
    as [Hout Hbelow].
  { apply subseteq_size. intros i. rewrite elem_of_filter. tauto. }
  split_and!; try done. apply skipUsed_ge.
Qed.

(** ** What every reachable dynamic registry satisfies *)

Lemma omGet_None_keys {V} k (m : OrderedMap V) : omGet k m = None ↔ k ∉ m.*1.
Proof.
  induction m as [|[k0 v0] m IH]; cbn.
  - split; [intros _; apply not_elem_of_nil|done].
  - rewrite not_elem_of_cons. destruct (decide (k0 = k)) as [->|Hne].
    + split; [done|]. by intros [? _].
    + rewrite IH. split; [by split|tauto].
Qed.

Lemma omDelete_sublist {V} k (m : OrderedMap V) : omDelete k m `sublist_of` m.
Proof.
  induction m as [|[k0 v0] m IH]; cbn; [done|].
  destruct (decide (k0 = k)); [by apply sublist_cons|by apply sublist_skip].
Qed.

Lemma omGet_omDelete_eq {V} k (m : OrderedMap V) :
  NoDup m.*1 → omGet k (omDelete k m) = None.
Proof.
  induction m as [|[k0 v0] m IH]; cbn; [done|].
  intros [Hk Hnd]%NoDup_cons. destruct (decide (k0 = k)) as [->|Hne]; cbn.
  - by apply omGet_None_keys.
  - rewrite decide_False by done. by apply IH.
Qed.

Lemma omGet_sublist_None {V} k (m m' : OrderedMap V) :
  m' `sublist_of` m → omGet k m = None → omGet k m' = None.
Proof.
  rewrite !omGet_None_keys. intros Hsub Hk Hin. apply Hk.
  eapply elem_of_sublist; [exact Hin|]. by apply fmap_sublist.
Qed.

Lemma omap_sublist {A B} (f : A → option B) (l1 l2 : list A) :
  l1 `sublist_of` l2 → omap f l1 `sublist_of` omap f l2.
Proof.
  induction 1 as [|x l1 l2 _ IH|x l1 l2 _ IH]; cbn; [done| |].
  - destruct (f x); [by apply sublist_skip|done].
  - destruct (f x); [by apply sublist_cons|done].
Qed.

Lemma Forall_sublist_of {A} (P : A → Prop) (l1 l2 : list A) :
  l1 `sublist_of` l2 → Forall P l2 → Forall P l1.
Proof.
  intros Hsub. rewrite !Forall_forall. intros H x Hx.
  apply H. by eapply elem_of_sublist.
Qed.

(** The invariant: the ids in use by registrations lie between 1000 and
    [nextDynamicId], no two registrations share one, the keys of
    [hashedIdToRegistration] are the hashed ids of the registrations they
    lead to, and every stored reference is live. *)
Record consistent (d : DynamicComponentRegistry) : Prop := mkConsistent {
  cons_next : 1000 ≤ nextDynamicId d;
  cons_keys : NoDup (hashedIdToRegistration d).*1;
  cons_refs :
    Forall (λ p : string * nat,
              (p.2 < nextRef (registrationObjects d))%nat
              ∧ ∃ reg, deref (registrationObjects d) p.2 = Some reg
                       ∧ hashedId reg = p.1
                       ∧ 1000 ≤ id reg < nextDynamicId d)
           (hashedIdToRegistration d);
  cons_ids : NoDup (id <$> registrations d);
}.

Lemma registrations_elem d reg :
  consistent d → reg ∈ registrations d →
  1000 ≤ id reg < nextDynamicId d
  ∧ ∃ r, (hashedId reg, r) ∈ hashedIdToRegistration d
         ∧ deref (registrationObjects d) r = Some reg.
Proof.
  intros Hc Hin. unfold registrations, omValues in Hin.
  apply list_elem_of_omap in Hin as (r & Hr & Hderef).
  apply list_elem_of_fmap in Hr as ([k r'] & -> & Hp). cbn in *.
  pose proof (proj1 (Forall_forall _ _) (cons_refs d Hc) _ Hp) as (_ & reg' & Hd & Hh & Hb).
  cbn in *. rewrite Hderef in Hd. injection Hd as <-. split; [done|].
  exists r'. by rewrite Hh.
Qed.

(** Operations that leave the registrations alone and do not lower
    [nextDynamicId] keep the invariant. *)
Lemma consistent_frame d d' :
  registrationObjects d' = registrationObjects d →
  hashedIdToRegistration d' = hashedIdToRegistration d →
  nextDynamicId d ≤ nextDynamicId d' →
  consistent d → consistent d'.
Proof.
  intros Ho Hh Hn [H1 H2 H3 H4]. split.
  - lia.
  - by rewrite Hh.
  - rewrite Hh, Ho. eapply Forall_impl; [exact H3|].
    intros p (? & reg & ? & ? & ?). split; [done|]. exists reg. split_and!; try done; lia.
  - unfold registrations. by rewrite Hh, Ho.
Qed.

Lemma register_registrations name ctor w :
  registrationObjects (dcr (register name ctor w).2) = registrationObjects (dcr w)
  ∧ hashedIdToRegistration (dcr (register name ctor w).2) = hashedIdToRegistration (dcr w)
  ∧ nextDynamicId (dcr (register name ctor w).2) = nextDynamicId (dcr w)
  ∧ componentRegistrations (dcr (register name ctor w).2) = componentRegistrations (dcr w)
  ∧ systemComponents (dcr (register name ctor w).2) = systemComponents (dcr w).
Proof.
  unfold register. destruct (omHas name _); [done|]. cbn.
  destruct (onIdRegistered _); [|done].
  unfold reserveComponentId. by destruct (bool_decide _).
Qed.

Lemma refresh_registrations w :
  registrationObjects (dcr (refreshStaticComponentIds w)) = registrationObjects (dcr w)
  ∧ hashedIdToRegistration (dcr (refreshStaticComponentIds w)) = hashedIdToRegistration (dcr w)
  ∧ nextDynamicId (dcr (refreshStaticComponentIds w)) = nextDynamicId (dcr w)
  ∧ componentRegistrations (dcr (refreshStaticComponentIds w)) = componentRegistrations (dcr w)
  ∧ systemComponents (dcr (refreshStaticComponentIds w)) = systemComponents (dcr w)
  ∧ componentRegistry (refreshStaticComponentIds w) = componentRegistry w.
Proof. done. Qed.

(** A declaration whose hashed id is free in the dynamic registry but taken
    in the component registry: [register] throws after an id was allocated. *)
Lemma defineComponent_blocked w S name sch now t :
  validateSchema sch = None →
  omGet (createHashedId S name) (hashedIdToRegistration (dcr w)) = None →
  getType (componentRegistry w) (createHashedId S name) = Some t →
  defineComponent name sch S now w =
    (Thrown (AlreadyRegistered (createHashedId S name)),
     with_dcr (refreshStaticComponentIds w)
       (allocateComponentId (dcr (refreshStaticComponentIds w))).2).
Proof.
  intros Hval Hfresh Htype. unfold defineComponent.
  rewrite Hval, Hfresh. cbn.
  unfold register. cbn. unfold getType in Htype. unfold omHas. by rewrite Htype.
Qed.

Lemma deref_heapUpdate {A} (h : Heap A) r f x :
  deref (heapUpdate r f h) x = if decide (r = x) then f <$> deref h x else deref h x.
Proof.
  unfold deref, heapUpdate. cbn. destruct (decide (r = x)) as [->|Hne].
  - by rewrite lookup_alter_eq.
  - by rewrite lookup_alter_ne.
Qed.

Lemma withSchema_consistent w r sch :
  consistent (dcr w) → consistent (dcr (withSchema w r sch)).
Proof.
  intros [H1 H2 H3 H4]. split; cbn; try done.
  - eapply Forall_impl; [exact H3|]. intros p (Hlt & reg & Hd & Hh & Hb).
    split; [done|]. rewrite deref_heapUpdate.
    destruct (decide (r = p.2)).
    + exists (set_schema reg sch). by rewrite Hd.
    + by exists reg.
  - unfold registrations in *. cbn.
    assert (∀ l, id <$> omap (deref (heapUpdate r (λ reg, set_schema reg sch)
                                       (registrationObjects (dcr w)))) l
                 = id <$> omap (deref (registrationObjects (dcr w))) l) as ->; [|done].
    induction l as [|x l IH]; cbn; [done|].
    rewrite deref_heapUpdate. destruct (decide (r = x));
      destruct (deref (registrationObjects (dcr w)) x); cbn; by rewrite ?IH.
Qed.

Lemma declaredIn_consistent w w' S name sch now t r cid :
  omGet (createHashedId S name) (hashedIdToRegistration (dcr w)) = None →
  declaredIn w w' S name sch now t r cid →
  consistent (dcr w) → consistent (dcr w').
Proof.
  intros Hfresh D Hc.
  pose proof (cons_next _ Hc) as H1. pose proof (cons_refs _ Hc) as H3.
  pose proof (decl_cid_ge _ _ _ _ _ _ _ _ _ D) as Hge.
  pose proof (decl_r _ _ _ _ _ _ _ _ _ D) as Hr.
  assert (Forall (λ p : string * nat,
                    deref (registrationObjects (dcr w')) p.2 =
                    deref (registrationObjects (dcr w)) p.2)
                 (hashedIdToRegistration (dcr w))) as Hsame.
  { eapply Forall_impl; [exact H3|]. intros p (Hlt & _).
    apply (decl_obj_frame _ _ _ _ _ _ _ _ _ D). lia. }
  split.
  - rewrite (decl_next _ _ _ _ _ _ _ _ _ D). lia.
  - rewrite (decl_hashed _ _ _ _ _ _ _ _ _ D). apply keys_omSet, (cons_keys _ Hc).
  - rewrite (decl_hashed _ _ _ _ _ _ _ _ _ D), (omSet_fresh _ _ _ Hfresh).
    rewrite (decl_next _ _ _ _ _ _ _ _ _ D), (decl_obj_next _ _ _ _ _ _ _ _ _ D).
    apply Forall_app. split.
    + apply Forall_forall. intros p Hp.
      pose proof (proj1 (Forall_forall _ _) H3 p Hp) as (Hlt & reg & Hd & Hh & Hb).
      pose proof (proj1 (Forall_forall _ _) Hsame p Hp) as Hs.
      split; [lia|]. exists reg. rewrite Hs. split_and!; try done; lia.
    + apply Forall_singleton. cbn. split; [lia|].
      eexists. split; [apply (decl_obj _ _ _ _ _ _ _ _ _ D)|]. cbn.
      split_and!; try done; lia.
  - unfold registrations, omValues.
    rewrite (decl_hashed _ _ _ _ _ _ _ _ _ D), (omSet_fresh _ _ _ Hfresh).
    rewrite fmap_app, omap_app. cbn -[deref]. rewrite (decl_obj _ _ _ _ _ _ _ _ _ D).
    assert (omap (deref (registrationObjects (dcr w'))) (hashedIdToRegistration (dcr w)).*2
            = registrations (dcr w)) as ->.
    { unfold registrations, omValues. clear -Hsame.
      induction Hsame as [|p l Hp _ IH]; cbn; [done|]. by rewrite Hp, IH. }
    rewrite fmap_app. cbn. apply NoDup_app. split_and!.
    + apply (cons_ids _ Hc).
    + intros i Hi. rewrite list_elem_of_singleton. intros ->.
      apply list_elem_of_fmap in Hi as (reg & Heq & Hreg).
      apply (registrations_elem _ _ Hc) in Hreg as [Hb _]. lia.
    + apply NoDup_singleton.
Qed.

Lemma defineComponent_consistent name sch sys now w :
  0 ≤ nextId (componentRegistry w) →
  consistent (dcr w) → consistent (dcr (defineComponent name sch sys now w).2).
Proof.
  intros Hn Hc.
  destruct (validateSchema sch) as [e|] eqn:Hval.
  { unfold defineComponent. by rewrite Hval. }
  destruct (omGet (createHashedId sys name) (hashedIdToRegistration (dcr w)))
    as [r|] eqn:Hget.
  - pose proof (omGet_Some_elem _ _ _ Hget) as Hin.
    pose proof (proj1 (Forall_forall _ _) (cons_refs _ Hc) _ Hin)
      as (_ & reg & Hd & _). cbn [snd] in Hd.
    unfold defineComponent. rewrite Hval, Hget. cbn -[deref]. rewrite Hd. cbn.
    destruct (decide _); [|done]. destruct (bool_decide _); [done|].
    apply (withSchema_consistent w r sch Hc).
  - destruct (getType (componentRegistry w) (createHashedId sys name)) as [t|] eqn:Ht.
    + rewrite (defineComponent_blocked _ _ _ _ now _ Hval Hget Ht). cbn.
      eapply consistent_frame; [| | |exact Hc]; try done.
      cbn. match goal with |- _ ≤ skipUsed ?f ?u ?n + 1 =>
             pose proof (skipUsed_ge f u n); lia end.
    + destruct (defineComponent_fresh w sys name sch now Hval Hget Ht Hn)
        as (w' & t & r & cid & Hd & D).
      rewrite Hd. cbn. by eapply declaredIn_consistent.
Qed.

(** One turn of the loop of [removeSystemComponents]. *)
Definition removeStep (sys : SystemId) (componentIds : gset ComponentId)
    (d : DynamicComponentRegistry) (registration : ComponentRegistration)
  : DynamicComponentRegistry :=
  if bool_decide (id registration ∈ componentIds)
  then
    {| registrationObjects := registrationObjects d;
       componentRegistrations :=
         delete (originalName registration +:+ ":" +:+ sys) (componentRegistrations d);
       systemComponents := systemComponents d;
       hashedIdToRegistration :=
         omDelete (hashedId registration) (hashedIdToRegistration d);
       usedIds := usedIds d ∖ {[id registration]};
       nextDynamicId := nextDynamicId d |}
  else d.

Lemma removeSystemComponents_unfold sys w :
  removeSystemComponents sys w =
    match systemComponents (dcr w) !! sys with
    | None => w
    | Some componentIds =>
        let d' := foldl (removeStep sys componentIds) (dcr w) (registrations (dcr w)) in
        with_dcr w
          {| registrationObjects := registrationObjects d';
             componentRegistrations := componentRegistrations d';
             systemComponents := delete sys (systemComponents d');
             hashedIdToRegistration := hashedIdToRegistration d';
             usedIds := usedIds d';
             nextDynamicId := nextDynamicId d' |}
    end.
Proof. reflexivity. Qed.

Lemma removeStep_fields sys ids d reg :
  registrationObjects (removeStep sys ids d reg) = registrationObjects d
  ∧ nextDynamicId (removeStep sys ids d reg) = nextDynamicId d
  ∧ systemComponents (removeStep sys ids d reg) = systemComponents d
  ∧ hashedIdToRegistration (removeStep sys ids d reg) `sublist_of` hashedIdToRegistration d
  ∧ componentRegistrations (removeStep sys ids d reg) ⊆ componentRegistrations d
  ∧ usedIds (removeStep sys ids d reg) ⊆ usedIds d.
Proof.
  unfold removeStep. destruct (bool_decide (id reg ∈ ids)); cbn; [|done].
  split_and!; try done.
  - apply omDelete_sublist.
  - apply delete_subseteq.
  - set_solver.
Qed.

Lemma removeStep_fold sys ids regs d :
  let d' := foldl (removeStep sys ids) d regs in
  registrationObjects d' = registrationObjects d
  ∧ nextDynamicId d' = nextDynamicId d
  ∧ systemComponents d' = systemComponents d
  ∧ hashedIdToRegistration d' `sublist_of` hashedIdToRegistration d
  ∧ componentRegistrations d' ⊆ componentRegistrations d
  ∧ usedIds d' ⊆ usedIds d.
Proof.
  revert d. induction regs as [|reg regs IH]; intros d; cbn [foldl]; [done|].
  destruct (IH (removeStep sys ids d reg)) as (H1 & H2 & H3 & H4 & H5 & H6).
  destruct (removeStep_fields sys ids d reg) as (G1 & G2 & G3 & G4 & G5 & G6).
  cbn zeta. rewrite H1, H2, H3. split_and!; try done; by etrans.
Qed.

Lemma removeStep_fold_deleted sys ids regs d reg :
  NoDup (hashedIdToRegistration d).*1 →
  reg ∈ regs → id reg ∈ ids →
  let d' := foldl (removeStep sys ids) d regs in
  omGet (hashedId reg) (hashedIdToRegistration d') = None
  ∧ componentRegistrations d' !! (originalName reg +:+ ":" +:+ sys) = None.
Proof.
  revert d. induction regs as [|reg0 regs IH]; intros d Hnd Hin Hid; cbn.
  { by apply elem_of_nil in Hin. }
  apply elem_of_cons in Hin as [<-|Hin].
  - destruct (removeStep_fold sys ids regs (removeStep sys ids d reg))
      as (_ & _ & _ & H4 & H5 & _).
    assert (removeStep sys ids d reg =
              {| registrationObjects := registrationObjects d;
                 componentRegistrations :=
                   delete (originalName reg +:+ ":" +:+ sys) (componentRegistrations d);
                 systemComponents := systemComponents d;
                 hashedIdToRegistration :=
                   omDelete (hashedId reg) (hashedIdToRegistration d);
                 usedIds := usedIds d ∖ {[id reg]};
                 nextDynamicId := nextDynamicId d |}) as Hstep.
    { unfold removeStep. by rewrite bool_decide_eq_true_2. }
    cbn zeta. split.
    + eapply omGet_sublist_None; [exact H4|]. rewrite Hstep. cbn.
      by apply omGet_omDelete_eq.
    + eapply lookup_weaken_None; [|exact H5]. rewrite Hstep. cbn.
      apply lookup_delete_eq.
  - apply IH; try done. unfold removeStep.
    destruct (bool_decide _); cbn; [by apply keys_omDelete|done].
Qed.

Lemma removeSystemComponents_consistent sys w :
  consistent (dcr w) → consistent (dcr (removeSystemComponents sys w)).
Proof.
  intros Hc. rewrite removeSystemComponents_unfold.
  destruct (systemComponents (dcr w) !! sys) as [ids|]; [|done].
  destruct (removeStep_fold sys ids (registrations (dcr w)) (dcr w))
    as (H1 & H2 & H3 & H4 & _). cbn in *.
  destruct Hc as [C1 C2 C3 C4]. split; cbn.
  - by rewrite H2.
  - eapply sublist_NoDup; [exact C2|]. by apply fmap_sublist.
  - rewrite H1, H2. by eapply Forall_sublist_of.
  - unfold registrations, omValues in *. cbn. rewrite H1.
    eapply sublist_NoDup; [exact C4|].
    by apply fmap_sublist, omap_sublist, fmap_sublist.
Qed.

Lemma clear_consistent w : consistent (dcr (clear w)).
Proof.
  split; cbn; [lia|apply NoDup_nil_2|apply Forall_nil_2|apply NoDup_nil_2].
Qed.

Lemma reachable_consistent w : reachable w → consistent (dcr w).
Proof.
  intros Hreach. induction Hreach as
    [statics|name label w Hr IH|name sch sys now w Hr IH|sys w Hr IH
    |i w Hr IH|n w Hr IH|w Hr IH|w Hr IH].
  - split; cbn; [lia|apply NoDup_nil_2|apply Forall_nil_2|apply NoDup_nil_2].
  - destruct (register_registrations name (UserClass label) w) as (H1 & H2 & H3 & _).
    eapply consistent_frame; [exact H1|exact H2| |exact IH]. lia.
  - apply defineComponent_consistent; [by apply reachable_nextId|done].
  - by apply removeSystemComponents_consistent.
  - eapply consistent_frame; [| | |exact IH]; cbn;
      unfold reserveComponentId; destruct (bool_decide _); cbn; done.
  - eapply consistent_frame; [| | |exact IH]; cbn;
      unfold configureDynamicIdStart; repeat case_bool_decide; cbn; try done; lia.
  - eapply consistent_frame; [| | |exact IH]; done.
  - apply clear_consistent.
Qed.

Lemma registrations_hashedIds d :
  consistent d → hashedId <$> registrations d = (hashedIdToRegistration d).*1.
Proof.
  intros Hc. pose proof (cons_refs _ Hc) as H. unfold registrations, omValues.
  induction H as [|[k r] m (_ & reg & Hd & Hh & _) _ IH]; cbn -[deref] in *; [done|].
  rewrite Hd. cbn. by rewrite IH, Hh.
Qed.

(** In every reachable runtime the registered record types carry pairwise
    distinct numeric ids, all of at least 1000 and below [nextDynamicId], and
    pairwise distinct hashed ids. *)
Theorem dynamic_ids_distinct (w : Runtime) :
  reachable w →
  1000 ≤ nextDynamicId (dcr w)
  ∧ NoDup (id <$> registrations (dcr w))
  ∧ NoDup (hashedId <$> registrations (dcr w))
  ∧ Forall (λ reg, 1000 ≤ id reg < nextDynamicId (dcr w)) (registrations (dcr w)).
Proof.
  intros Hreach. pose proof (reachable_consistent w Hreach) as Hc.
  split_and!.
  - apply (cons_next _ Hc).
  - apply (cons_ids _ Hc).
  - rewrite (registrations_hashedIds _ Hc). apply (cons_keys _ Hc).
  - apply Forall_forall. intros reg Hreg.
    by apply (registrations_elem _ _ Hc) in Hreg as [? _].
Qed.

Lemma dynamic_ids_distinct_witness :
  let w := (defineComponent "Velocity" (simpleSchema 1) "Movement" 2
              (defineComponent "Position" (simpleSchema 1) "Movement" 1 initial).2).2 in
  reachable w
  ∧ 1000 ≤ nextDynamicId (dcr w)
  ∧ NoDup (id <$> registrations (dcr w))
  ∧ NoDup (hashedId <$> registrations (dcr w))
  ∧ Forall (λ reg, 1000 ≤ id reg < nextDynamicId (dcr w)) (registrations (dcr w)).
Proof.
  intros w.
  assert (reachable w) as Hreach by (do 2 apply reach_define; apply reachable_initial).
  split; [exact Hreach|]. exact (dynamic_ids_distinct w Hreach).
Defined.

(** The id a first declaration allocates is recorded for the declaring
    system. *)
Lemma defineComponent_fresh_systems w w' S name sch now t r cid :
  validateSchema sch = None →
  omGet (createHashedId S name) (hashedIdToRegistration (dcr w)) = None →
  getType (componentRegistry w) (createHashedId S name) = None →
  0 ≤ nextId (componentRegistry w) →
  defineComponent name sch S now w = (Returned (Some t), w') →
  declaredIn w w' S name sch now t r cid →
  systemComponents (dcr w') =
    <[S := {[cid]} ∪ default ∅ (systemComponents (dcr w) !! S)]> (systemComponents (dcr w)).
Proof.
  intros Hval Hfresh Htype Hnext Hdef D.
  pose proof (decl_obj _ _ _ _ _ _ _ _ _ D) as Hobj.
  pose proof (decl_r _ _ _ _ _ _ _ _ _ D) as Hr.
  revert Hdef. unfold defineComponent.
  rewrite Hval, Hfresh. cbn.
  unfold register. cbn. unfold getType in Htype. unfold omHas. rewrite Htype.
  destruct (onIdRegistered (componentRegistry w)) eqn:Hcb.
  - unfold reserveComponentId. cbn.
    rewrite bool_decide_eq_false_2 by lia. cbn.
    intros [= <- <-]. cbn in *. unfold deref in Hobj. cbn in Hobj.
    rewrite Hr, lookup_insert_eq in Hobj. by injection Hobj as <-.
  - cbn. intros [= <- <-]. cbn in *. unfold deref in Hobj. cbn in Hobj.
    rewrite Hr, lookup_insert_eq in Hobj. by injection Hobj as <-.
Qed.

(** A record type that was removed with its system cannot be declared
    again: [removeSystemComponents] forgets the registration but the
    component registry keeps the type under the hashed id, so the next
    declaration of the same name by the same system throws, after it has
    used up one more id. *)
Theorem removed_component_cannot_be_redeclared (w : Runtime) (S : SystemId)
    (name : string) (sch sch' : ComponentSchema) (now now' : Z) :
  reachable w →
  validateSchema sch = None →
  validateSchema sch' = None →
  undeclared w S name →
  ∃ t w1,
    defineComponent name sch S now w = (Returned (Some t), w1)
    ∧ let w2 := removeSystemComponents S w1 in
      hasComponent w2 name S = false
      ∧ getComponentId w2 name S = None
      ∧ getSystemComponents w2 S = []
      ∧ getComponentType w2 name S = Some t
      ∧ ∃ w3,
          defineComponent name sch' S now' w2 =
            (Thrown (AlreadyRegistered (createHashedId S name)), w3)
          ∧ nextDynamicId (dcr w2) < nextDynamicId (dcr w3)
          ∧ hasComponent w3 name S = false.
Proof.
  intros Hreach Hv Hv' [Hf Ht].
  pose proof (reachable_nextId _ Hreach) as Hn.
  destruct (defineComponent_fresh w S name sch now Hv Hf Ht Hn)
    as (w1 & t & r & cid & Hd & D).
  pose proof (defineComponent_fresh_systems _ _ _ _ _ _ _ _ _ Hv Hf Ht Hn Hd D) as Hsys.
  assert (reachable w1) as Hreach1.
  { replace w1 with (defineComponent name sch S now w).2 by by rewrite Hd.
    by apply reach_define. }
  pose proof (reachable_consistent _ Hreach1) as Hc1.
  exists t, w1. split; [exact Hd|]. cbn zeta.
  set (reg := mkRegistration cid (createHashedId S name) name S sch now).
  set (ids := {[cid]} ∪ default ∅ (systemComponents (dcr w) !! S)) in Hsys.
  assert (systemComponents (dcr w1) !! S = Some ids) as Hids
    by (rewrite Hsys; apply lookup_insert_eq).
  assert (reg ∈ registrations (dcr w1)) as Hreg.
  { unfold registrations, omValues. apply list_elem_of_omap. exists r. split.
    - apply list_elem_of_fmap. exists (createHashedId S name, r). split; [done|].
      apply omGet_Some_elem. rewrite (decl_hashed _ _ _ _ _ _ _ _ _ D).
      apply omGet_omSet_eq.
    - apply (decl_obj _ _ _ _ _ _ _ _ _ D). }
  destruct (removeStep_fold_deleted S ids (registrations (dcr w1)) (dcr w1) reg
              (cons_keys _ Hc1) Hreg) as [Hgone Hkey].
  { cbn. set_solver. }
  cbn in Hgone, Hkey.
  assert (omGet (createHashedId S name)
            (hashedIdToRegistration (dcr (removeSystemComponents S w1))) = None) as Hgone2.
  { rewrite removeSystemComponents_unfold, Hids. exact Hgone. }
  assert (componentRegistrations (dcr (removeSystemComponents S w1))
            !! (name +:+ ":" +:+ S) = None) as Hkey2.
  { rewrite removeSystemComponents_unfold, Hids. exact Hkey. }
  assert (getType (componentRegistry (removeSystemComponents S w1))
            (createHashedId S name) = Some t) as Htype2.
  { rewrite removeSystemComponents_cr. unfold getType.
    rewrite (decl_components _ _ _ _ _ _ _ _ _ D). apply omGet_omSet_eq. }
  split_and!.
  - unfold hasComponent. rewrite Hkey2. apply bool_decide_eq_false_2. by intros [? ?].
  - unfold getComponentId, getComponentRegistration. by rewrite Hkey2.
  - unfold getSystemComponents. rewrite removeSystemComponents_unfold, Hids. cbn.
    destruct (removeStep_fold S ids (registrations (dcr w1)) (dcr w1))
      as (_ & _ & Hs & _). cbn in Hs. by rewrite Hs, lookup_delete_eq.
  - exact Htype2.
  - eexists. split; [apply (defineComponent_blocked _ _ _ _ _ t Hv' Hgone2 Htype2)|].
    split.
    + cbn. match goal with |- _ < skipUsed ?f ?u ?n + 1 =>
             pose proof (skipUsed_ge f u n) as Hge end.
      cbn in Hge. lia.
    + unfold hasComponent. cbn. rewrite Hkey2. apply bool_decide_eq_false_2.
      by intros [? ?].
Qed.

Lemma removed_component_cannot_be_redeclared_witness :
  ∃ t w1,
    defineComponent "Position" (simpleSchema 1) "Movement" 1 initial
      = (Returned (Some t), w1)
    ∧ let w2 := removeSystemComponents "Movement" w1 in
      hasComponent w2 "Position" "Movement" = false
      ∧ getComponentId w2 "Position" "Movement" = None
      ∧ getSystemComponents w2 "Movement" = []
      ∧ getComponentType w2 "Position" "Movement" = Some t
      ∧ ∃ w3,
          defineComponent "Position" (simpleSchema 2) "Movement" 2 w2 =
            (Thrown (AlreadyRegistered (createHashedId "Movement" "Position")), w3)
          ∧ nextDynamicId (dcr w2) < nextDynamicId (dcr w3)
          ∧ hasComponent w3 "Position" "Movement" = false.
Proof.
  apply (removed_component_cannot_be_redeclared initial "Movement" "Position"
           (simpleSchema 1) (simpleSchema 2) 1 2).
  - apply reachable_initial.
  - reflexivity.
  - reflexivity.
  - split; vm_compute; reflexivity.
Defined.

(** The registrations are keyed by [name + ':' + systemId], the hashed ids
    by [systemId + ':' + name]. Two declarations whose keys of the first kind
    coincide (a colon in a name or in a system id allows it) while their
    hashed ids differ both succeed, and the second takes over the key: the
    first system's lookups by name return the second system's registration
    and id, while its lookup of the component type still returns its own
    type, which carries another id. *)
Theorem namespaced_key_collision (w : Runtime) (S1 S2 : SystemId)
    (name1 name2 : string) (sch1 sch2 : ComponentSchema) (now1 now2 : Z) :
  reachable w →
  validateSchema sch1 = None →
  validateSchema sch2 = None →
  name1 +:+ ":" +:+ S1 = name2 +:+ ":" +:+ S2 →
  createHashedId S1 name1 ≠ createHashedId S2 name2 →
  undeclared w S1 name1 →
  undeclared w S2 name2 →
  ∃ t1 w1 t2 w2 reg2 c1,
    defineComponent name1 sch1 S1 now1 w = (Returned (Some t1), w1)
    ∧ defineComponent name2 sch2 S2 now2 w1 = (Returned (Some t2), w2)
    ∧ getComponentId w1 name1 S1 = Some c1
    ∧ getComponentRegistration w2 name1 S1 = Some reg2
    ∧ (systemId reg2 = S2 ∧ originalName reg2 = name2 ∧ schema reg2 = sch2)
    ∧ getComponentId w2 name1 S1 = Some (id reg2)
    ∧ id reg2 ≠ c1
    ∧ getComponentType w2 name1 S1 = Some t1
    ∧ (ct_id <$> deref (typeObjects (componentRegistry w2)) t1) = Some c1.
Proof.
  intros Hreach Hv1 Hv2 Hkey Hh [Hf1 Ht1] [Hf2 Ht2].
  pose proof (reachable_nextId _ Hreach) as Hn.
  destruct (defineComponent_fresh w S1 name1 sch1 now1 Hv1 Hf1 Ht1 Hn)
    as (w1 & t1 & r1 & c1 & Hd1 & D1).
  assert (omGet (createHashedId S2 name2)
            (hashedIdToRegistration (dynamicComponentRegistry w1)) = None) as Hf2'.
  { rewrite (decl_hashed _ _ _ _ _ _ _ _ _ D1). by rewrite omGet_omSet_ne. }
  assert (getType (componentRegistry w1) (createHashedId S2 name2) = None) as Ht2'.
  { unfold getType. rewrite (decl_components _ _ _ _ _ _ _ _ _ D1).
    by rewrite omGet_omSet_ne. }
  assert (0 ≤ nextId (componentRegistry w1)) as Hn1.
  { rewrite (decl_nextId _ _ _ _ _ _ _ _ _ D1). lia. }
  destruct (defineComponent_fresh w1 S2 name2 sch2 now2 Hv2 Hf2' Ht2' Hn1)
    as (w2 & t2 & r2 & c2 & Hd2 & D2).
  assert (t2 = Datatypes.S t1) as Ht.
  { rewrite (decl_t _ _ _ _ _ _ _ _ _ D2). apply (decl_type_next _ _ _ _ _ _ _ _ _ D1). }
  assert (getComponentRegistration w2 name1 S1 =
            Some (mkRegistration c2 (createHashedId S2 name2) name2 S2 sch2 now2)) as G2.
  { unfold getComponentRegistration.
    rewrite (decl_keys _ _ _ _ _ _ _ _ _ D2), Hkey, lookup_insert_eq. cbn.
    apply (decl_obj _ _ _ _ _ _ _ _ _ D2). }
  exists t1, w1, t2, w2. eexists _, c1.
  split; [exact Hd1|]. split; [exact Hd2|]. split_and!.
  - unfold getComponentId, getComponentRegistration.
    rewrite (decl_keys _ _ _ _ _ _ _ _ _ D1), lookup_insert_eq. cbn.
    by rewrite (decl_obj _ _ _ _ _ _ _ _ _ D1).
  - exact G2.
  - done.
  - done.
  - done.
  - unfold getComponentId. by rewrite G2.
  - cbn. pose proof (decl_cid_ge _ _ _ _ _ _ _ _ _ D2) as Hge.
    rewrite (decl_next _ _ _ _ _ _ _ _ _ D1) in Hge. lia.
  - unfold getComponentType, getType.
    rewrite (decl_components _ _ _ _ _ _ _ _ _ D2), omGet_omSet_ne by done.
    by rewrite (decl_components _ _ _ _ _ _ _ _ _ D1), omGet_omSet_eq.
  - rewrite (decl_type_frame _ _ _ _ _ _ _ _ _ D2) by lia.
    by rewrite (decl_type _ _ _ _ _ _ _ _ _ D1).
Qed.

Lemma namespaced_key_collision_witness :
  ∃ t1 w1 t2 w2 reg2 c1,
    defineComponent "Stats" (simpleSchema 1) "game:ui" 1 initial
      = (Returned (Some t1), w1)
    ∧ defineComponent "Stats:game" (simpleSchema 1) "ui" 2 w1
      = (Returned (Some t2), w2)
    ∧ getComponentId w1 "Stats" "game:ui" = Some c1
    ∧ getComponentRegistration w2 "Stats" "game:ui" = Some reg2
    ∧ (systemId reg2 = "ui" ∧ originalName reg2 = "Stats:game"
       ∧ schema reg2 = simpleSchema 1)
    ∧ getComponentId w2 "Stats" "game:ui" = Some (id reg2)
    ∧ id reg2 ≠ c1
    ∧ getComponentType w2 "Stats" "game:ui" = Some t1
    ∧ (ct_id <$> deref (typeObjects (componentRegistry w2)) t1) = Some c1.
Proof.
  apply (namespaced_key_collision initial "game:ui" "ui" "Stats" "Stats:game"
           (simpleSchema 1) (simpleSchema 1) 1 2).
  - apply reachable_initial.
  - reflexivity.
  - reflexivity.
  - reflexivity.
  - vm_compute. discriminate.
  - split; vm_compute; reflexivity.
  - split; vm_compute; reflexivity.
Defined.

Lemma defineComponent_fresh_cid w w' S name sch now t r cid :
  validateSchema sch = None →
  omGet (createHashedId S name) (hashedIdToRegistration (dcr w)) = None →
  getType (componentRegistry w) (createHashedId S name) = None →
  0 ≤ nextId (componentRegistry w) →
  defineComponent name sch S now w = (Returned (Some t), w') →
  declaredIn w w' S name sch now t r cid →
  cid = (allocateComponentId (dcr (refreshStaticComponentIds w))).1.
Proof.
  intros Hval Hfresh Htype Hnext Hdef D.
  pose proof (decl_obj _ _ _ _ _ _ _ _ _ D) as Hobj.
  pose proof (decl_r _ _ _ _ _ _ _ _ _ D) as Hr.
  revert Hdef. unfold defineComponent.
  rewrite Hval, Hfresh. cbn.
  unfold register. cbn. unfold getType in Htype. unfold omHas. rewrite Htype.
  destruct (onIdRegistered (componentRegistry w)) eqn:Hcb.
  - unfold reserveComponentId. cbn.
    rewrite bool_decide_eq_false_2 by lia. cbn.
    intros [= <- <-]. cbn in *. unfold deref in Hobj. cbn in Hobj.
    rewrite Hr, lookup_insert_eq in Hobj. by injection Hobj as <-.
  - cbn. intros [= <- <-]. cbn in *. unfold deref in Hobj. cbn in Hobj.
    rewrite Hr, lookup_insert_eq in Hobj. by injection Hobj as <-.
Qed.

(** A first declaration in a reachable runtime gets the least id from
    [nextDynamicId] on that is neither reserved (among the ids from 1000 on)
    nor the id of a component type the component registry holds, built-in or
    declared, also one whose registration was removed or cleared since: no
    id is handed out twice. *)
Theorem fresh_declaration_id (w : Runtime) (S : SystemId) (name : string)
    (sch : ComponentSchema) (now : Z) :
  reachable w →
  validateSchema sch = None →
  undeclared w S name →
  ∃ t w' reg,
    defineComponent name sch S now w = (Returned (Some t), w')
    ∧ getComponentRegistration w' name S = Some reg
    ∧ nextDynamicId (dcr w) ≤ id reg
    ∧ (id reg ∉ usedIds (dcr w))
    ∧ Forall (λ ty, ct_id ty ≠ id reg) (getAllTypes (componentRegistry w))
    ∧ (∀ j, nextDynamicId (dcr w) ≤ j < id reg →
            j ∈ usedIds (dcr w)
            ∨ j ∈ ct_id <$> getAllTypes (componentRegistry w))
    ∧ nextDynamicId (dcr w') = id reg + 1.
Proof.
  intros Hreach Hv [Hf Ht].
  pose proof (reachable_nextId _ Hreach) as Hn.
  pose proof (cons_next _ (reachable_consistent _ Hreach)) as Hnext.
  destruct (defineComponent_fresh w S name sch now Hv Hf Ht Hn)
    as (w' & t & r & cid & Hd & D).
  pose proof (defineComponent_fresh_cid _ _ _ _ _ _ _ _ _ Hv Hf Ht Hn Hd D) as Hcid.
  pose proof (skipUsed_ge (size (usedIds (dcr (refreshStaticComponentIds w))))
                (usedIds (dcr (refreshStaticComponentIds w)))
                (nextDynamicId (dcr (refreshStaticComponentIds w)))) as Hge.
  destruct (skipUsed_least (size (usedIds (dcr (refreshStaticComponentIds w))))
              (usedIds (dcr (refreshStaticComponentIds w)))
              (nextDynamicId (dcr (refreshStaticComponentIds w)))) as [Hout Hleast].
  { apply subseteq_size. intros i. rewrite elem_of_filter. tauto. }
  change (skipUsed _ _ _) with (allocateComponentId (dcr (refreshStaticComponentIds w))).1
    in Hge, Hout, Hleast.
  rewrite <-Hcid in Hge, Hout, Hleast.
  cbn in Hge, Hout, Hleast.
  exists t, w', (mkRegistration cid (createHashedId S name) name S sch now).
  split; [exact Hd|]. split_and!; cbn.
  - unfold getComponentRegistration.
    rewrite (decl_keys _ _ _ _ _ _ _ _ _ D), lookup_insert_eq. cbn.
    apply (decl_obj _ _ _ _ _ _ _ _ _ D).
  - done.
  - intros Hin. apply Hout. apply elem_of_union. left.
    apply elem_of_filter. split; [lia|done].
  - apply Forall_forall. intros ty Hty Heq. apply Hout.
    apply elem_of_union. right. apply elem_of_list_to_set.
    apply list_elem_of_filter. split; [lia|].
    apply list_elem_of_fmap. by exists ty.
  - intros j Hj. pose proof (Hleast j Hj) as Hin.
    apply elem_of_union in Hin as [Hin|Hin].
    + left. by apply elem_of_filter in Hin as [_ ?].
    + right. apply elem_of_list_to_set in Hin.
      by apply list_elem_of_filter in Hin as [_ ?].
  - apply (decl_next _ _ _ _ _ _ _ _ _ D).
Qed.

Lemma fresh_declaration_id_witness :
  ∃ t w' reg,
    defineComponent "Position" (simpleSchema 1) "Movement" 1 initial
      = (Returned (Some t), w')
    ∧ getComponentRegistration w' "Position" "Movement" = Some reg
    ∧ nextDynamicId (dcr initial) ≤ id reg
    ∧ (id reg ∉ usedIds (dcr initial))
    ∧ Forall (λ ty, ct_id ty ≠ id reg) (getAllTypes (componentRegistry initial))
    ∧ (∀ j, nextDynamicId (dcr initial) ≤ j < id reg →
            j ∈ usedIds (dcr initial)
            ∨ j ∈ ct_id <$> getAllTypes (componentRegistry initial))
    ∧ nextDynamicId (dcr w') = id reg + 1.
Proof.
  apply (fresh_declaration_id initial "Movement" "Position" (simpleSchema 1) 1).
  - apply reachable_initial.
  - reflexivity.
  - split; vm_compute; reflexivity.
Defined.

End RegistryInvariants.

(** * System metrics ([system-loader/system-metrics.ts]) *)

Module Metrics.

(** [SystemMetrics]; the time fields are carried along, the functions
    embedded here never compute with them. *)
Record SystemMetrics : Type := mkMetrics {
  executionCount : Z;
  totalExecutionTime : Z;
  averageExecutionTime : Z;
  gasUsed : Z;
  entitiesCreated : Z;
  componentsCreated : Z;
  memoryUsage : Z;
  errorCount : Z;
  lastError : option string;
  lastExecutionTime : Z;
}.

Record ExecutionTrace : Type := mkTrace {
  timestamp : Z;
  operation : string;
  systemId : SystemId;
  entityId : option Z;
  componentId : option ComponentId;
  traceGasUsed : Z;
  duration : Z;
  success : bool;
  error : option string;
}.

Record ResourceUsage : Type := mkUsage {
  usageEntitiesCreated : Z;
  usageComponentsCreated : Z;
  memoryUsageMB : Z;
  usageGasUsed : Z;
  executionTimeMs : Z;
}.

Record SystemMetricsCollector : Type := mkCollector {
  systemMetrics : gmap SystemId SystemMetrics;
  executionTraces : gmap SystemId (list ExecutionTrace);
  maxTraceHistory : Z;
  isTracingEnabled : bool;
}.

Definition new : SystemMetricsCollector :=
  {| systemMetrics := ∅; executionTraces := ∅;
     maxTraceHistory := 1000; isTracingEnabled := false |}.

Definition set_systemMetrics (c : SystemMetricsCollector)
    (m : gmap SystemId SystemMetrics) : SystemMetricsCollector :=
  {| systemMetrics := m; executionTraces := executionTraces c;
     maxTraceHistory := maxTraceHistory c; isTracingEnabled := isTracingEnabled c |}.
Definition set_executionTraces (c : SystemMetricsCollector)
    (t : gmap SystemId (list ExecutionTrace)) : SystemMetricsCollector :=
  {| systemMetrics := systemMetrics c; executionTraces := t;
     maxTraceHistory := maxTraceHistory c; isTracingEnabled := isTracingEnabled c |}.

(** [initializeSystem(systemId)] *)
Definition initializeSystem (sys : SystemId) (c : SystemMetricsCollector)
  : SystemMetricsCollector :=
  {| systemMetrics :=
       <[sys := {| executionCount := 0; totalExecutionTime := 0;
                   averageExecutionTime := 0; gasUsed := 0; entitiesCreated := 0;
                   componentsCreated := 0; memoryUsage := 0; errorCount := 0;
                   lastError := None; lastExecutionTime := 0 |}]> (systemMetrics c);
     executionTraces := <[sys := []]> (executionTraces c);
     maxTraceHistory := maxTraceHistory c;
     isTracingEnabled := isTracingEnabled c |}.

(** [addTrace(systemId, trace)]: push, then splice the oldest entries off
    when the list is longer than [maxTraceHistory]. *)
Definition addTrace (sys : SystemId) (trace : ExecutionTrace)
    (c : SystemMetricsCollector) : SystemMetricsCollector :=
  let traces := default [] (executionTraces c !! sys) ++ [trace] in
  let traces' :=
    if bool_decide (Z.of_nat (length traces) > maxTraceHistory c)
    then drop (Z.to_nat (Z.of_nat (length traces) - maxTraceHistory c)) traces
    else traces in
  set_executionTraces c (<[sys := traces']> (executionTraces c)).

(** [recordEntityCreation(systemId, entityId, gasUsed)]; [now] is
    [Date.now()]. *)
Definition recordEntityCreation (sys : SystemId) (entity : Z) (gas : Z) (now : Z)
    (c : SystemMetricsCollector) : SystemMetricsCollector :=
  let c1 :=
    match systemMetrics c !! sys with
    | Some m =>
        set_systemMetrics c
          (<[sys := {| executionCount := executionCount m;
                       totalExecutionTime := totalExecutionTime m;
                       averageExecutionTime := averageExecutionTime m;
                       gasUsed := gasUsed m;
                       entitiesCreated := entitiesCreated m + 1;
                       componentsCreated := componentsCreated m;
                       memoryUsage := memoryUsage m;
                       errorCount := errorCount m;
                       lastError := lastError m;
                       lastExecutionTime := lastExecutionTime m |}]> (systemMetrics c))
    | None => c
    end in
  if isTracingEnabled c1
  then addTrace sys
         {| timestamp := now; operation := "create_entity"; systemId := sys;
            entityId := Some entity; componentId := None; traceGasUsed := gas;
            duration := 0; success := true; error := None |} c1
  else c1.

(** [getSystemMetrics(systemId)] *)
Definition getSystemMetrics (c : SystemMetricsCollector) (sys : SystemId)
  : option SystemMetrics := systemMetrics c !! sys.

(** [getResourceUsage(systemId)] *)
Definition getResourceUsage (c : SystemMetricsCollector) (sys : SystemId)
  : ResourceUsage :=
  match systemMetrics c !! sys with
  | None =>
      {| usageEntitiesCreated := 0; usageComponentsCreated := 0; memoryUsageMB := 0;
         usageGasUsed := 0; executionTimeMs := 0 |}
  | Some m =>
      {| usageEntitiesCreated := entitiesCreated m;
         usageComponentsCreated := componentsCreated m;
         memoryUsageMB := memoryUsage m;
         usageGasUsed := gasUsed m;
         executionTimeMs := totalExecutionTime m |}
  end.

(** [getExecutionTraces(systemId)] *)
Definition getExecutionTraces (c : SystemMetricsCollector) (sys : SystemId)
  : list ExecutionTrace := default [] (executionTraces c !! sys).

(** [setTracingEnabled(enabled)] *)
Definition setTracingEnabled (enabled : bool) (c : SystemMetricsCollector)
  : SystemMetricsCollector :=
  {| systemMetrics := systemMetrics c; executionTraces := executionTraces c;
     maxTraceHistory := maxTraceHistory c; isTracingEnabled := enabled |}.

(** [removeSystem(systemId)] *)
Definition removeSystem (sys : SystemId) (c : SystemMetricsCollector)
  : SystemMetricsCollector :=
  {| systemMetrics := delete sys (systemMetrics c);
     executionTraces := delete sys (executionTraces c);
     maxTraceHistory := maxTraceHistory c; isTracingEnabled := isTracingEnabled c |}.

End Metrics.

(** * The capability context of a user system
      ([system-loader/enhanced-system-context.ts]) *)

Module SystemContext.

Section WithWorld.

(** The world (entity allocator, archetypes) and the checks of component
    data against a schema are not part of this development: the context is
    embedded over any world, whose methods may change it and may throw, and
    over any data validator. The world receives component types by
    reference and may read the registries. *)
Context {World WorldExn Data DataError : Type}.
Variable worldCreateEntity : Exec World WorldExn Entity.
Variable worldDestroyEntity : Entity → Exec World WorldExn unit.
Variable worldAddComponent : Entity → nat → Data → Registry.Runtime → Exec World WorldExn unit.
Variable worldRemoveComponent : Entity → nat → Registry.Runtime → Exec World WorldExn unit.
Variable worldGetComponent :
  Entity → nat → Registry.Runtime → Exec World WorldExn (option Data).
Variable validateData : Data → Schema.ComponentSchema → option DataError.

(** The objects a context works on: its world and gas tracker, and the
    module-level singletons. *)
Record State : Type := mkState {
  world : World;
  gasTracker : Gas.GasTracker;
  entityAccessControl : AccessControl.EntityAccessControl;
  registries : Registry.Runtime;
  systemMetricsCollector : Metrics.SystemMetricsCollector;
}.

Inductive Error : Type :=
| GasError (e : Gas.Error)
| AccessError (e : AccessControl.Error)
| ComponentNotFound (name : string) (sys : SystemId)
| ValidationError (e : Registry.Error)
| InvalidData (e : DataError)
| WorldError (e : WorldExn).

Definition set_world (s : State) (w : World) : State :=
  {| world := w; gasTracker := gasTracker s;
     entityAccessControl := entityAccessControl s; registries := registries s;
     systemMetricsCollector := systemMetricsCollector s |}.
Definition set_gasTracker (s : State) (g : Gas.GasTracker) : State :=
  {| world := world s; gasTracker := g;
     entityAccessControl := entityAccessControl s; registries := registries s;
     systemMetricsCollector := systemMetricsCollector s |}.
Definition set_entityAccessControl (s : State) (ac : AccessControl.EntityAccessControl)
  : State :=
  {| world := world s; gasTracker := gasTracker s;
     entityAccessControl := ac; registries := registries s;
     systemMetricsCollector := systemMetricsCollector s |}.
Definition set_systemMetricsCollector (s : State) (c : Metrics.SystemMetricsCollector)
  : State :=
  {| world := world s; gasTracker := gasTracker s;
     entityAccessControl := entityAccessControl s; registries := registries s;
     systemMetricsCollector := c |}.

(** Calls on the parts of the state. *)
Definition onGas {A} (m : Exec Gas.GasTracker Gas.Error A) : Exec State Error A :=
  λ s, match m (gasTracker s) with
       | (Returned a, g) => (Returned a, set_gasTracker s g)
       | (Thrown e, g) => (Thrown (GasError e), set_gasTracker s g)
       end.
Definition onAccess {A} (m : Exec AccessControl.EntityAccessControl AccessControl.Error A)
  : Exec State Error A :=
  λ s, match m (entityAccessControl s) with
       | (Returned a, ac) => (Returned a, set_entityAccessControl s ac)
       | (Thrown e, ac) => (Thrown (AccessError e), set_entityAccessControl s ac)
       end.
Definition onWorld {A} (m : Exec World WorldExn A) : Exec State Error A :=
  λ s, match m (world s) with
       | (Returned a, w) => (Returned a, set_world s w)
       | (Thrown e, w) => (Thrown (WorldError e), set_world s w)
       end.

(** The context of the system [systemId]. *)
Variable systemId : SystemId.

Local Open Scope exec_scope.

(** [createEntity(options)]; [now] and [now'] are the two readings of
    [Date.now()]. *)
Definition createEntity (options : AccessControl.CreateEntityOptions) (now now' : Z)
  : Exec State Error Entity :=
  onGas (Gas.consumeGas Gas.OpEntityCreate None) ;;
  let* entity := onWorld worldCreateEntity in
  modify (λ s, set_entityAccessControl s
                 (AccessControl.registerEntity entity systemId options now
                    (entityAccessControl s))) ;;
  modify (λ s, set_systemMetricsCollector s
                 (Metrics.recordEntityCreation systemId (id entity)
                    (Gas.getGasUsed (gasTracker s)) now'
                    (systemMetricsCollector s))) ;;
  ret entity.

(** [deleteEntity(entity)] *)
Definition deleteEntity (entity : Entity) : Exec State Error unit :=
  onGas (Gas.consumeGas Gas.OpEntityDestroy None) ;;
  onAccess (AccessControl.validateAccess entity systemId DELETE) ;;
  modify (λ s, set_entityAccessControl s
                 (AccessControl.unregisterEntity entity (entityAccessControl s))) ;;
  onWorld (worldDestroyEntity entity).

(** [getComponentId(name)] *)
Definition getComponentId (s : State) (name : string) : option ComponentId :=
  Registry.getComponentId (registries s) name systemId.

(** [dynamicComponentRegistry.validateComponentData(data, name, systemId)] *)
Definition validateComponentData (data : Data) (name : string) : Exec State Error unit :=
  λ s,
  match Registry.getComponentRegistration (registries s) name systemId with
  | None => (Thrown (ValidationError (Registry.ComponentNotFound name systemId)), s)
  | Some registration =>
      match validateData data (Registry.schema registration) with
      | Some e => (Thrown (InvalidData e), s)
      | None => (Returned tt, s)
      end
  end.

(** What [addComponent] and [updateComponent] do after the gas charge. *)
Definition storeComponent (entity : Entity) (componentName : string) (data : Data)
  : Exec State Error unit :=
  onAccess (AccessControl.validateAccess entity systemId WRITE) ;;
  let* s := get in
  match Registry.getComponentType (registries s) componentName systemId with
  | None => throw (ComponentNotFound componentName systemId)
  | Some componentType =>
      validateComponentData data componentName ;;
      onWorld (worldAddComponent entity componentType data (registries s))
  end.

(** [addComponent(entity, componentName, data)] *)
Definition addComponent (entity : Entity) (componentName : string) (data : Data)
  : Exec State Error unit :=
  onGas (Gas.consumeGas Gas.OpAddComponent None) ;;
  storeComponent entity componentName data.

(** [updateComponent(entity, componentName, data)] *)
Definition updateComponent (entity : Entity) (componentName : string) (data : Data)
  : Exec State Error unit :=
  onGas (Gas.consumeGas Gas.OpUpdateComponent None) ;;
  storeComponent entity componentName data.

(** [removeComponent(entity, componentName)] *)
Definition removeComponent (entity : Entity) (componentName : string)
  : Exec State Error unit :=
  onGas (Gas.consumeGas Gas.OpRemoveComponent None) ;;
  onAccess (AccessControl.validateAccess entity systemId WRITE) ;;
  let* s := get in
  match Registry.getComponentType (registries s) componentName systemId with
  | Some componentType =>
      onWorld (worldRemoveComponent entity componentType (registries s))
  | None => ret tt
  end.

(** [getComponent(entity, componentName)] *)
Definition getComponent (entity : Entity) (componentName : string)
  : Exec State Error (option Data) :=
  onGas (Gas.consumeGas Gas.OpComponentAccess None) ;;
  onAccess (AccessControl.validateAccess entity systemId READ) ;;
  let* s := get in
  match Registry.getComponentType (registries s) componentName systemId with
  | None => ret None
  | Some componentType =>
      onWorld (worldGetComponent entity componentType (registries s))
  end.

(** [grantAccess(entity, targetSystemId, permissions)] *)
Definition grantAccess (entity : Entity) (targetSystemId : SystemId)
    (permissions : list Permission) : Exec State Error unit :=
  onAccess (AccessControl.grantAccess entity systemId targetSystemId permissions).

(** [requestAccess(entity, permissions)] *)
Definition requestAccess (s : State) (entity : Entity) (permissions : list Permission)
  : bool :=
  forallb (λ permission,
             AccessControl.hasPermission (entityAccessControl s) entity systemId permission)
          permissions.

(** [transferOwnership(entity, newOwner)] *)
Definition transferOwnership (entity : Entity) (newOwner : SystemId)
  : Exec State Error unit :=
  onAccess (AccessControl.transferOwnership entity systemId newOwner).

(** [getRemainingGas()] *)
Definition getRemainingGas (s : State) : Z := Gas.getRemainingGas (gasTracker s).

(** [getResourceUsage()] *)
Definition getResourceUsage (s : State) : Metrics.ResourceUsage :=
  Metrics.getResourceUsage (systemMetricsCollector s) systemId.

End WithWorld.

Arguments State : clear implicits.
Arguments Error : clear implicits.

End SystemContext.

(** * Properties of the capability context *)

Section ContextProperties.
Import AccessControl.

Context {World WorldExn Data DataError : Type}.
Variable worldCreateEntity : Exec World WorldExn Entity.
Variable worldDestroyEntity : Entity → Exec World WorldExn unit.
Variable worldAddComponent : Entity → nat → Data → Registry.Runtime → Exec World WorldExn unit.
Variable worldRemoveComponent : Entity → nat → Registry.Runtime → Exec World WorldExn unit.
Variable worldGetComponent :
  Entity → nat → Registry.Runtime → Exec World WorldExn (option Data).
Variable validateData : Data → Schema.ComponentSchema → option DataError.
Variable systemId : SystemId.

Local Abbreviation State := (SystemContext.State World).
Local Abbreviation Error := (SystemContext.Error WorldExn DataError).
Local Abbreviation createEntity :=
  (SystemContext.createEntity (DataError := DataError) worldCreateEntity systemId).
Local Abbreviation deleteEntity :=
  (SystemContext.deleteEntity (DataError := DataError) worldDestroyEntity systemId).
Local Abbreviation addComponent :=
  (SystemContext.addComponent worldAddComponent validateData systemId).
Local Abbreviation updateComponent :=
  (SystemContext.updateComponent worldAddComponent validateData systemId).
Local Abbreviation removeComponent :=
  (SystemContext.removeComponent (DataError := DataError) worldRemoveComponent systemId).
Local Abbreviation getComponent :=
  (SystemContext.getComponent (DataError := DataError) worldGetComponent systemId).

(** The ledger after a charge for [operation]. *)
Definition charged (s : State) (operation : Gas.Operation) : State :=
  let g := SystemContext.gasTracker s in
  SystemContext.set_gasTracker s
    {| Gas.gasUsed := Gas.gasUsed g + Gas.tariff (Gas.config g) operation None;
       Gas.config := Gas.config g |}.

(** The outcome of a call that is charged for [operation] and then fails
    the check of [permission] on [entity]: the gas error when the charge
    went over the limit, the access error otherwise; only the ledger has
    changed. *)
Definition rejection {A} (s : State) (operation : Gas.Operation)
    (permission : Permission) (entity : Entity) : Outcome Error A * State :=
  let g := SystemContext.gasTracker (charged s operation) in
  (Thrown (if bool_decide (Gas.gasUsed g > Gas.maxGas (Gas.config g))
           then SystemContext.GasError
                  (Gas.GasLimitExceeded (Gas.gasUsed g) (Gas.maxGas (Gas.config g)))
           else SystemContext.AccessError
                  (NoPermission systemId permission (id entity))),
   charged s operation).

Lemma charge_then_check {A} (operation : Gas.Operation) (permission : Permission)
    (entity : Entity) (k : Exec State Error A) (s : State) :
  hasPermission (SystemContext.entityAccessControl s) entity systemId permission = false →
  bind (SystemContext.onGas (Gas.consumeGas operation None))
       (λ _, bind (SystemContext.onAccess (validateAccess entity systemId permission))
                  (λ _, k)) s
  = rejection s operation permission entity.
Proof.
  intros Hno. unfold bind, SystemContext.onGas, Gas.consumeGas, rejection, charged. cbn.
  case_bool_decide; [done|].
  unfold SystemContext.onAccess, validateAccess. cbn. by rewrite Hno.
Qed.

Lemma rejected_call_is_charged_aux (s : State) (entity : Entity) :
  (hasPermission (SystemContext.entityAccessControl s) entity systemId DELETE = false →
     deleteEntity entity s = rejection s Gas.OpEntityDestroy DELETE entity).
Proof. intros Hno. by apply charge_then_check. Qed.

(** Gas is charged before access is checked, and not given back: a call of
    [deleteEntity], [addComponent], [updateComponent], [removeComponent] or
    [getComponent] on an entity for which the caller lacks the permission
    the call asks for throws, leaves world, access table, registries and
    metrics as they were, and leaves the ledger advanced by the full tariff
    of the operation. *)
Theorem rejected_call_is_charged (s : State) (entity : Entity)
    (componentName : string) (data : Data) :
  let ac := SystemContext.entityAccessControl s in
  (hasPermission ac entity systemId DELETE = false →
     deleteEntity entity s = rejection s Gas.OpEntityDestroy DELETE entity)
  ∧ (hasPermission ac entity systemId WRITE = false →
       addComponent entity componentName data s
         = rejection s Gas.OpAddComponent WRITE entity
       ∧ updateComponent entity componentName data s
         = rejection s Gas.OpUpdateComponent WRITE entity
       ∧ removeComponent entity componentName s
         = rejection s Gas.OpRemoveComponent WRITE entity)
  ∧ (hasPermission ac entity systemId READ = false →
       getComponent entity componentName s
         = rejection s Gas.OpComponentAccess READ entity).
Proof.
  intros ac. split_and!.
  - intros Hno. by apply charge_then_check.
  - intros Hno. split_and!.
    + unfold SystemContext.addComponent, SystemContext.storeComponent.
      by apply (charge_then_check Gas.OpAddComponent WRITE).
    + unfold SystemContext.updateComponent, SystemContext.storeComponent.
      by apply (charge_then_check Gas.OpUpdateComponent WRITE).
    + by apply charge_then_check.
  - intros Hno. by apply charge_then_check.
Qed.

(** What is left of a call for [operation] that was refused: the call has
    thrown; the ledger stands higher by the tariff of the operation, under
    the same configuration; world, access table, registries and metrics are
    as before. The error is the access violation when the charge stayed
    within the limit, and the gas error, raised before access was looked at,
    when it did not. *)
Definition refusedAfterCharge {A} (r : Outcome Error A * State) (s : State)
    (operation : Gas.Operation) (permission : Permission) (entity : Entity) : Prop :=
  let g := SystemContext.gasTracker s in
  let cost := Gas.tariff (Gas.config g) operation None in
  returned r.1 = false
  ∧ Gas.gasUsed (SystemContext.gasTracker r.2) = Gas.gasUsed g + cost
  ∧ Gas.config (SystemContext.gasTracker r.2) = Gas.config g
  ∧ SystemContext.world r.2 = SystemContext.world s
  ∧ SystemContext.entityAccessControl r.2 = SystemContext.entityAccessControl s
  ∧ SystemContext.registries r.2 = SystemContext.registries s
  ∧ SystemContext.systemMetricsCollector r.2 = SystemContext.systemMetricsCollector s
  ∧ (Gas.gasUsed g + cost ≤ Gas.maxGas (Gas.config g) →
       r.1 = Thrown (SystemContext.AccessError
                       (NoPermission systemId permission (id entity))))
  ∧ (Gas.gasUsed g + cost > Gas.maxGas (Gas.config g) →
       r.1 = Thrown (SystemContext.GasError
                       (Gas.GasLimitExceeded (Gas.gasUsed g + cost)
                                             (Gas.maxGas (Gas.config g))))).

Lemma rejection_refused {A} (s : State) (operation : Gas.Operation)
    (permission : Permission) (entity : Entity) :
  refusedAfterCharge (A := A) (rejection s operation permission entity) s
    operation permission entity.
Proof.
  unfold refusedAfterCharge, rejection, charged. cbn.
  split_and!; try done.
  - intros Hle. by rewrite bool_decide_eq_false_2 by lia.
  - intros Hgt. by rewrite bool_decide_eq_true_2 by lia.
Qed.

(** C10. Each of [deleteEntity], [addComponent], [updateComponent],
    [removeComponent] and [getComponent] charges the tariff of its operation
    before it checks access. A call by a system that lacks the permission
    the call asks for on the entity (DELETE, WRITE, WRITE, WRITE and READ)
    throws, changes nothing but the ledger, and leaves the ledger advanced
    by the full tariff of the operation: nothing is given back. It throws
    the access violation, unless the charge itself went over the limit, in
    which case the gas error is thrown and access is not looked at. *)
Theorem gas_charged_before_access_check (s : State) (entity : Entity)
    (componentName : string) (data : Data) :
  let ac := SystemContext.entityAccessControl s in
  (hasPermission ac entity systemId DELETE = false →
     refusedAfterCharge (deleteEntity entity s) s Gas.OpEntityDestroy DELETE entity)
  ∧ (hasPermission ac entity systemId WRITE = false →
       refusedAfterCharge (addComponent entity componentName data s) s
         Gas.OpAddComponent WRITE entity
       ∧ refusedAfterCharge (updateComponent entity componentName data s) s
           Gas.OpUpdateComponent WRITE entity
       ∧ refusedAfterCharge (removeComponent entity componentName s) s
           Gas.OpRemoveComponent WRITE entity)
  ∧ (hasPermission ac entity systemId READ = false →
       refusedAfterCharge (getComponent entity componentName s) s
         Gas.OpComponentAccess READ entity).
Proof.
  intros ac. split_and!.
  - intros Hno. unfold SystemContext.deleteEntity.
    rewrite (charge_then_check Gas.OpEntityDestroy DELETE) by done.
    apply rejection_refused.
  - intros Hno. split_and!.
    + unfold SystemContext.addComponent, SystemContext.storeComponent.
      rewrite (charge_then_check Gas.OpAddComponent WRITE) by done.
      apply rejection_refused.
    + unfold SystemContext.updateComponent, SystemContext.storeComponent.
      rewrite (charge_then_check Gas.OpUpdateComponent WRITE) by done.
      apply rejection_refused.
    + unfold SystemContext.removeComponent.
      rewrite (charge_then_check Gas.OpRemoveComponent WRITE) by done.
      apply rejection_refused.
  - intros Hno. unfold SystemContext.getComponent.
    rewrite (charge_then_check Gas.OpComponentAccess READ) by done.
    apply rejection_refused.
Qed.

(** [deleteEntity] drops the ownership record before it asks the world to
    destroy the entity. For a caller with the [DELETE] permission and enough
    gas the record is therefore gone whatever the world does: when
    [destroyEntity] throws (the entity is dead already), the call throws
    too, and still no system, the owner included, passes any check on that
    entity id afterwards. *)
Theorem deleteEntity_unregisters_first (s : State) (entity : Entity) :
  hasPermission (SystemContext.entityAccessControl s) entity systemId DELETE = true →
  Gas.canAfford (SystemContext.gasTracker s) Gas.OpEntityDestroy None = true →
  let s1 :=
    SystemContext.set_entityAccessControl (charged s Gas.OpEntityDestroy)
      (unregisterEntity entity (SystemContext.entityAccessControl s)) in
  deleteEntity entity s =
    match worldDestroyEntity entity (SystemContext.world s) with
    | (Returned _, w) => (Returned tt, SystemContext.set_world s1 w)
    | (Thrown x, w) => (Thrown (SystemContext.WorldError x), SystemContext.set_world s1 w)
    end
  ∧ ∀ e' sys p, id e' = id entity →
      hasPermission (SystemContext.entityAccessControl (deleteEntity entity s).2)
        e' sys p = false.
Proof.
  intros Hyes Hgas s1.
  apply bool_decide_eq_true_1 in Hgas. cbn in Hgas.
  assert (deleteEntity entity s =
    match worldDestroyEntity entity (SystemContext.world s) with
    | (Returned _, w) => (Returned tt, SystemContext.set_world s1 w)
    | (Thrown x, w) => (Thrown (SystemContext.WorldError x), SystemContext.set_world s1 w)
    end) as Heq.
  { unfold SystemContext.deleteEntity, bind, SystemContext.onGas, Gas.consumeGas. cbn.
    rewrite bool_decide_eq_false_2 by lia.
    unfold SystemContext.onAccess, validateAccess. cbn. rewrite Hyes. cbn.
    unfold SystemContext.onWorld. cbn.
    by destruct (worldDestroyEntity entity (SystemContext.world s)) as [[[]|x] w]. }
  split; [exact Heq|]. intros e' sys p Hid. rewrite Heq.
  assert (entityOwnership (unregisterEntity entity (SystemContext.entityAccessControl s))
            !! id e' = None) as Hgone.
  { rewrite Hid. unfold unregisterEntity.
    destruct (entityOwnership (SystemContext.entityAccessControl s) !! id entity)
      eqn:He; cbn; [|done].
    by rewrite lookup_delete_eq. }
  destruct (worldDestroyEntity entity (SystemContext.world s)) as [[[]|x] w]; cbn;
    unfold hasPermission; by rewrite Hgone.
Qed.

(** An entity created for another owner is out of its creator's hands.
    When [createEntity] is called with an [owner] option naming another
    system, the call (given enough gas and a world that hands out an entity)
    charges the creator's ledger and counts the entity against the creator,
    but only the named owner passes permission checks on it: the creator's
    [requestAccess] is refused for every permission, and its [deleteEntity]
    throws and leaves the access table as it is. *)
Theorem createEntity_for_another_owner (s : State)
    (options : CreateEntityOptions) (now now' : Z) (other : SystemId)
    (entity : Entity) (w1 : World) :
  Gas.canAfford (SystemContext.gasTracker s) Gas.OpEntityCreate None = true →
  worldCreateEntity (SystemContext.world s) = (Returned entity, w1) →
  opt_owner options = Some other →
  other ≠ "" →
  other ≠ systemId →
  ∃ s1,
    createEntity options now now' s = (Returned entity, s1)
    ∧ SystemContext.world s1 = w1
    ∧ SystemContext.gasTracker s1 = SystemContext.gasTracker (charged s Gas.OpEntityCreate)
    ∧ SystemContext.entityAccessControl s1 =
        registerEntity entity systemId options now (SystemContext.entityAccessControl s)
    ∧ (∀ P p, hasPermission (SystemContext.entityAccessControl s1) entity P p = true
              ↔ P = other)
    ∧ getSystemEntityCount (SystemContext.entityAccessControl s1) systemId =
        getSystemEntityCount (SystemContext.entityAccessControl s) systemId + 1
    ∧ (∀ p, SystemContext.requestAccess systemId s1 entity [p] = false)
    ∧ returned (deleteEntity entity s1).1 = false
    ∧ SystemContext.entityAccessControl (deleteEntity entity s1).2 =
        SystemContext.entityAccessControl s1.
Proof.
  intros Hgas Hworld Howner Hne Hother.
  apply bool_decide_eq_true_1 in Hgas. cbn in Hgas.
  eexists. split.
  { unfold SystemContext.createEntity, bind, SystemContext.onGas, Gas.consumeGas. cbn.
    rewrite bool_decide_eq_false_2 by lia.
    unfold SystemContext.onWorld. cbn. rewrite Hworld. cbn. reflexivity. }
  cbn [SystemContext.world SystemContext.gasTracker SystemContext.entityAccessControl
       SystemContext.set_systemMetricsCollector SystemContext.set_entityAccessControl
       SystemContext.set_world SystemContext.set_gasTracker].
  assert (∀ P p,
            hasPermission (registerEntity entity systemId options now
                             (SystemContext.entityAccessControl s)) entity P p = true
            ↔ P = other) as Hperm.
  { intros P p.
    rewrite (hasPermission_lookup _ entity _ P p (lookup_insert_eq _ _ _)). cbn.
    rewrite Howner. cbn. rewrite decide_False by done.
    rewrite elem_of_nil. split; [intros [?|[[] _]]; done|]. intros ->. by left. }
  assert (∀ p, hasPermission (registerEntity entity systemId options now
                                (SystemContext.entityAccessControl s))
                 entity systemId p = false) as Hno.
  { intros p. apply not_true_is_false. rewrite Hperm. congruence. }
  split_and!; try done.
  - unfold getSystemEntityCount. cbn. by rewrite lookup_insert_eq.
  - intros p. unfold SystemContext.requestAccess. cbn -[registerEntity].
    by rewrite Hno.
  - match goal with |- context [deleteEntity entity ?s1] =>
      pose proof (rejected_call_is_charged_aux s1 entity) as Hrej end.
    cbn -[registerEntity] in Hrej. by rewrite (Hrej (Hno DELETE)).
  - match goal with |- context [deleteEntity entity ?s1] =>
      pose proof (rejected_call_is_charged_aux s1 entity) as Hrej end.
    cbn -[registerEntity] in Hrej. by rewrite (Hrej (Hno DELETE)).
Qed.

End ContextProperties.

(** A small world to run the context on: entities are numbered in the
    order of their creation, and every entity counts as dead already, so
    that [destroyEntity] throws. *)
Definition exampleCreateEntity : Exec nat string Entity :=
  λ n, (Returned (mkEntity (Z.of_nat n) 0), S n).
Definition exampleDestroyEntity (e : Entity) : Exec nat string unit :=
  λ n, (Thrown "already dead", n).
Definition exampleAddComponent (e : Entity) (t : nat) (data : Z) (rt : Registry.Runtime)
  : Exec nat string unit := λ n, (Returned tt, n).
Definition exampleRemoveComponent (e : Entity) (t : nat) (rt : Registry.Runtime)
  : Exec nat string unit := λ n, (Returned tt, n).
Definition exampleGetComponent (e : Entity) (t : nat) (rt : Registry.Runtime)
  : Exec nat string (option Z) := λ n, (Returned None, n).
Definition exampleValidateData (data : Z) (sch : Schema.ComponentSchema) : option string :=
  None.

Definition exampleState (ac : AccessControl.EntityAccessControl)
  : SystemContext.State nat :=
  {| SystemContext.world := 0%nat;
     SystemContext.gasTracker := Gas.new Gas.DEFAULT_GAS_CONFIG;
     SystemContext.entityAccessControl := ac;
     SystemContext.registries := Registry.initial;
     SystemContext.systemMetricsCollector := Metrics.new |}.

Lemma rejected_call_is_charged_witness :
  let s := exampleState AccessControl.empty in
  let entity := mkEntity 7 0 in
  SystemContext.deleteEntity (DataError := string) exampleDestroyEntity "A" entity s
    = rejection "A" s Gas.OpEntityDestroy DELETE entity
  ∧ SystemContext.addComponent exampleAddComponent exampleValidateData "A"
      entity "Position" 1 s
    = rejection "A" s Gas.OpAddComponent WRITE entity
  ∧ SystemContext.getComponent (DataError := string) exampleGetComponent "A"
      entity "Position" s
    = rejection "A" s Gas.OpComponentAccess READ entity.
Proof.
  intros s entity.
  destruct (rejected_call_is_charged exampleDestroyEntity exampleAddComponent
              exampleRemoveComponent exampleGetComponent exampleValidateData
              "A" s entity "Position" 1) as (H1 & H2 & H3).
  split_and!.
  - apply H1. reflexivity.
  - apply H2. reflexivity.
  - apply H3. reflexivity.
Defined.

(** A system that owns nothing, with the default budget of 10000 and with
    a budget that the tariff of 3 for a deletion exceeds. *)
Lemma gas_charged_before_access_check_witness :
  let entity := mkEntity 7 0 in
  let s := exampleState AccessControl.empty in
  let poor :=
    SystemContext.set_gasTracker s
      (Gas.new {| Gas.maxGas := 2; Gas.gasCosts := Gas.gasCosts Gas.DEFAULT_GAS_CONFIG |}) in
  (let r := SystemContext.deleteEntity (DataError := string) exampleDestroyEntity "A"
              entity s in
   r.1 = Thrown (SystemContext.AccessError (AccessControl.NoPermission "A" DELETE 7))
   ∧ Gas.gasUsed (SystemContext.gasTracker r.2) = 3)
  ∧ (let r := SystemContext.deleteEntity (DataError := string) exampleDestroyEntity "A"
                entity poor in
     r.1 = Thrown (SystemContext.GasError (Gas.GasLimitExceeded 3 2))
     ∧ Gas.gasUsed (SystemContext.gasTracker r.2) = 3).
Proof.
  intros entity s poor.
  destruct (gas_charged_before_access_check exampleDestroyEntity exampleAddComponent
              exampleRemoveComponent exampleGetComponent exampleValidateData
              "A" s entity "Position" 1) as (H1 & _).
  destruct (gas_charged_before_access_check exampleDestroyEntity exampleAddComponent
              exampleRemoveComponent exampleGetComponent exampleValidateData
              "A" poor entity "Position" 1) as (H2 & _).
  destruct (H1 eq_refl) as (_ & Hg1 & _ & _ & _ & _ & _ & Ha1 & _).
  destruct (H2 eq_refl) as (_ & Hg2 & _ & _ & _ & _ & _ & _ & Ha2).
  split; cbn zeta.
  - split; [apply Ha1; vm_compute; discriminate|exact Hg1].
  - split; [apply Ha2; reflexivity|exact Hg2].
Defined.

Lemma deleteEntity_unregisters_first_witness :
  let entity := mkEntity 7 0 in
  let s := exampleState
             (AccessControl.registerEntity entity "A" AccessControl.noOptions 0
                AccessControl.empty) in
  returned (SystemContext.deleteEntity (DataError := string) exampleDestroyEntity "A"
              entity s).1 = false
  ∧ ∀ e' sys p, id e' = 7 →
      AccessControl.hasPermission
        (SystemContext.entityAccessControl
           (SystemContext.deleteEntity (DataError := string) exampleDestroyEntity "A"
              entity s).2) e' sys p = false.
Proof.
  intros entity s.
  destruct (deleteEntity_unregisters_first (DataError := string) exampleDestroyEntity
              "A" s entity) as [Heq Hgone].
  - reflexivity.
  - reflexivity.
  - split; [by rewrite Heq|exact Hgone].
Defined.

Lemma createEntity_for_another_owner_witness :
  let s := exampleState AccessControl.empty in
  let options := AccessControl.mkOptions (Some "B") None in
  let entity := mkEntity 0 0 in
  ∃ s1,
    SystemContext.createEntity (DataError := string) exampleCreateEntity "A"
      options 1 2 s = (Returned entity, s1)
    ∧ SystemContext.world s1 = 1%nat
    ∧ SystemContext.gasTracker s1 = SystemContext.gasTracker (charged s Gas.OpEntityCreate)
    ∧ SystemContext.entityAccessControl s1 =
        AccessControl.registerEntity entity "A" options 1
          (SystemContext.entityAccessControl s)
    ∧ (∀ P p, AccessControl.hasPermission (SystemContext.entityAccessControl s1)
                entity P p = true ↔ P = "B")
    ∧ getSystemEntityCount (SystemContext.entityAccessControl s1) "A" =
        getSystemEntityCount (SystemContext.entityAccessControl s) "A" + 1
    ∧ (∀ p, SystemContext.requestAccess "A" s1 entity [p] = false)
    ∧ returned (SystemContext.deleteEntity (DataError := string) exampleDestroyEntity "A"
                  entity s1).1 = false
    ∧ SystemContext.entityAccessControl
        (SystemContext.deleteEntity (DataError := string) exampleDestroyEntity "A"
           entity s1).2 = SystemContext.entityAccessControl s1.
Proof.
  intros s options entity.
  apply (createEntity_for_another_owner (DataError := string) exampleCreateEntity
           exampleDestroyEntity "A" s options 1 2 "B" entity 1%nat).
  - reflexivity.
  - reflexivity.
  - reflexivity.
  - discriminate.
  - discriminate.
Defined.

(** * Component masks ([core/component-mask.ts], both versions) *)

(** The mask over a [bigint], for ids 0 to 63. *)
Module BigintMask.

Record ComponentMask : Type := mkMask { mask : Z }.

Inductive Error : Type :=
| OutOfRange (componentId : Z).

(** [new ComponentMask()] *)
Definition new : ComponentMask := {| mask := 0 |}.

(** [set(componentId)] *)
Definition set (componentId : Z) : Exec ComponentMask Error unit :=
  λ m,
  if bool_decide (componentId < 0 ∨ 64 ≤ componentId)
  then (Thrown (OutOfRange componentId), m)
  else (Returned tt, {| mask := Z.lor (mask m) (Z.shiftl 1 componentId) |}).

(** [has(componentId)] *)
Definition has (m : ComponentMask) (componentId : Z) : bool :=
  if bool_decide (componentId < 0 ∨ 64 ≤ componentId) then false
  else bool_decide (Z.land (mask m) (Z.shiftl 1 componentId) ≠ 0).

(** [clearComponent(componentId)] *)
Definition clearComponent (componentId : Z) (m : ComponentMask) : ComponentMask :=
  if bool_decide (componentId < 0 ∨ 64 ≤ componentId) then m
  else {| mask := Z.land (mask m) (Z.lnot (Z.shiftl 1 componentId)) |}.

(** [equals(other)] *)
Definition equals (this other : ComponentMask) : bool :=
  bool_decide (mask this = mask other).

(** [contains(other)] *)
Definition contains (this other : ComponentMask) : bool :=
  bool_decide (Z.land (mask this) (mask other) = mask other).

(** [intersect(other)] *)
Definition intersect (this other : ComponentMask) : ComponentMask :=
  {| mask := Z.land (mask this) (mask other) |}.

(** [union(other)] *)
Definition union (this other : ComponentMask) : ComponentMask :=
  {| mask := Z.lor (mask this) (mask other) |}.

(** [getMask()], [setMask(mask)] and [fromMask(mask)] *)
Definition getMask (m : ComponentMask) : Z := mask m.
Definition setMask (raw : Z) (m : ComponentMask) : ComponentMask := {| mask := raw |}.
Definition fromMask (raw : Z) : ComponentMask := {| mask := raw |}.

(** The loop of [getComponentCount()]: [None] when the fuel runs out before
    the shifted mask has become zero. *)
Fixpoint countBits (fuel : nat) (mask count : Z) : option Z :=
  match fuel with
  | O => None
  | S fuel' =>
      if decide (mask = 0) then Some count
      else countBits fuel' (Z.shiftr mask 1)
             (if decide (Z.land mask 1 = 1) then count + 1 else count)
  end.

(** [getComponentCount()] *)
Definition getComponentCount (fuel : nat) (m : ComponentMask) : option Z :=
  countBits fuel (mask m) 0.

(** [getComponentIds()] *)
Definition getComponentIds (m : ComponentMask) : list Z :=
  filter (λ i, has m i = true) (seqZ 0 64).

(** [clone()], [clearAll()], [isEmpty()] *)
Definition clone (m : ComponentMask) : ComponentMask := {| mask := mask m |}.
Definition clearAll (m : ComponentMask) : ComponentMask := {| mask := 0 |}.
Definition isEmpty (m : ComponentMask) : bool := bool_decide (mask m = 0).

(** [fromComponentIds(componentIds)]: the first id that [set] refuses ends
    the construction. *)
Definition fromComponentIds (componentIds : list Z) : Outcome Error ComponentMask :=
  foldl (λ acc id,
           match acc with
           | Returned m =>
               match set id m with
               | (Returned _, m') => Returned m'
               | (Thrown e, _) => Thrown e
               end
           | Thrown e => Thrown e
           end)
        (Returned new) componentIds.

End BigintMask.

(** The mask over a set of ids, without an upper bound on ids, and its
    conversions from and to the [bigint] form. *)
Module SetMask.

Record ComponentMask : Type := mkMask { componentIds : gset Z }.

Inductive Error : Type :=
| NegativeId (componentId : Z).

(** [new ComponentMask()] *)
Definition new : ComponentMask := {| componentIds := ∅ |}.

(** [set(componentId)] *)
Definition set (componentId : Z) : Exec ComponentMask Error unit :=
  λ m,
  if bool_decide (componentId < 0) then (Thrown (NegativeId componentId), m)
  else (Returned tt, {| componentIds := {[componentId]} ∪ componentIds m |}).

(** [has(componentId)] *)
Definition has (m : ComponentMask) (componentId : Z) : bool :=
  if bool_decide (componentId < 0) then false
  else bool_decide (componentId ∈ componentIds m).

(** [clearComponent(componentId)] *)
Definition clearComponent (componentId : Z) (m : ComponentMask) : ComponentMask :=
  if bool_decide (componentId < 0) then m
  else {| componentIds := componentIds m ∖ {[componentId]} |}.

(** [equals(other)] *)
Definition equals (this other : ComponentMask) : bool :=
  if negb (bool_decide (size (componentIds this) = size (componentIds other)))
  then false
  else forallb (λ id, bool_decide (id ∈ componentIds other)) (elements (componentIds this)).

(** [contains(other)] *)
Definition contains (this other : ComponentMask) : bool :=
  forallb (λ id, bool_decide (id ∈ componentIds this)) (elements (componentIds other)).

(** [intersect(other)] *)
Definition intersect (this other : ComponentMask) : ComponentMask :=
  {| componentIds := filter (λ id, id ∈ componentIds other) (componentIds this) |}.

(** [union(other)] *)
Definition union (this other : ComponentMask) : ComponentMask :=
  {| componentIds := componentIds this ∪ componentIds other |}.

(** [getComponentIdSet()], [setComponentIds(ids)], [fromComponentIdSet(ids)] *)
Definition getComponentIdSet (m : ComponentMask) : gset Z := componentIds m.
Definition setComponentIds (ids : gset Z) (m : ComponentMask) : ComponentMask :=
  {| componentIds := ids |}.
Definition fromComponentIdSet (ids : gset Z) : ComponentMask := {| componentIds := ids |}.

(** [getComponentCount()] *)
Definition getComponentCount (m : ComponentMask) : Z :=
  Z.of_nat (size (componentIds m)).

(** [clone()], [clearAll()], [isEmpty()] *)
Definition clone (m : ComponentMask) : ComponentMask :=
  {| componentIds := componentIds m |}.
Definition clearAll (m : ComponentMask) : ComponentMask := {| componentIds := ∅ |}.
Definition isEmpty (m : ComponentMask) : bool :=
  bool_decide (size (componentIds m) = 0%nat).

(** [fromComponentIds(componentIds)] *)
Definition fromComponentIds (ids : list Z) : Outcome Error ComponentMask :=
  foldl (λ acc id,
           match acc with
           | Returned m =>
               match set id m with
               | (Returned _, m') => Returned m'
               | (Thrown e, _) => Thrown e
               end
           | Thrown e => Thrown e
           end)
        (Returned new) ids.

(** [getMask()]: the ids below 64, as bits. *)
Definition getMask (m : ComponentMask) : Z :=
  set_fold (λ id mask,
              if bool_decide (id < 64) then Z.lor mask (Z.shiftl 1 id) else mask)
           0 (componentIds m).

(** [setMask(mask)] *)
Definition setMask (raw : Z) (m : ComponentMask) : ComponentMask :=
  {| componentIds :=
       list_to_set (filter (λ i, Z.land raw (Z.shiftl 1 i) ≠ 0) (seqZ 0 64)) |}.

(** [fromMask(mask)] *)
Definition fromMask (raw : Z) : ComponentMask := setMask raw new.

End SetMask.

(** * Properties of the component masks *)

Section MaskProperties.

Lemma bit_testbit (i n : Z) : 0 ≤ n → Z.testbit (Z.shiftl 1 i) n = bool_decide (n = i).
Proof.
  intros Hn. rewrite Z.shiftl_spec by lia.
  destruct (decide (n = i)) as [->|Hne].
  - rewrite Z.sub_diag. by rewrite bool_decide_eq_true_2.
  - rewrite bool_decide_eq_false_2 by done.
    destruct (decide (n - i < 0)) as [Hneg|Hpos].
    + by apply Z.testbit_neg_r.
    + change 1 with (2 ^ 0). rewrite Z.pow2_bits_eqb by lia.
      apply Z.eqb_neq. lia.
Qed.

Lemma land_bit (a i : Z) :
  0 ≤ i → Z.land a (Z.shiftl 1 i) ≠ 0 ↔ Z.testbit a i = true.
Proof.
  intros Hi. split.
  - intros Hne. destruct (Z.testbit a i) eqn:Hb; [done|]. exfalso. apply Hne.
    apply Z.bits_inj'. intros n Hn.
    rewrite Z.land_spec, bit_testbit, Z.bits_0 by done.
    case_bool_decide as Heq; [subst; by rewrite Hb|apply andb_false_r].
  - intros Hb Hz.
    assert (Z.testbit (Z.land a (Z.shiftl 1 i)) i = true) as Hbit.
    { rewrite Z.land_spec, bit_testbit, Hb by done. by rewrite bool_decide_eq_true_2. }
    rewrite Hz, Z.bits_0 in Hbit. done.
Qed.

Lemma bigint_has_testbit (m : BigintMask.ComponentMask) (i : Z) :
  BigintMask.has m i = (bool_decide (0 ≤ i < 64) && Z.testbit (BigintMask.mask m) i).
Proof.
  unfold BigintMask.has. case_bool_decide as Hr.
  - rewrite (bool_decide_eq_false_2 (0 ≤ i < 64)) by lia. done.
  - rewrite (bool_decide_eq_true_2 (0 ≤ i < 64)) by lia. cbn.
    destruct (Z.testbit (BigintMask.mask m) i) eqn:Hb.
    + apply bool_decide_eq_true_2. apply land_bit; [lia|done].
    + apply bool_decide_eq_false_2. rewrite land_bit by lia. by rewrite Hb.
Qed.

(** The operations of the bigint mask, bit by bit. [set] of an id from 0 to
    63 adds that id and nothing else, of any other id it throws and changes
    nothing; [clearComponent] removes the id; [union] and [intersect] are
    pointwise; [contains] holds exactly when every bit of the other raw mask
    is a bit of this one, which for another mask with bits 0 to 63 only says
    that every id the other has, this one has. *)
Theorem bigint_mask_bits (m a b : BigintMask.ComponentMask) (i j : Z) :
  returned (BigintMask.set i m).1 = bool_decide (0 ≤ i < 64)
  ∧ BigintMask.has (BigintMask.set i m).2 j =
      (BigintMask.has m j || (bool_decide (j = i) && bool_decide (0 ≤ i < 64)))
  ∧ BigintMask.has (BigintMask.clearComponent i m) j =
      (BigintMask.has m j && negb (bool_decide (j = i)))
  ∧ BigintMask.has (BigintMask.union a b) j = (BigintMask.has a j || BigintMask.has b j)
  ∧ BigintMask.has (BigintMask.intersect a b) j =
      (BigintMask.has a j && BigintMask.has b j)
  ∧ (BigintMask.contains a b = true ↔
       ∀ n, 0 ≤ n → Z.testbit (BigintMask.getMask b) n = true →
            Z.testbit (BigintMask.getMask a) n = true)
  ∧ (0 ≤ BigintMask.getMask b < 2 ^ 64 →
       (BigintMask.contains a b = true ↔
          ∀ k, BigintMask.has b k = true → BigintMask.has a k = true)).
Proof.
  assert (BigintMask.contains a b = true ↔
            ∀ n, 0 ≤ n → Z.testbit (BigintMask.getMask b) n = true →
                 Z.testbit (BigintMask.getMask a) n = true) as Hcontains.
  { unfold BigintMask.contains, BigintMask.getMask. rewrite bool_decide_eq_true. split.
    - intros Heq n Hn Hb. rewrite <-Heq, Z.land_spec in Hb.
      by apply andb_true_iff in Hb as [? _].
    - intros Hall. apply Z.bits_inj'. intros n Hn. rewrite Z.land_spec.
      destruct (Z.testbit (BigintMask.mask b) n) eqn:Hb; [|apply andb_false_r].
      by rewrite (Hall n Hn Hb). }
  split_and!.
  - unfold BigintMask.set. case_bool_decide; cbn.
    + by rewrite bool_decide_eq_false_2 by lia.
    + by rewrite bool_decide_eq_true_2 by lia.
  - unfold BigintMask.set. case_bool_decide as Hr; cbn.
    + rewrite (bool_decide_eq_false_2 (0 ≤ i < 64)) by lia.
      by rewrite andb_false_r, orb_false_r.
    + rewrite (bool_decide_eq_true_2 (0 ≤ i < 64)) by lia. rewrite andb_true_r.
      rewrite !bigint_has_testbit. cbn.
      case_bool_decide as Hj; cbn.
      * rewrite Z.lor_spec, bit_testbit by lia. done.
      * rewrite (bool_decide_eq_false_2 (j = i)) by lia. done.
  - unfold BigintMask.clearComponent. case_bool_decide as Hr; cbn.
    + rewrite bigint_has_testbit. case_bool_decide as Hj; cbn; [|done].
      rewrite (bool_decide_eq_false_2 (j = i)) by lia. by rewrite andb_true_r.
    + rewrite !bigint_has_testbit. cbn. case_bool_decide as Hj; cbn; [|done].
      rewrite Z.land_spec, Z.lnot_spec, bit_testbit by lia. done.
  - rewrite !bigint_has_testbit. cbn. rewrite Z.lor_spec.
    by destruct (bool_decide (0 ≤ j < 64)).
  - rewrite !bigint_has_testbit. cbn. rewrite Z.land_spec.
    destruct (bool_decide (0 ≤ j < 64)); cbn; [done|done].
  - exact Hcontains.
  - intros Hrange. rewrite Hcontains. split.
    + intros Hall k. rewrite !bigint_has_testbit.
      intros [Hk Hb]%andb_true_iff. rewrite Hk. cbn.
      apply Hall; [by apply bool_decide_eq_true_1 in Hk; lia|done].
    + intros Hall n Hn Hb.
      assert (n < 64) as Hlt.
      { destruct (decide (n < 64)) as [|Hge]; [done|].
        rewrite (Z.bits_above_log2 (BigintMask.getMask b) n) in Hb; [done|lia|].
        destruct (decide (BigintMask.getMask b = 0)) as [->|Hnz]; [cbn; lia|].
        assert (Z.log2 (BigintMask.getMask b) < 64); [|lia].
        apply Z.log2_lt_pow2; lia. }
      specialize (Hall n). rewrite !bigint_has_testbit in Hall.
      rewrite bool_decide_eq_true_2 in Hall by lia. cbn in Hall. by apply Hall.
Qed.

Lemma filter_agree {A} (P Q : A → Prop) `{!∀ x, Decision (P x), !∀ x, Decision (Q x)}
    (l : list A) :
  Forall (λ x, P x ↔ Q x) l → filter P l = filter Q l.
Proof.
  induction 1 as [|x l Hx _ IH]; [done|].
  rewrite !filter_cons, IH. destruct (decide (P x)), (decide (Q x)); tauto.
Qed.

Lemma filter_none {A} (P : A → Prop) `{!∀ x, Decision (P x)} (l : list A) :
  Forall (λ x, ¬ P x) l → filter P l = [].
Proof.
  induction 1 as [|x l Hx _ IH]; [done|].
  by rewrite filter_cons, decide_False.
Qed.

Lemma countBits_from (n : nat) (raw k count : Z) (fuel : nat) :
  0 ≤ k → 0 ≤ raw →
  Z.shiftr raw k < 2 ^ Z.of_nat n →
  (n < fuel)%nat →
  BigintMask.countBits fuel (Z.shiftr raw k) count =
    Some (count + Z.of_nat (length (filter (λ i, Z.testbit raw i = true)
                                           (seqZ k (Z.of_nat n))))).
Proof.
  revert k count fuel. induction n as [|n IH]; intros k count fuel Hk Hraw Hlt Hfuel.
  - destruct fuel as [|fuel]; [lia|]. cbn.
    assert (0 ≤ Z.shiftr raw k) by (apply Z.shiftr_nonneg; lia).
    change (2 ^ Z.of_nat 0) with 1 in Hlt.
    rewrite decide_True by lia. f_equal.
    change (Z.of_nat 0) with 0. rewrite seqZ_nil by lia. cbn. lia.
  - destruct fuel as [|fuel]; [lia|]. cbn [BigintMask.countBits].
    rewrite seqZ_cons by lia. rewrite filter_cons.
    replace (Z.pred (Z.of_nat (S n))) with (Z.of_nat n) by lia.
    assert (0 ≤ Z.shiftr raw k) as Hnn by (apply Z.shiftr_nonneg; lia).
    destruct (decide (Z.shiftr raw k = 0)) as [Hz|Hnz].
    + assert (∀ i, k ≤ i → Z.testbit raw i = false) as Hhigh.
      { intros i Hi. replace i with ((i - k) + k) by lia.
        rewrite <-Z.shiftr_spec by lia. rewrite Hz. apply Z.bits_0. }
      rewrite decide_False by (rewrite Hhigh by lia; done).
      assert (filter (λ i, Z.testbit raw i = true) (seqZ (Z.succ k) (Z.of_nat n)) = [])
        as ->; [|f_equal; cbn; lia].
      apply filter_none, Forall_forall. intros i Hi%elem_of_seqZ.
      rewrite Hhigh by lia. done.
    + rewrite Z.shiftr_shiftr by lia.
      assert (Z.land (Z.shiftr raw k) 1 = (if Z.testbit raw k then 1 else 0)) as Hbit.
      { change 1 with (Z.ones 1) at 1. rewrite Z.land_ones by lia.
        change (2 ^ 1) with 2. rewrite <-Z.bit0_mod, Z.shiftr_spec by lia.
        rewrite Z.add_0_l. by destruct (Z.testbit raw k). }
      rewrite Hbit.
      replace (k + 1) with (Z.succ k) by lia.
      rewrite IH; try lia.
      * destruct (Z.testbit raw k) eqn:Hb.
        -- rewrite decide_True by done. rewrite decide_True by done.
           cbn [length]. f_equal. lia.
        -- rewrite decide_False by done. rewrite decide_False by done. done.
      * replace (Z.succ k) with (k + 1) by lia. rewrite <-Z.shiftr_shiftr by lia.
        rewrite Z.shiftr_div_pow2 by lia. change (2 ^ 1) with 2.
        apply Z.div_lt_upper_bound; [lia|].
        replace (2 ^ Z.of_nat (S n)) with (2 * 2 ^ Z.of_nat n) in Hlt; [lia|].
        rewrite Nat2Z.inj_succ, Z.pow_succ_r by lia. done.
Qed.

Lemma countBits_negative (fuel : nat) (raw count : Z) :
  raw < 0 → BigintMask.countBits fuel raw count = None.
Proof.
  revert raw count. induction fuel as [|fuel IH]; intros raw count Hneg; cbn; [done|].
  rewrite decide_False by lia. apply IH. by apply Z.shiftr_neg.
Qed.

(** [getComponentCount] of the bigint mask counts the ids of the mask when
    the raw mask lies between 0 and 2^64: the loop ends within 65 turns with
    the number of ids [getComponentIds] lists. On a negative raw mask, which
    [setMask] and [fromMask] accept, the loop never ends: shifting right
    never makes the mask zero. *)
Theorem bigint_count_loop (m : BigintMask.ComponentMask) :
  (0 ≤ BigintMask.getMask m < 2 ^ 64 →
     ∀ fuel, (64 < fuel)%nat →
       BigintMask.getComponentCount fuel m =
         Some (Z.of_nat (length (BigintMask.getComponentIds m))))
  ∧ (BigintMask.getMask m < 0 →
       ∀ fuel, BigintMask.getComponentCount fuel m = None).
Proof.
  split.
  - intros [H0 H64] fuel Hfuel. unfold BigintMask.getComponentCount, BigintMask.getMask in *.
    pose proof (countBits_from 64 (BigintMask.mask m) 0 0 fuel) as Hc.
    rewrite Z.shiftr_0_r in Hc. rewrite Hc by (try done; lia).
    f_equal. rewrite Z.add_0_l. f_equal. f_equal.
    unfold BigintMask.getComponentIds. apply filter_agree.
    apply Forall_forall. intros i Hi%elem_of_seqZ.
    rewrite bigint_has_testbit, bool_decide_eq_true_2 by lia. done.
  - intros Hneg fuel. by apply countBits_negative.
Qed.

Lemma bigint_count_loop_witness :
  BigintMask.getComponentCount 65 (BigintMask.fromMask 5) = Some 2
  ∧ ∀ fuel, BigintMask.getComponentCount fuel (BigintMask.fromMask (-1)) = None.
Proof.
  split.
  - apply (proj1 (bigint_count_loop (BigintMask.fromMask 5))); [cbn; lia|lia].
  - apply (proj2 (bigint_count_loop (BigintMask.fromMask (-1)))). cbn. lia.
Defined.

Lemma bigint_mask_bits_witness :
  BigintMask.contains (BigintMask.fromMask 7) (BigintMask.fromMask 5) = true ↔
  ∀ k, BigintMask.has (BigintMask.fromMask 5) k = true →
       BigintMask.has (BigintMask.fromMask 7) k = true.
Proof.
  apply (bigint_mask_bits BigintMask.new (BigintMask.fromMask 7) (BigintMask.fromMask 5) 0 0).
  cbn. lia.
Defined.

(** The bits of [getMask()] of the set mask: the ids from 0 to 63. *)
Lemma getMask_testbit (m : SetMask.ComponentMask) (n : Z) :
  0 ≤ n →
  Z.testbit (SetMask.getMask m) n =
    bool_decide (n ∈ SetMask.componentIds m ∧ n < 64).
Proof.
  intros Hn. unfold SetMask.getMask.
  set (P := λ (r : Z) (X : gset Z), Z.testbit r n = bool_decide (n ∈ X ∧ n < 64)).
  change (P (set_fold (λ id mask : Z,
                         if bool_decide (id < 64) then Z.lor mask (Z.shiftl 1 id) else mask)
                      0 (SetMask.componentIds m)) (SetMask.componentIds m)).
  apply (set_fold_ind_L P); unfold P.
  - rewrite Z.bits_0. symmetry. apply bool_decide_eq_false_2. set_solver.
  - intros x X r Hx IH. destruct (decide (x < 64)) as [Hlt|Hlt].
    + rewrite (bool_decide_eq_true_2 (x < 64)) by done.
      rewrite Z.lor_spec, IH, bit_testbit by done.
      destruct (decide (n = x)) as [->|Hne].
      * rewrite (bool_decide_eq_true_2 (x = x)) by done. rewrite orb_true_r.
        symmetry. apply bool_decide_eq_true_2. split; [set_solver|done].
      * rewrite (bool_decide_eq_false_2 (n = x)) by done. rewrite orb_false_r.
        apply bool_decide_ext. set_solver.
    + rewrite (bool_decide_eq_false_2 (x < 64)) by done.
      rewrite IH. apply bool_decide_ext. split.
      * intros [? ?]. split; [set_solver|done].
      * intros [[Heq%elem_of_singleton|?]%elem_of_union ?]; [lia|done].
Qed.

Lemma getMask_range (m : SetMask.ComponentMask) : 0 ≤ SetMask.getMask m < 2 ^ 64.
Proof.
  assert (0 ≤ SetMask.getMask m) as Hnn.
  { unfold SetMask.getMask.
    set (P := λ (r : Z) (X : gset Z), 0 ≤ r).
    change (P (set_fold (λ id mask : Z,
                           if bool_decide (id < 64) then Z.lor mask (Z.shiftl 1 id)
                           else mask)
                        0 (SetMask.componentIds m)) (SetMask.componentIds m)).
    apply (set_fold_ind_L P); unfold P; [done|].
    intros x X r _ Hr. destruct (bool_decide (x < 64)); [|done].
    apply Z.lor_nonneg. split; [done|].
    destruct (decide (0 ≤ x)).
    - rewrite Z.shiftl_1_l. by apply Z.pow_nonneg.
    - rewrite <-Z.shiftr_opp_r. apply Z.shiftr_nonneg. lia. }
  split; [done|].
  destruct (decide (SetMask.getMask m = 0)) as [->|Hnz]; [done|].
  apply Z.log2_lt_pow2; [lia|].
  destruct (decide (Z.log2 (SetMask.getMask m) < 64)) as [|Hge]; [done|].
  pose proof (Z.bit_log2 (SetMask.getMask m) ltac:(lia)) as Hb.
  rewrite getMask_testbit in Hb by apply Z.log2_nonneg.
  apply bool_decide_eq_true_1 in Hb. lia.
Qed.

Lemma elem_of_fromMask (raw i : Z) :
  i ∈ SetMask.componentIds (SetMask.fromMask raw)
  ↔ 0 ≤ i < 64 ∧ Z.testbit raw i = true.
Proof.
  unfold SetMask.fromMask, SetMask.setMask. cbn.
  rewrite elem_of_list_to_set, list_elem_of_filter, elem_of_seqZ.
  split.
  - intros [Hb Hi]. split; [lia|]. apply land_bit; [lia|done].
  - intros [Hi Hb]. split; [|lia]. apply land_bit; [lia|done].
Qed.

(** The legacy conversions of the set mask. Reading a raw mask in and out
    again keeps its 64 low bits and drops the rest, whatever its sign;
    writing a mask out and reading it in again keeps the ids from 0 to 63
    and drops all others. *)
Theorem legacy_mask_round_trip (raw : Z) (m : SetMask.ComponentMask) (i : Z) :
  SetMask.getMask (SetMask.fromMask raw) = Z.land raw (Z.ones 64)
  ∧ SetMask.componentIds (SetMask.fromMask (SetMask.getMask m)) =
      filter (λ id, 0 ≤ id < 64) (SetMask.componentIds m)
  ∧ SetMask.has (SetMask.fromMask (SetMask.getMask m)) i =
      (SetMask.has m i && bool_decide (i < 64)).
Proof.
  assert (∀ j, j ∈ SetMask.componentIds (SetMask.fromMask (SetMask.getMask m))
               ↔ j ∈ SetMask.componentIds m ∧ 0 ≤ j < 64) as Helem.
  { intros j. rewrite elem_of_fromMask. split.
    - intros [Hj Hb]. rewrite getMask_testbit in Hb by lia.
      apply bool_decide_eq_true_1 in Hb. tauto.
    - intros [Hin Hj]. split; [done|]. rewrite getMask_testbit by lia.
      apply bool_decide_eq_true_2. split; [done|lia]. }
  split_and!.
  - apply Z.bits_inj'. intros n Hn.
    rewrite getMask_testbit by done. rewrite Z.land_spec.
    destruct (decide (n < 64)) as [Hlt|Hge].
    + rewrite Z.ones_spec_low by lia. rewrite andb_true_r.
      destruct (Z.testbit raw n) eqn:Hb.
      * apply bool_decide_eq_true_2. split; [|done]. apply elem_of_fromMask. split; [lia|done].
      * apply bool_decide_eq_false_2. intros [Hin _].
        apply elem_of_fromMask in Hin as [_ Hin]. congruence.
    + rewrite Z.ones_spec_high by lia. rewrite andb_false_r.
      apply bool_decide_eq_false_2. lia.
  - apply set_eq. intros j. rewrite Helem, elem_of_filter. tauto.
  - unfold SetMask.has. case_bool_decide as Hneg; [done|].
    destruct (decide (i < 64)) as [Hlt|Hge].
    + rewrite (bool_decide_eq_true_2 (i < 64)) by done. rewrite andb_true_r.
      apply bool_decide_ext. rewrite Helem. split; [tauto|]. intros ?. split; [done|lia].
    + rewrite (bool_decide_eq_false_2 (i < 64)) by done. rewrite andb_false_r.
      apply bool_decide_eq_false_2. rewrite Helem. lia.
Qed.

(** The view of a set mask as a bigint mask. *)
Definition asBigint (m : SetMask.ComponentMask) : BigintMask.ComponentMask :=
  BigintMask.fromMask (SetMask.getMask m).

(** The two masks agree on the ids from 0 to 63: through [getMask], every
    operation of the set mask on such an id is the operation of the bigint
    mask, and [has] of the bigint view is [has] of the set mask cut off at
    64. Unions and intersections commute with the view; a set mask that
    contains (or equals) another has a view that contains (or equals) the
    other's view, and conversely when the ids of both stay below 64. On an id
    of 64 or more the two differ: the set mask records it, the bigint mask
    throws. *)
Theorem set_mask_refines_bigint_mask (a b : SetMask.ComponentMask) (i : Z) :
  (0 ≤ i < 64 →
     asBigint (SetMask.set i a).2 = (BigintMask.set i (asBigint a)).2
     ∧ asBigint (SetMask.clearComponent i a) =
         BigintMask.clearComponent i (asBigint a))
  ∧ (64 ≤ i →
       returned (SetMask.set i a).1 = true
       ∧ SetMask.has (SetMask.set i a).2 i = true
       ∧ returned (BigintMask.set i (asBigint a)).1 = false)
  ∧ BigintMask.has (asBigint a) i = (SetMask.has a i && bool_decide (i < 64))
  ∧ asBigint (SetMask.union a b) = BigintMask.union (asBigint a) (asBigint b)
  ∧ asBigint (SetMask.intersect a b) = BigintMask.intersect (asBigint a) (asBigint b)
  ∧ (SetMask.contains a b = true → BigintMask.contains (asBigint a) (asBigint b) = true)
  ∧ (SetMask.equals a b = true → BigintMask.equals (asBigint a) (asBigint b) = true)
  ∧ ((∀ j, j ∈ SetMask.componentIds a ∪ SetMask.componentIds b → 0 ≤ j < 64) →
       SetMask.contains a b = BigintMask.contains (asBigint a) (asBigint b)
       ∧ SetMask.equals a b = BigintMask.equals (asBigint a) (asBigint b)).
Proof.
  assert (∀ x y : SetMask.ComponentMask,
            SetMask.contains x y = true ↔ SetMask.componentIds y ⊆ SetMask.componentIds x)
    as Hcontains.
  { intros x y. unfold SetMask.contains. rewrite forallb_forall. split.
    - intros Hall j Hj. specialize (Hall j).
      rewrite <-list_elem_of_In, elem_of_elements in Hall.
      specialize (Hall Hj). by apply bool_decide_eq_true in Hall.
    - intros Hsub j Hj%list_elem_of_In%elem_of_elements.
      apply bool_decide_eq_true_2. by apply Hsub. }
  assert (∀ x y : SetMask.ComponentMask,
            SetMask.equals x y = true ↔ SetMask.componentIds x = SetMask.componentIds y)
    as Hequals.
  { intros x y. unfold SetMask.equals. case_bool_decide as Hsize; cbn.
    - rewrite forallb_forall. split.
      + intros Hall. symmetry. apply set_eq. intros j. split; [|intros Hj].
        * intros Hj. destruct (decide (j ∈ SetMask.componentIds x)) as [|Hnot]; [done|].
          exfalso. assert (SetMask.componentIds x ⊂ SetMask.componentIds y) as Hstrict.
          { split.
            - intros k Hk. specialize (Hall k).
              rewrite <-list_elem_of_In, elem_of_elements in Hall.
              specialize (Hall Hk). by apply bool_decide_eq_true in Hall.
            - intros Hsub. by apply Hnot, Hsub. }
          apply subset_size in Hstrict. lia.
        * specialize (Hall j). rewrite <-list_elem_of_In, elem_of_elements in Hall.
          specialize (Hall Hj). by apply bool_decide_eq_true in Hall.
      + intros Heq j Hj%list_elem_of_In%elem_of_elements.
        apply bool_decide_eq_true_2. by rewrite <-Heq.
    - split; [done|]. intros Heq. by rewrite Heq in Hsize. }
  assert (∀ x y : SetMask.ComponentMask,
            (∀ n, 0 ≤ n → Z.testbit (SetMask.getMask x) n = Z.testbit (SetMask.getMask y) n)
            → asBigint x = asBigint y) as Hext.
  { intros x y Hbits. unfold asBigint, BigintMask.fromMask. f_equal.
    by apply Z.bits_inj'. }
  assert (∀ x y : SetMask.ComponentMask,
            BigintMask.contains (asBigint x) (asBigint y) = true ↔
            ∀ n, 0 ≤ n < 64 → n ∈ SetMask.componentIds y → n ∈ SetMask.componentIds x)
    as Hbig.
  { intros x y. unfold BigintMask.contains, asBigint. cbn. rewrite bool_decide_eq_true.
    split.
    - intros Heq n Hn Hin.
      assert (Z.testbit (SetMask.getMask y) n = true) as Hb.
      { rewrite getMask_testbit by lia. apply bool_decide_eq_true_2. split; [done|lia]. }
      rewrite <-Heq, Z.land_spec, !getMask_testbit in Hb by lia.
      apply andb_true_iff in Hb as [Hb _]. apply bool_decide_eq_true_1 in Hb. tauto.
    - intros Hall. apply Z.bits_inj'. intros n Hn.
      rewrite Z.land_spec, !getMask_testbit by done.
      destruct (bool_decide (n ∈ SetMask.componentIds y ∧ n < 64)) eqn:Hy;
        [|apply andb_false_r].
      apply bool_decide_eq_true_1 in Hy. rewrite andb_true_r.
      apply bool_decide_eq_true_2. split; [apply Hall; [lia|tauto]|tauto]. }
  assert (∀ x y : SetMask.ComponentMask,
            BigintMask.equals (asBigint x) (asBigint y) = true ↔
            ∀ n, 0 ≤ n < 64 → n ∈ SetMask.componentIds x ↔ n ∈ SetMask.componentIds y)
    as Hbigeq.
  { intros x y. unfold BigintMask.equals, asBigint. cbn. rewrite bool_decide_eq_true.
    split.
    - intros Heq n Hn.
      pose proof (getMask_testbit x n ltac:(lia)) as Hx.
      pose proof (getMask_testbit y n ltac:(lia)) as Hy.
      rewrite Heq, Hy in Hx.
      destruct (decide (n ∈ SetMask.componentIds x)), (decide (n ∈ SetMask.componentIds y));
        try tauto; exfalso.
      + rewrite (bool_decide_eq_false_2 (n ∈ SetMask.componentIds y ∧ n < 64)) in Hx by tauto.
        rewrite bool_decide_eq_true_2 in Hx by (split; [done|lia]). done.
      + rewrite (bool_decide_eq_true_2 (n ∈ SetMask.componentIds y ∧ n < 64)) in Hx
          by (split; [done|lia]).
        rewrite bool_decide_eq_false_2 in Hx by tauto. done.
    - intros Hall. apply Z.bits_inj'. intros n Hn. rewrite !getMask_testbit by done.
      apply bool_decide_ext. destruct (decide (n < 64)); [|lia].
      specialize (Hall n ltac:(lia)). tauto. }
  split_and!.
  - intros Hi. split.
    + unfold SetMask.set, BigintMask.set.
      rewrite bool_decide_eq_false_2 by lia. rewrite bool_decide_eq_false_2 by lia.
      unfold asBigint, BigintMask.fromMask. cbn. f_equal.
      apply Z.bits_inj'. intros n Hn.
      rewrite Z.lor_spec, bit_testbit, !getMask_testbit by done. cbn.
      destruct (decide (n = i)) as [->|Hne].
      * rewrite (bool_decide_eq_true_2 (i = i)) by done. rewrite orb_true_r.
        apply bool_decide_eq_true_2. split; [set_solver|lia].
      * rewrite (bool_decide_eq_false_2 (n = i)) by done. rewrite orb_false_r.
        apply bool_decide_ext. set_solver.
    + unfold SetMask.clearComponent, BigintMask.clearComponent.
      rewrite bool_decide_eq_false_2 by lia. rewrite bool_decide_eq_false_2 by lia.
      unfold asBigint, BigintMask.fromMask. cbn. f_equal.
      apply Z.bits_inj'. intros n Hn.
      rewrite Z.land_spec, Z.lnot_spec, bit_testbit, !getMask_testbit by done. cbn.
      destruct (decide (n = i)) as [->|Hne].
      * rewrite (bool_decide_eq_true_2 (i = i)) by done. cbn. rewrite andb_false_r.
        apply bool_decide_eq_false_2. set_solver.
      * rewrite (bool_decide_eq_false_2 (n = i)) by done. cbn. rewrite andb_true_r.
        apply bool_decide_ext. set_solver.
  - intros Hi. unfold SetMask.set, BigintMask.set, SetMask.has.
    rewrite !(bool_decide_eq_false_2 (i < 0)) by lia. cbn.
    rewrite (bool_decide_eq_true_2 (i < 0 ∨ 64 ≤ i)) by lia. cbn. split_and!; try done.
    apply bool_decide_eq_true_2. set_solver.
  - rewrite bigint_has_testbit. unfold asBigint. cbn. unfold SetMask.has.
    destruct (decide (i < 0)) as [Hneg|Hneg].
    + rewrite (bool_decide_eq_false_2 (0 ≤ i < 64)) by lia.
      by rewrite (bool_decide_eq_true_2 (i < 0)) by lia.
    + rewrite (bool_decide_eq_false_2 (i < 0)) by lia.
      rewrite getMask_testbit by lia.
      destruct (decide (i < 64)) as [Hlt|Hge].
      * rewrite (bool_decide_eq_true_2 (0 ≤ i < 64)) by lia.
        rewrite (bool_decide_eq_true_2 (i < 64)) by lia. rewrite andb_true_r. cbn.
        apply bool_decide_ext. tauto.
      * rewrite (bool_decide_eq_false_2 (0 ≤ i < 64)) by lia.
        rewrite (bool_decide_eq_false_2 (i < 64)) by lia. by rewrite andb_false_r.
  - unfold asBigint, BigintMask.union, BigintMask.fromMask. cbn. f_equal.
    apply Z.bits_inj'. intros n Hn. rewrite Z.lor_spec, !getMask_testbit by done. cbn.
    rewrite <-bool_decide_or. apply bool_decide_ext. rewrite elem_of_union. tauto.
  - unfold asBigint, BigintMask.intersect, BigintMask.fromMask. cbn. f_equal.
    apply Z.bits_inj'. intros n Hn. rewrite Z.land_spec, !getMask_testbit by done. cbn.
    rewrite <-bool_decide_and. apply bool_decide_ext. rewrite elem_of_filter. tauto.
  - rewrite Hcontains, Hbig. intros Hsub n _ Hn. by apply Hsub.
  - rewrite Hequals, Hbigeq. intros Heq n _. by rewrite Heq.
  - intros Hsmall. split.
    + apply eq_true_iff_eq. rewrite Hcontains, Hbig. split.
      * intros Hsub n _ Hn. by apply Hsub.
      * intros Hall n Hn. apply Hall; [|done]. apply Hsmall. set_solver.
    + apply eq_true_iff_eq. rewrite Hequals, Hbigeq. split.
      * intros Heq n _. by rewrite Heq.
      * intros Hall. apply set_eq. intros n. split; intros Hn;
          apply Hall; try done; apply Hsmall; set_solver.
Qed.

Lemma set_mask_refines_bigint_mask_witness :
  let a := SetMask.fromComponentIdSet {[1; 5]} in
  let b := SetMask.fromComponentIdSet {[5]} in
  (asBigint (SetMask.set 3 a).2 = (BigintMask.set 3 (asBigint a)).2
   ∧ asBigint (SetMask.clearComponent 3 a) = BigintMask.clearComponent 3 (asBigint a))
  ∧ (returned (SetMask.set 1000 a).1 = true
     ∧ SetMask.has (SetMask.set 1000 a).2 1000 = true
     ∧ returned (BigintMask.set 1000 (asBigint a)).1 = false)
  ∧ (SetMask.contains a b = BigintMask.contains (asBigint a) (asBigint b)
     ∧ SetMask.equals a b = BigintMask.equals (asBigint a) (asBigint b)).
Proof.
  intros a b.
  destruct (set_mask_refines_bigint_mask a b 3) as (H1 & _ & _ & _ & _ & _ & _ & H8).
  destruct (set_mask_refines_bigint_mask a b 1000) as (_ & H2 & _).
  split_and!.
  - apply H1. lia.
  - apply H1. lia.
  - apply H2. lia.
  - apply H2. lia.
  - apply H2. lia.
  - apply H8. intros j Hj. subst a b. cbn in Hj.
    assert (j = 1 ∨ j = 5) as [-> | ->] by set_solver; lia.
  - apply H8. intros j Hj. subst a b. cbn in Hj.
    assert (j = 1 ∨ j = 5) as [-> | ->] by set_solver; lia.
Defined.

End MaskProperties.

(** * Source screening ([system-loader/security-validator.ts]) *)

Module Security.
Import Stdlib.Strings.Ascii.

(** Source text is a list of characters. The scanner compares characters
    with ASCII characters only and copies or skips them one at a time. *)
Abbreviation Text := (list ascii).

Definition text (s : string) : Text := String.list_ascii_of_string s.

Inductive Mode : Type :=
| Code
| InString (stringChar previous : ascii)
| InComment.

Definition isQuote (c : ascii) : bool :=
  bool_decide (c = "034"%char) || bool_decide (c = "'"%char) || bool_decide (c = "`"%char).

(** The [while] loop of [removeCommentsAndStrings], from position [i] on:
    [source] is what is left from [source[i]] on, and inside a string
    [previous] is [source[i - 1]]. *)
Fixpoint scan (mode : Mode) (source : Text) : Text :=
  match source with
  | [] => []
  | char :: rest =>
      match mode with
      | Code =>
          match rest with
          | nextChar :: rest' =>
              if bool_decide (char = "/"%char) && bool_decide (nextChar = "/"%char)
              then scan InComment rest'
              else if bool_decide (char = "/"%char) && bool_decide (nextChar = "*"%char)
              then scan InComment rest'
              else if isQuote char then scan (InString char char) rest
              else char :: scan Code rest
          | [] =>
              if isQuote char then scan (InString char char) rest
              else char :: scan Code rest
          end
      | InString stringChar previous =>
          if bool_decide (char = stringChar) && negb (bool_decide (previous = "\"%char))
          then scan Code rest
          else scan (InString stringChar char) rest
      | InComment =>
          if bool_decide (char = "010"%char)
          then char :: scan Code rest
          else
            match rest with
            | nextChar :: rest' =>
                if bool_decide (char = "*"%char) && bool_decide (nextChar = "/"%char)
                then scan Code rest'
                else scan InComment rest
            | [] => scan InComment rest
            end
      end
  end.

(** [removeCommentsAndStrings(source)] *)
Definition removeCommentsAndStrings (source : Text) : Text := scan Code source.

(** [haystack.includes(needle)] *)
Fixpoint startsWith (needle haystack : Text) : bool :=
  match needle, haystack with
  | [], _ => true
  | _ :: _, [] => false
  | a :: needle', b :: haystack' => bool_decide (a = b) && startsWith needle' haystack'
  end.
Fixpoint includesText (needle haystack : Text) : bool :=
  startsWith needle haystack ||
  match haystack with
  | [] => false
  | _ :: haystack' => includesText needle haystack'
  end.

Inductive Error : Type :=
| DangerousKeyword (keyword : string)
| PrototypeManipulation
| ConstructorAccess.

Definition dangerousKeywords : list string :=
  ["require("; "import "; "eval("; "Function("; "setTimeout("; "setInterval(";
   "process."; "global."; "window."; "document."].

(** [keyword.trim()] for the keywords of the list: only ["import "] has
    white space to lose. *)
Definition trimKeyword (keyword : string) : string :=
  if decide (keyword = "import ") then "import" else keyword.

(** [validateStringPatterns(source)]: [None] when nothing is found. *)
Definition validateStringPatterns (source : Text) : option Error :=
  let cleanSource := removeCommentsAndStrings source in
  match list_find (λ keyword, includesText (text keyword) cleanSource = true)
          dangerousKeywords with
  | Some (_, keyword) => Some (DangerousKeyword (trimKeyword keyword))
  | None =>
      if includesText (text "__proto__") cleanSource then Some PrototypeManipulation
      else if includesText (text "constructor.constructor") cleanSource
      then Some ConstructorAccess
      else None
  end.

(** A [RegExp] of the configuration, by its source text and its [test]. The
    expressions of the default configuration carry no [g] or [y] flag, so
    that [test] keeps no state between calls. *)
Record Pattern : Type := mkPattern {
  p_source : string;
  p_test : Text → bool;
}.

(** The [SecurityConfig]; [validateSource] does not read [allowedGlobals]. *)
Record SecurityConfig : Type := mkSecurityConfig {
  blockedPatterns : list Pattern;
  maxSourceLength : Z;
}.

Inductive SourceError : Type :=
| SourceTooLong (sourceLength max : Z)
| BlockedPattern (pattern : string)
| Screened (e : Error).

(** [validateSource(source)]: [None] when the source passes. *)
Definition validateSource (config : SecurityConfig) (source : Text)
  : option SourceError :=
  if bool_decide (Z.of_nat (length source) > maxSourceLength config)
  then Some (SourceTooLong (Z.of_nat (length source)) (maxSourceLength config))
  else match list_find (λ pattern, p_test pattern source = true)
               (blockedPatterns config) with
       | Some (_, pattern) => Some (BlockedPattern (p_source pattern))
       | None => Screened <$> validateStringPatterns source
       end.

End Security.

(** * Properties of the source screening *)

Section SecurityProperties.
Import Stdlib.Strings.Ascii Security.

(** What the scanner emits, in any mode: a subsequence of its input that
    holds no quote character. *)
Lemma scan_shape (mode : Mode) (source : Text) :
  scan mode source `sublist_of` source
  ∧ Forall (λ c, isQuote c = false) (scan mode source).
Proof.
  remember (length source) as n eqn:Hn. revert source Hn mode.
  induction n as [n IHn] using lt_wf_ind. intros source -> mode.
  assert (∀ s m, (length s < length source)%nat →
            scan m s `sublist_of` s ∧ Forall (λ c, isQuote c = false) (scan m s)) as IH.
  { intros s m Hs. by apply (IHn (length s) Hs). }
  clear IHn.
  destruct source as [|char rest]; [done|]. cbn [scan].
  destruct mode as [|stringChar previous|].
  - destruct rest as [|nextChar rest'].
    + destruct (isQuote char) eqn:Hq; cbn; [split; [by apply sublist_cons|done]|].
      split; [done|]. by repeat constructor.
    + destruct (_ && _).
      { destruct (IH rest' InComment) as [H1 H2]; [cbn; lia|].
        split; [by do 2 apply sublist_cons|done]. }
      destruct (_ && _).
      { destruct (IH rest' InComment) as [H1 H2]; [cbn; lia|].
        split; [by do 2 apply sublist_cons|done]. }
      destruct (isQuote char) eqn:Hq.
      * destruct (IH (nextChar :: rest') (InString char char)) as [H1 H2]; [cbn; lia|].
        split; [by apply sublist_cons|done].
      * destruct (IH (nextChar :: rest') Code) as [H1 H2]; [cbn; lia|].
        split; [by apply sublist_skip|by constructor].
  - destruct (_ && _).
    + destruct (IH rest Code) as [H1 H2]; [cbn; lia|]. split; [by apply sublist_cons|done].
    + destruct (IH rest (InString stringChar char)) as [H1 H2]; [cbn; lia|].
      split; [by apply sublist_cons|done].
  - case_bool_decide as Hnl.
    { destruct (IH rest Code) as [H1 H2]; [cbn; lia|].
      split; [by apply sublist_skip|]. constructor; [by subst|done]. }
    destruct rest as [|nextChar rest']; [split; [by apply sublist_cons|done]|].
    destruct (_ && _).
    + destruct (IH rest' Code) as [H1 H2]; [cbn; lia|].
      split; [by do 2 apply sublist_cons|done].
    + destruct (IH (nextChar :: rest') InComment) as [H1 H2]; [cbn; lia|].
      split; [by apply sublist_cons|done].
Qed.

Lemma scan_code_plain (source : Text) :
  Forall (λ c, c ≠ "/"%char ∧ isQuote c = false) source →
  scan Code source = source.
Proof.
  induction 1 as [|char rest [Hs Hq] _ IH]; [done|]. cbn [scan].
  rewrite (bool_decide_eq_false_2 (char = "/"%char)) by done. cbn.
  rewrite Hq, IH. by destruct rest.
Qed.

(** The cleaned source is a subsequence of the source that holds no quote
    character, and a source without slashes and quote characters is
    returned as it is. *)
Theorem removeCommentsAndStrings_shape (source : Text) :
  removeCommentsAndStrings source `sublist_of` source
  ∧ Forall (λ c, isQuote c = false) (removeCommentsAndStrings source)
  ∧ (Forall (λ c, c ≠ "/"%char ∧ isQuote c = false) source →
       removeCommentsAndStrings source = source).
Proof.
  destruct (scan_shape Code source) as [H1 H2].
  split_and!; [done|done|apply scan_code_plain].
Qed.

Lemma removeCommentsAndStrings_shape_witness :
  removeCommentsAndStrings (text "let x = a + b;") = text "let x = a + b;".
Proof.
  apply (removeCommentsAndStrings_shape (text "let x = a + b;")).
  repeat constructor; done.
Defined.

Lemma scan_string_open (q previous : ascii) (tail : Text) :
  q ∉ tail → scan (InString q previous) tail = [].
Proof.
  revert previous. induction tail as [|char rest IH]; intros previous Hq; [done|].
  apply not_elem_of_cons in Hq as [Hne Hq]. cbn [scan].
  rewrite (bool_decide_eq_false_2 (char = q)) by done. cbn. by apply IH.
Qed.

Lemma scan_code_app (before rest : Text) :
  Forall (λ c, c ≠ "/"%char ∧ isQuote c = false) before →
  rest ≠ [] →
  scan Code (before ++ rest) = before ++ scan Code rest.
Proof.
  intros Hplain Hrest. induction Hplain as [|char before' [Hs Hq] _ IH]; [done|].
  cbn [app]. cbn [scan].
  rewrite (bool_decide_eq_false_2 (char = "/"%char)) by done. cbn.
  rewrite Hq, IH.
  destruct (before' ++ rest) eqn:Happ; [|done].
  apply app_eq_nil in Happ as [_ ?]. done.
Qed.

(** A quote that follows a backslash never closes a string, also when the
    backslash is itself escaped. After a string literal that holds a single
    backslash, written with any of the three quote characters, the scanner
    is still inside the string: when the quote character does not occur
    again, all the code after the literal is dropped from the cleaned
    source, and [validateStringPatterns] gives the verdict it gives for the
    text before the literal, whatever the code after it is. *)
Theorem code_after_backslash_literal_is_hidden (q : ascii) (before after : Text) :
  isQuote q = true →
  Forall (λ c, c ≠ "/"%char ∧ isQuote c = false) before →
  q ∉ after →
  removeCommentsAndStrings (before ++ [q; "\"%char; "\"%char; q] ++ after) = before
  ∧ validateStringPatterns (before ++ [q; "\"%char; "\"%char; q] ++ after)
    = validateStringPatterns before.
Proof.
  intros Hq Hplain Hafter.
  assert (q ≠ "\"%char) as Hqb.
  { intros ->. by vm_compute in Hq. }
  assert (removeCommentsAndStrings (before ++ [q; "\"%char; "\"%char; q] ++ after) = before)
    as Hclean.
  { unfold removeCommentsAndStrings. rewrite scan_code_app by done.
    cbn [app scan].
    assert (q ≠ "/"%char) as Hqs by (intros ->; by vm_compute in Hq).
    rewrite (bool_decide_eq_false_2 (q = "/"%char)) by done. cbn. rewrite Hq.
    rewrite ?(bool_decide_eq_false_2 ("\"%char = q)) by done. cbn.
    rewrite (bool_decide_eq_true_2 (q = q)) by done.
    rewrite (bool_decide_eq_true_2 ("\"%char = "\"%char)) by done. cbn.
    rewrite scan_string_open by done. apply app_nil_r. }
  split; [done|].
  unfold validateStringPatterns. rewrite Hclean.
  unfold removeCommentsAndStrings. by rewrite scan_code_plain.
Qed.

Lemma code_after_backslash_literal_is_hidden_witness :
  validateStringPatterns
    (text "let s = " ++ ["'"; "\"; "\"; "'"]%char
       ++ text "; ({}).__proto__.polluted = 1;")
  = None.
Proof.
  rewrite (proj2 (code_after_backslash_literal_is_hidden "'"%char (text "let s = ")
                    (text "; ({}).__proto__.polluted = 1;")
                    eq_refl
                    ltac:(repeat constructor; done)
                    ltac:(vm_compute; intros H;
                          repeat (apply elem_of_cons in H as [H|H]; [discriminate|]);
                          by apply elem_of_nil in H))).
  reflexivity.
Defined.

Lemma scan_comment_skip (char : ascii) (rest : Text) :
  char ≠ "010"%char → char ≠ "*"%char →
  scan InComment (char :: rest) = scan InComment rest.
Proof.
  intros Hn Hs. cbn [scan].
  rewrite (bool_decide_eq_false_2 (char = "010"%char)) by done.
  rewrite (bool_decide_eq_false_2 (char = "*"%char)) by done. by destruct rest.
Qed.

Lemma scan_comment_line (body rest : Text) :
  Forall (λ c, c ≠ "010"%char ∧ c ≠ "*"%char) body →
  scan InComment (body ++ "010"%char :: rest) = "010"%char :: scan Code rest
  ∧ scan InComment (body ++ "*"%char :: "/"%char :: rest) = scan Code rest.
Proof.
  induction 1 as [|char body' [Hn Hs] _ [IH1 IH2]].
  - cbn [app scan]. rewrite (bool_decide_eq_true_2 ("010"%char = "010"%char)) by done.
    split; [done|]. by rewrite (bool_decide_eq_false_2 ("*"%char = "010"%char)).
  - cbn [app]. by rewrite !scan_comment_skip.
Qed.

Lemma scan_comment_open (l : Text) :
  scan Code (text "//" ++ l) = scan InComment l
  ∧ scan Code (text "/*" ++ l) = scan InComment l.
Proof.
  cbn [text String.list_ascii_of_string app scan].
  rewrite !(bool_decide_eq_true_2 ("/"%char = "/"%char)) by done.
  rewrite (bool_decide_eq_false_2 ("*"%char = "/"%char)) by done.
  rewrite (bool_decide_eq_true_2 ("*"%char = "*"%char)) by done. done.
Qed.

(** The scanner keeps one comment state for both kinds of comment, so each
    kind ends at the other's terminator too. A block comment is over at the
    first line break: what follows on the next lines, still inside the
    comment for JavaScript, is scanned as code. A line comment is over at
    the first [*/]: what follows on the same line is scanned as code. The
    verdict of [validateStringPatterns] is the one for that remaining text. *)
Theorem comment_ends_at_either_terminator (body rest : Text) :
  Forall (λ c, c ≠ "010"%char ∧ c ≠ "*"%char) body →
  removeCommentsAndStrings (text "/*" ++ body ++ "010"%char :: rest)
    = "010"%char :: removeCommentsAndStrings rest
  ∧ removeCommentsAndStrings (text "//" ++ body ++ text "*/" ++ rest)
    = removeCommentsAndStrings rest
  ∧ validateStringPatterns (text "//" ++ body ++ text "*/" ++ rest)
    = validateStringPatterns rest.
Proof.
  intros Hbody. destruct (scan_comment_line body rest Hbody) as [H1 H2].
  assert (removeCommentsAndStrings (text "//" ++ body ++ text "*/" ++ rest)
          = removeCommentsAndStrings rest) as Hline.
  { unfold removeCommentsAndStrings.
    rewrite (proj1 (scan_comment_open _)). exact H2. }
  split_and!.
  - unfold removeCommentsAndStrings.
    rewrite (proj2 (scan_comment_open _)). exact H1.
  - exact Hline.
  - unfold validateStringPatterns. by rewrite Hline.
Qed.

Lemma comment_ends_at_either_terminator_witness :
  validateStringPatterns (text "// see docs */ x.__proto__")
  = Some PrototypeManipulation.
Proof.
  change (text "// see docs */ x.__proto__")
    with (text "//" ++ text " see docs " ++ text "*/" ++ text " x.__proto__").
  rewrite (proj2 (proj2 (comment_ends_at_either_terminator (text " see docs ")
                           (text " x.__proto__")
                           ltac:(repeat constructor; done)))).
  reflexivity.
Defined.

End SecurityProperties.

(** * Listing entities by owner and by access *)

Section AccessControlListings.
Import AccessControl.

(** [getOwnedEntities(systemId)], [getReadableEntities(systemId)] and
    [getCreatedEntities(systemId)]: the entity ids the loop over the table
    collects. Their callers only test membership, and so does this
    embedding: the ids are given as a set. *)
Definition getOwnedEntities (ac : EntityAccessControl) (systemId : SystemId) : gset Z :=
  dom (filter (λ p : Z * EntityOwnership, owner p.2 = systemId) (entityOwnership ac)).

Definition getReadableEntities (ac : EntityAccessControl) (systemId : SystemId) : gset Z :=
  dom (filter (λ p : Z * EntityOwnership,
                 owner p.2 = systemId
                 ∨ (includes systemId (delegates p.2) = true
                    ∧ includes READ (permissions p.2) = true))
              (entityOwnership ac)).

Definition getCreatedEntities (ac : EntityAccessControl) (systemId : SystemId) : gset Z :=
  dom (filter (λ p : Z * EntityOwnership, createdBy p.2 = systemId) (entityOwnership ac)).

(** The listings agree with the checks made on single entities: an entity
    is listed as readable by a system exactly when [hasPermission] grants the
    system [READ] on it, as owned exactly when the system is its recorded
    owner, as created exactly when the system is its recorded creator; what
    a system owns it can read, and after [cleanupSystemEntities] the system
    owns nothing and has created nothing. *)
Theorem listings_agree_with_checks (ac : EntityAccessControl) (systemId : SystemId)
    (e : Entity) :
  (id e ∈ getReadableEntities ac systemId ↔ hasPermission ac e systemId READ = true)
  ∧ (id e ∈ getOwnedEntities ac systemId ↔ owner <$> getOwnership ac e = Some systemId)
  ∧ (id e ∈ getCreatedEntities ac systemId
     ↔ createdBy <$> getOwnership ac e = Some systemId)
  ∧ getOwnedEntities ac systemId ⊆ getReadableEntities ac systemId
  ∧ getOwnedEntities (cleanupSystemEntities systemId ac) systemId = ∅
  ∧ getCreatedEntities (cleanupSystemEntities systemId ac) systemId = ∅.
Proof.
  assert (∀ (P : Z * EntityOwnership → Prop) `{!∀ p, Decision (P p)}
            (m : gmap Z EntityOwnership) i,
            i ∈ dom (filter P m) ↔ ∃ o : EntityOwnership, m !! i = Some o ∧ P (i, o))
    as Hdom.
  { intros P ? m i. rewrite elem_of_dom. unfold is_Some.
    setoid_rewrite map_lookup_filter_Some. done. }
  assert (∀ i o, entityOwnership (cleanupSystemEntities systemId ac) !! i = Some o →
            owner o ≠ systemId ∧ createdBy o ≠ systemId)
    as Hclean.
  { intros i o. cbn. rewrite lookup_omap.
    destruct (entityOwnership ac !! i) as [o0|]; cbn; [|done].
    case_bool_decide as Hb; [done|]. intros [= <-]. cbn.
    split; tauto. }
  split_and!.
  - unfold getReadableEntities. rewrite Hdom. cbn. unfold hasPermission.
    destruct (entityOwnership ac !! id e) as [o|]; [|split; [by intros (? & ? & _)|done]].
    split.
    + intros (o' & [= <-] & Hp). destruct (decide (owner o = systemId)); [done|].
      destruct Hp as [?|[-> ->]]; done.
    + intros Hp. exists o. split; [done|].
      destruct (decide (owner o = systemId)); [by left|].
      right. destruct (includes systemId (delegates o)); [done|done].
  - unfold getOwnedEntities, getOwnership. rewrite Hdom. cbn.
    destruct (entityOwnership ac !! id e) as [o|]; cbn.
    + split; [by intros (o' & [= <-] & ->)|]. intros [= Ho]. by exists o.
    + split; [by intros (? & ? & _)|done].
  - unfold getCreatedEntities, getOwnership. rewrite Hdom. cbn.
    destruct (entityOwnership ac !! id e) as [o|]; cbn.
    + split; [by intros (o' & [= <-] & ->)|]. intros [= Ho]. by exists o.
    + split; [by intros (? & ? & _)|done].
  - intros i. unfold getOwnedEntities, getReadableEntities. rewrite !Hdom. cbn.
    intros (o & Ho & Hown). exists o. split; [done|by left].
  - apply set_eq. intros i. unfold getOwnedEntities. rewrite Hdom. cbn.
    split; [|set_solver]. intros (o & Ho & Hown).
    by destruct (Hclean i o Ho) as (? & _).
  - apply set_eq. intros i. unfold getCreatedEntities. rewrite Hdom. cbn.
    split; [|set_solver]. intros (o & Ho & Hown).
    by destruct (Hclean i o Ho) as (_ & ?).
Qed.

End AccessControlListings.

(** * The system loader ([system-loader/system-loader.ts]) *)

Module Loader.

Section WithCompiler.
(** What the TypeScript compiler and the sandbox deal in: compiled code,
    what [compile] and [vm.run] throw, and the part of a system definition
    that the loader passes on as it is ([required], the callbacks, the gas
    configuration). *)
Context {JS CompileError SandboxError Body : Type}.

(** The object that the sandboxed code hands back: its [name], whether its
    [execute] is a function, and the rest. *)
Record Captured : Type := mkCaptured {
  c_name : option string;
  c_hasExecute : bool;
  c_body : Body;
}.

(** A [UserSystem] as the loader makes it, with the two fields the loader
    adds to the object. *)
Record UserSystem : Type := mkUserSystem {
  us_name : string;
  us_id : Z;
  us_body : Body;
  us_originalName : string;
  us_deploymentId : string;
}.

Record LoadResult : Type := mkLoadResult {
  system : UserSystem;
  source : Security.Text;
  compiledJS : JS;
  loadTime : Z;
}.

Record DeploymentOptions : Type := mkDeploymentOptions {
  uniqueId : option string;
  instanceSuffix : option string;
}.

(** The numbered steps of [loadFromSource]. *)
Inductive Stage : Type :=
| SyntaxCheck | SecurityCheck | Wrap | Compile | Execute | Capture | Identify | Register.

#[global] Instance Stage_eq_dec : EqDecision Stage.
Proof. solve_decision. Defined.

(** The loader with what it shares with the code it runs: the cache
    [loadedSystems], the static counter [UserSystem.nextId], which every
    [new UserSystem] advances, and as a record of the run the steps that
    were entered, in order. *)
Record SystemLoader : Type := mkLoader {
  loadedSystems : gmap string LoadResult;
  userSystemNextId : Z;
  stages : list Stage;
}.

(** What makes [loadFromSource] throw; the [catch] block puts the text
    ["Failed to load system: "] before the message of each. *)
Inductive Error : Type :=
| SyntaxErrors (syntaxErrors : list string)
| SecurityError (e : Security.SourceError)
| CompileFailed (e : CompileError)
| SandboxFailed (e : SandboxError)
| InvalidDefinition.

Variable config : Security.SecurityConfig.

(** [tsCompiler.validateSyntax(source)]: the parse diagnostics. *)
Variable validateSyntax : Security.Text → list string.

(** The text that [wrapSourceCode] puts before and after the source. *)
Variable wrapperHead wrapperTail : Security.Text.

(** [tsCompiler.compile(source, fileName)] *)
Variable compile : Security.Text → string → Outcome CompileError JS.

(** [executeInSandbox(compiledJS, filename)]: the value of [vm.run], [None]
    when it is no object. The code reaches the host through [defineSystem],
    whose [new UserSystem] advances the counter. *)
Variable executeInSandbox : JS → option string → Exec Z SandboxError (option Captured).

Local Open Scope exec_scope.

(** [wrapSourceCode(source)] *)
Definition wrapSourceCode (source : Security.Text) : Security.Text :=
  wrapperHead ++ source ++ wrapperTail.

Fixpoint zeros (n : nat) : string :=
  match n with
  | O => ""
  | S n' => "0" +:+ zeros n'
  end.

(** [s.padStart(4, '0')] *)
Definition padStart4 (s : string) : string := zeros (4 - String.length s) +:+ s.

(** [options?.uniqueId] and [options?.instanceSuffix] as conditions: a
    string that is not empty. *)
Definition given (s : option string) : option string :=
  match s with
  | Some s' => if decide (s' = "") then None else Some s'
  | None => None
  end.

(** [generateUniqueSystemId(originalName, options)]; [timestamp] is
    [Date.now()] and [random] is [Math.floor(Math.random() * 10000)]. *)
Definition generateUniqueSystemId (originalName : string)
    (options : option DeploymentOptions) (timestamp random : Z) : string :=
  match given (options ≫= uniqueId) with
  | Some unique => originalName +:+ "_" +:+ unique
  | None =>
      match given (options ≫= instanceSuffix) with
      | Some suffix => originalName +:+ "_" +:+ suffix +:+ "_" +:+ pretty timestamp
      | None =>
          originalName +:+ "_" +:+ pretty timestamp +:+ "_" +:+ padStart4 (pretty random)
      end
  end.

Definition enter (stage : Stage) : Exec SystemLoader Error unit :=
  modify (λ l, {| loadedSystems := loadedSystems l;
                  userSystemNextId := userSystemNextId l;
                  stages := stages l ++ [stage] |}).

(** A call that runs in the sandbox. *)
Definition onSandbox {A} (m : Exec Z SandboxError A) : Exec SystemLoader Error A :=
  λ l, match m (userSystemNextId l) with
       | (Returned a, n) =>
           (Returned a, {| loadedSystems := loadedSystems l; userSystemNextId := n;
                           stages := stages l |})
       | (Thrown e, n) =>
           (Thrown (SandboxFailed e),
            {| loadedSystems := loadedSystems l; userSystemNextId := n;
               stages := stages l |})
       end.

(** [new UserSystem(definition)] with the two fields set after it. *)
Definition newUserSystem (name originalName : string) (body : Body)
  : Exec SystemLoader Error UserSystem :=
  λ l, (Returned {| us_name := name; us_id := userSystemNextId l; us_body := body;
                    us_originalName := originalName; us_deploymentId := name |},
        {| loadedSystems := loadedSystems l;
           userSystemNextId := userSystemNextId l + 1;
           stages := stages l |}).

(** [this.loadedSystems.set(userSystem.name, loadResult)] *)
Definition cache (loadResult : LoadResult) : Exec SystemLoader Error unit :=
  modify (λ l, {| loadedSystems := <[us_name (system loadResult) := loadResult]>
                                     (loadedSystems l);
                  userSystemNextId := userSystemNextId l;
                  stages := stages l |}).

(** [loadFromSource(source, filename, deploymentOptions)]; [startTime] and
    [endTime] are the two readings of [performance.now()], [timestamp] and
    [random] those of [generateUniqueSystemId]. *)
Definition loadFromSource (source : Security.Text) (filename : option string)
    (deploymentOptions : option DeploymentOptions)
    (startTime timestamp random endTime : Z) : Exec SystemLoader Error UserSystem :=
  enter SyntaxCheck ;;
  match validateSyntax source with
  | syntaxError :: syntaxErrors => throw (SyntaxErrors (syntaxError :: syntaxErrors))
  | [] =>
      enter SecurityCheck ;;
      match Security.validateSource config source with
      | Some e => throw (SecurityError e)
      | None =>
          enter Wrap ;;
          let wrappedSource := wrapSourceCode source in
          enter Compile ;;
          match compile wrappedSource (AccessControl.orString filename "user-system.ts") with
          | Thrown e => throw (CompileFailed e)
          | Returned compiledJS =>
              enter Execute ;;
              let* result := onSandbox (executeInSandbox compiledJS filename) in
              enter Capture ;;
              match result with
              | None => throw InvalidDefinition
              | Some captured =>
                  if negb (c_hasExecute captured) then throw InvalidDefinition
                  else
                    enter Identify ;;
                    let originalName :=
                      AccessControl.orString (c_name captured) "UnnamedSystem" in
                    let uniqueSystemId :=
                      generateUniqueSystemId originalName deploymentOptions
                        timestamp random in
                    let* userSystem :=
                      newUserSystem uniqueSystemId originalName (c_body captured) in
                    enter Register ;;
                    cache {| system := userSystem; source := source;
                             compiledJS := compiledJS;
                             loadTime := endTime - startTime |} ;;
                    ret userSystem
              end
          end
      end
  end.

(** [getLoadedSystem(name)] *)
Definition getLoadedSystem (l : SystemLoader) (name : string) : option UserSystem :=
  system <$> loadedSystems l !! name.

End WithCompiler.

Arguments Captured : clear implicits.
Arguments UserSystem : clear implicits.
Arguments LoadResult : clear implicits.
Arguments SystemLoader : clear implicits.
Arguments Error : clear implicits.

End Loader.

(** * Properties of the system loader *)

Section LoaderProperties.
Import Loader.
Context {JS CompileError SandboxError Body : Type}.
Variable config : Security.SecurityConfig.
Variable validateSyntax : Security.Text → list string.
Variable wrapperHead wrapperTail : Security.Text.
Variable compile : Security.Text → string → Outcome CompileError JS.
Variable executeInSandbox :
  JS → option string → Exec Z SandboxError (option (Captured Body)).

Local Abbreviation SystemLoader := (Loader.SystemLoader JS Body).
Local Abbreviation load :=
  (loadFromSource config validateSyntax wrapperHead wrapperTail compile executeInSandbox).

(** The steps of [loadFromSource] in the order of the source. *)
Definition stagesInOrder : list Stage :=
  [SyntaxCheck; SecurityCheck; Wrap; Compile; Execute; Capture; Identify; Register].

(** C5. The steps that a call of [loadFromSource] enters are the first few
    of syntax check, security check, wrapping, compilation, execution in the
    sandbox, capture check, naming and registration, in this order: the
    compiler is entered only after the security check of the raw source, and
    only for a source that passed it. A source with syntax errors, a source
    that the security check rejects, a compilation that throws, a sandbox
    run that throws and a result that is no object or has no [execute]
    function each make the call throw, the first two without the compiler
    being entered. Whenever the call throws, the cache of loaded systems is
    as it was before the call; when it returns, all steps were entered and
    the cache holds the new system under its name. *)
Theorem loadFromSource_all_or_nothing (source : Security.Text) (filename : option string)
    (options : option DeploymentOptions) (startTime timestamp random endTime : Z)
    (l : SystemLoader) :
  let r := load source filename options startTime timestamp random endTime l in
  let steps := drop (length (stages l)) (stages r.2) in
  let wrapped := wrapSourceCode wrapperHead wrapperTail source in
  let fileName := AccessControl.orString filename "user-system.ts" in
  stages r.2 = stages l ++ steps
  ∧ (∃ n, steps = take n stagesInOrder)
  ∧ (Compile ∈ steps →
       validateSyntax source = [] ∧ Security.validateSource config source = None)
  ∧ (validateSyntax source ≠ [] →
       r.1 = Thrown (SyntaxErrors (validateSyntax source)) ∧ steps = [SyntaxCheck])
  ∧ (∀ e, validateSyntax source = [] →
          Security.validateSource config source = Some e →
          r.1 = Thrown (SecurityError e) ∧ steps = [SyntaxCheck; SecurityCheck])
  ∧ (∀ e, validateSyntax source = [] →
          Security.validateSource config source = None →
          compile wrapped fileName = Thrown e →
          r.1 = Thrown (CompileFailed e))
  ∧ (∀ compiledJS e n,
          validateSyntax source = [] →
          Security.validateSource config source = None →
          compile wrapped fileName = Returned compiledJS →
          executeInSandbox compiledJS filename (userSystemNextId l) = (Thrown e, n) →
          r.1 = Thrown (SandboxFailed e))
  ∧ (∀ compiledJS result n,
          validateSyntax source = [] →
          Security.validateSource config source = None →
          compile wrapped fileName = Returned compiledJS →
          executeInSandbox compiledJS filename (userSystemNextId l) = (Returned result, n) →
          (result = None ∨ ∃ captured, result = Some captured ∧ c_hasExecute captured = false) →
          r.1 = Thrown InvalidDefinition)
  ∧ (returned r.1 = false → loadedSystems r.2 = loadedSystems l)
  ∧ (∀ userSystem, r.1 = Returned userSystem →
       steps = stagesInOrder
       ∧ getLoadedSystem r.2 (us_name userSystem) = Some userSystem).
Proof.
  intros r steps wrapped fileName. subst r steps.
  unfold loadFromSource, enter, onSandbox, newUserSystem, cache, bind, modify, throw, ret.
  fold wrapped fileName. cbn.
  destruct (validateSyntax source) as [|syntaxError syntaxErrors] eqn:Hsyntax; cbn.
  2: { rewrite drop_app_length.
       split_and!; try done; try (intros; simplify_eq; first [congruence | by split]).
       - by exists 1%nat.
       - intros Hin. repeat (apply elem_of_cons in Hin as [Hin|Hin]; [done|]).
      by apply elem_of_nil in Hin. }
  destruct (Security.validateSource config source) as [e|] eqn:Hsecurity; cbn.
  { rewrite <-app_assoc, drop_app_length. cbn.
    split_and!; try done; try (intros; simplify_eq; first [congruence | by split]).
    - by exists 2%nat.
    - intros Hin. repeat (apply elem_of_cons in Hin as [Hin|Hin]; [done|]).
      by apply elem_of_nil in Hin. }
  destruct (compile wrapped fileName) as [compiledJS|e] eqn:Hcompile; cbn.
  2: { rewrite <-!app_assoc, drop_app_length. cbn.
       split_and!; try done; try (intros; simplify_eq; first [congruence | by split]).
       by exists 4%nat. }
  destruct (executeInSandbox compiledJS filename (userSystemNextId l))
    as [[result|e] n] eqn:Hrun; cbn.
  2: { rewrite <-!app_assoc, drop_app_length. cbn.
       split_and!; try done; try (intros; simplify_eq; first [congruence | by split]).
       by exists 5%nat. }
  destruct result as [captured|]; cbn.
  2: { rewrite <-!app_assoc, drop_app_length. cbn.
       split_and!; try done; try (intros; simplify_eq; first [congruence | by split]).
       by exists 6%nat. }
  destruct (c_hasExecute captured) eqn:Hexecute; cbn.
  2: { rewrite <-!app_assoc, drop_app_length. cbn.
       split_and!; try done; try (intros; simplify_eq; first [congruence | by split]).
       by exists 6%nat. }
  rewrite <-!app_assoc, drop_app_length. cbn.
  split_and!; try done; try (intros; simplify_eq; first [congruence | by split]).
  - by exists 8%nat.
  - intros js result n' _ _ [= <-] Hr Hor. rewrite Hrun in Hr. injection Hr as <- _.
    destruct Hor as [?|(c & [= <-] & Hc')]; congruence.
  - intros userSystem [= <-]. split; [done|].
    unfold getLoadedSystem. cbn. by rewrite lookup_insert_eq.
Qed.

End LoaderProperties.

(** The scenario of the specification: a source that calls a blocked
    nondeterministic API. The compiler of this loader throws on every input,
    so that a load that ends with the error of the security check has not
    reached it. *)
Definition exampleSecurityConfig : Security.SecurityConfig :=
  {| Security.blockedPatterns :=
       [Security.mkPattern "Math\.random"
          (Security.includesText (Security.text "Math.random"))];
     Security.maxSourceLength := 10000 |}.

Definition exampleLoader : Loader.SystemLoader Security.Text unit :=
  {| Loader.loadedSystems := ∅; Loader.userSystemNextId := 1000; Loader.stages := [] |}.

Definition exampleLoad (source : Security.Text)
  : Outcome (Loader.Error string string) (Loader.UserSystem unit)
    * Loader.SystemLoader Security.Text unit :=
  Loader.loadFromSource (JS := Security.Text) (CompileError := string)
    (SandboxError := string) (Body := unit) exampleSecurityConfig (λ _, []) [] []
    (λ _ _, Thrown "not reached") (λ _ _ n, (Returned None, n))
    source None None 0 0 0 0 exampleLoader.

Lemma loadFromSource_all_or_nothing_witness :
  let source := Security.text "defineSystem('Dice', { execute: c => Math.random() })" in
  (exampleLoad source).1
    = Thrown (Loader.SecurityError (Security.BlockedPattern "Math\.random"))
  ∧ Loader.stages (exampleLoad source).2 = [Loader.SyntaxCheck; Loader.SecurityCheck]
  ∧ Loader.loadedSystems (exampleLoad source).2 = ∅.
Proof.
  intros source.
  destruct (loadFromSource_all_or_nothing
              (JS := Security.Text) (CompileError := string) (SandboxError := string)
              (Body := unit) exampleSecurityConfig (λ _, []) [] []
              (λ _ _, Thrown "not reached") (λ _ _ n, (Returned None, n))
              source None None 0 0 0 0 exampleLoader)
    as (Hstages & _ & _ & _ & Hsecurity & _ & _ & _ & Hcache & _).
  destruct (Hsecurity (Security.BlockedPattern "Math\.random") eq_refl) as [Hthrown Hsteps].
  { vm_compute. reflexivity. }
  fold (exampleLoad source) in Hstages, Hthrown, Hsteps, Hcache.
  split; [exact Hthrown|]. split.
  - rewrite Hstages, Hsteps. reflexivity.
  - apply Hcache. by rewrite Hthrown.
Defined.
